(** * forum-replier: ingestion and retrieval pipeline

    A shallow embedding of the ingestion-and-retrieval core of the
    forum-replier bot (text chunker, documentation crawler, GitHub
    fetcher, indexing task, query pipeline) together with the properties
    its specification states about them.

    Conventions.
    - A Python [str] is a [list ascii]: a sequence of code points, here the
      code points below 256.  [len] is [length].
    - Python integers that count things ([chunk_size], [chunk_overlap],
      [max_pages], [max_files], ...) are [nat].
    - A generator is modelled by the list of the values it yields when it is
      consumed to the end, the way every caller in the repository consumes it.
    - Calls into external libraries (HTTP client, HTML parser, GitHub client,
      SQLAlchemy session, ChromaDB, sentence-transformers, the LLM) are
      parameters of the sections that use them. *)

From Stdlib Require Import Ascii String List Arith NArith Lia Bool
  DecimalString.
From stdpp Require Import base list gmap strings.

Import ListNotations.
Local Open Scope list_scope.
Local Open Scope nat_scope.

(** ** Python string primitives *)

Module Py.

Definition str := list ascii.

(** A string literal. *)
Definition lit (s : string) : str := list_ascii_of_string s.

(** [c.isspace()] for a code point below 256: TAB, LF, VT, FF, CR,
    FS, GS, RS, US, SPACE, NEL (0x85) and NBSP (0xA0). *)
Definition isspace (c : ascii) : bool :=
  let n := nat_of_ascii c in
  ((9 <=? n) && (n <=? 13)) || ((28 <=? n) && (n <=? 32))
  || (n =? 133) || (n =? 160).

(** [s.lstrip()] *)
Fixpoint lstrip (s : str) : str :=
  match s with
  | [] => []
  | c :: s' => if isspace c then lstrip s' else s
  end.

(** [s.rstrip()] *)
Fixpoint rstrip (s : str) : str :=
  match s with
  | [] => []
  | c :: s' =>
      match rstrip s' with
      | [] => if isspace c then [] else [c]
      | r => c :: r
      end
  end.

(** [s.strip()] *)
Definition strip (s : str) : str := rstrip (lstrip s).

(** [s.rstrip(ch)] for a one-character argument. *)
Fixpoint rstrip_char (ch : ascii) (s : str) : str :=
  match s with
  | [] => []
  | c :: s' =>
      match rstrip_char ch s' with
      | [] => if Ascii.eqb c ch then [] else [c]
      | r => c :: r
      end
  end.

(** [s.startswith(p)] *)
Fixpoint startswith (s p : str) {struct p} : bool :=
  match p, s with
  | [], _ => true
  | _ :: _, [] => false
  | a :: p', b :: s' => Ascii.eqb a b && startswith s' p'
  end.

(** [s.endswith(p)] *)
Definition endswith (s p : str) : bool := startswith (rev s) (rev p).

(** [p in s] (substring test). *)
Fixpoint contains (s p : str) : bool :=
  match s with
  | [] => startswith [] p
  | _ :: s' => startswith s p || contains s' p
  end.

(** [s.split(sep)] for a non-empty separator: the pieces between the
    non-overlapping occurrences of [sep], scanned left to right.  [skip]
    counts the characters of a matched separator still to be dropped. *)
Fixpoint split_from (sep : str) (skip : nat) (s : str) : list str :=
  match s with
  | [] => [[]]
  | c :: s' =>
      match skip with
      | S k => split_from sep k s'
      | 0 =>
          if startswith s sep then [] :: split_from sep (length sep - 1) s'
          else match split_from sep 0 s' with
               | p :: ps => (c :: p) :: ps
               | [] => [[c]]
               end
      end
  end.

Definition split (sep s : str) : list str := split_from sep 0 s.

(** [s.replace(old, new)] for a non-empty [old]. *)
Fixpoint replace_from (old new : str) (skip : nat) (s : str) : str :=
  match s with
  | [] => []
  | c :: s' =>
      match skip with
      | S k => replace_from old new k s'
      | 0 =>
          if startswith s old
          then new ++ replace_from old new (length old - 1) s'
          else c :: replace_from old new 0 s'
      end
  end.

Definition replace (old new s : str) : str := replace_from old new 0 s.

(** [sep.join(parts)] *)
Fixpoint join (sep : str) (parts : list str) : str :=
  match parts with
  | [] => []
  | [p] => p
  | p :: ps => p ++ sep ++ join sep ps
  end.

(** [s[-k:]]: the last [k] characters, all of [s] when it is shorter;
    and, as [-0] is [0], all of [s] when [k = 0]. *)
Definition slice_last (k : nat) (s : str) : str :=
  match k with
  | 0 => s
  | _ => skipn (length s - k) s
  end.

(** [s[:k]], on strings and on lists. *)
Definition slice_to {A : Type} (k : nat) (s : list A) : list A := firstn k s.

Global Arguments slice_to {A} k s : simpl never.

(** [c.lower()] for a code point below 256: the letters A-Z and the
    Latin-1 capitals 0xC0-0xDE (0xD7, the multiplication sign, apart) move
    up by 32; [s.lower()]. *)
Definition lower_char (c : ascii) : ascii :=
  let n := nat_of_ascii c in
  if ((65 <=? n) && (n <=? 90))
     || ((192 <=? n) && (n <=? 222) && negb (n =? 215))
  then ascii_of_nat (n + 32) else c.

Definition lower (s : str) : str := map lower_char s.

(** Truthiness of a string. *)
Definition nonempty (s : str) : bool :=
  match s with [] => false | _ => true end.

(** [a == b] on strings. *)
Definition str_eqb (a b : str) : bool := bool_decide (a = b).

(** [x in xs] for a list or set literal of strings. *)
Definition str_in (x : str) (xs : list str) : bool := existsb (str_eqb x) xs.

(** [s.find(ch)] as the text before the first [ch] and, when there is one,
    the text after it: [s.split(ch, 1)]. *)
Fixpoint cut_at (stop : ascii -> bool) (s : str) : str * option str :=
  match s with
  | [] => ([], None)
  | c :: s' =>
      if stop c then ([], Some s')
      else let '(a, b) := cut_at stop s' in (c :: a, b)
  end.

(** Exceptions carry their message, [str(e)]. *)
Inductive Exn : Type := Exception (msg : str).

Definition str_of_exn (e : Exn) : str := match e with Exception m => m end.

(** The outcome of a call that may raise. *)
Inductive Result (A : Type) : Type :=
| Ok (a : A)
| Raise (e : Exn).

Arguments Ok {A} a.
Arguments Raise {A} e.

End Py.

Import Py.

Definition LF : ascii := ascii_of_nat 10.

(** ** Text chunker ([app/ingestion/chunker.py]) *)

Module Chunker.

Section WithMetadata.

(** The metadata dictionary is copied into every chunk and never inspected
    by the chunker; its type is left open. *)
Context {Meta : Type}.

Record Chunk := mkChunk { content : str; metadata : Meta }.

(** The paragraph separator ["\n\n"] and the sentence separator [". "]. *)
Definition para_sep : str := [LF; LF].
Definition sentence_end : str := lit ". ".
Definition sentence_break : str := [ascii_of_nat 46; LF].

(** [if current_chunk.strip(): yield Chunk(current_chunk.strip(), metadata.copy())] *)
Definition flush (current_chunk : str) (metadata : Meta) : list Chunk :=
  if nonempty (strip current_chunk)
  then [mkChunk (strip current_chunk) metadata]
  else [].

(** [sentences = text.replace(". ", ".\n").split("\n")] *)
Definition sentences (text : str) : list str :=
  split [LF] (replace sentence_end sentence_break text).

(** One iteration of the loop of [_split_large_text]; the state is the
    running [current_chunk] and the chunks yielded so far. *)
Definition split_step (chunk_size : nat) (metadata : Meta)
    (st : str * list Chunk) (sentence : str) : str * list Chunk :=
  let '(current_chunk, out) := st in
  let sentence := strip sentence in
  if negb (nonempty sentence) then st
  else if chunk_size <? length current_chunk + length sentence then
    (sentence, out ++ flush current_chunk metadata)
  else
    (if nonempty current_chunk then current_chunk ++ lit " " ++ sentence
     else sentence,
     out).

(** [TextChunker._split_large_text] *)
Definition split_large_text (chunk_size : nat) (text : str) (metadata : Meta)
    : list Chunk :=
  let '(current_chunk, out) :=
    fold_left (split_step chunk_size metadata) (sentences text) ([], []) in
  out ++ flush current_chunk metadata.

(** The buffer that follows a flush when the paragraph fits in a chunk:
    [overlap = current_chunk[-chunk_overlap:] if len(current_chunk) >
    chunk_overlap else ""], then [overlap + "\n\n" + paragraph if overlap
    else paragraph]. *)
Definition overlap_of (chunk_overlap : nat) (current_chunk : str) : str :=
  if chunk_overlap <? length current_chunk
  then slice_last chunk_overlap current_chunk
  else [].

Definition restart (chunk_overlap : nat) (current_chunk paragraph : str) : str :=
  let overlap := overlap_of chunk_overlap current_chunk in
  if nonempty overlap then overlap ++ para_sep ++ paragraph else paragraph.

(** One iteration of the loop of [chunk_text]. *)
Definition chunk_step (chunk_size chunk_overlap : nat) (metadata : Meta)
    (st : str * list Chunk) (paragraph : str) : str * list Chunk :=
  let '(current_chunk, out) := st in
  let paragraph := strip paragraph in
  if negb (nonempty paragraph) then st
  else if chunk_size <? length current_chunk + length paragraph then
    let out := out ++ flush current_chunk metadata in
    if chunk_size <? length paragraph then
      ([], out ++ split_large_text chunk_size paragraph metadata)
    else
      (restart chunk_overlap current_chunk paragraph, out)
  else
    (if nonempty current_chunk then current_chunk ++ para_sep ++ paragraph
     else paragraph,
     out).

(** [paragraphs = text.split("\n\n")] *)
Definition paragraphs (text : str) : list str := split para_sep text.

(** [TextChunker.chunk_text], for a chunker built with [chunk_size] and
    [chunk_overlap]. *)
Definition chunk_text (chunk_size chunk_overlap : nat) (text : str)
    (metadata : Meta) : list Chunk :=
  let text := strip text in
  if negb (nonempty text) then []
  else
    let '(current_chunk, out) :=
      fold_left (chunk_step chunk_size chunk_overlap metadata)
                (paragraphs text) ([], []) in
    out ++ flush current_chunk metadata.

End WithMetadata.

Arguments Chunk : clear implicits.

(** Defaults of [TextChunker.__init__]. *)
Definition default_chunk_size : nat := 1000.
Definition default_chunk_overlap : nat := 200.

End Chunker.

(** ** Documentation crawler ([app/ingestion/crawler.py]) *)

Module Crawler.

Record CrawledPage := mkPage { url : str; title : str; content : str }.

(** The two components of [urllib.parse.urlparse]'s result the crawler
    reads. *)
Record ParseResult := mkParse { netloc : str; path : str }.

(** What [client.get(url)] and the HTML parser give for a URL:
    - [FetchError]: the request, [raise_for_status] or the extraction raised;
    - [NotHtml]: the content type does not contain [text/html];
    - [Html title content hrefs]: the extracted title, the text returned by
      [_extract_content], and the [href] attributes of the [a] elements in
      document order. *)
Inductive Response : Type :=
| FetchError
| NotHtml
| Html (title content : str) (hrefs : list str).

(** The state of a crawl: the [visited] set, the trace of the calls to
    [visited.add] (oldest first), and the pages yielded so far. *)
Record CrawlState := mkCrawl {
  visited : gset str;
  added : list str;
  pages : list CrawledPage
}.

Definition initial : CrawlState := mkCrawl ∅ [] [].

Record DocsCrawler := mkCrawler {
  base_url : str;
  max_pages : nat;
  max_depth : nat;
  base_domain : str;
  base_path_prefix : str
}.

Definition slash : ascii := ascii_of_nat 47.
Definition hash : ascii := ascii_of_nat 35.

(** [x.rstrip("/") or "/"] *)
Definition path_or_root (p : str) : str :=
  let p := rstrip_char slash p in
  if nonempty p then p else [slash].

(** [url.split("#")[0].rstrip("/")] *)
Definition normalize (url : str) : str :=
  rstrip_char slash (hd [] (split [hash] url)).

Definition skip_extensions : list str :=
  map lit [".pdf"; ".zip"; ".tar"; ".gz"; ".png"; ".jpg"; ".gif"; ".svg";
           ".css"; ".js"]%string.

Definition skipped_href_prefixes : list str :=
  map lit ["#"; "mailto:"; "javascript:"; "tel:"]%string.

Section WithWeb.

(** [urlparse]: [None] when it raises; [urljoin]; and the web. *)
Variable urlparse : str -> option ParseResult.
Variable urljoin : str -> str -> str.
Variable get : str -> Response.

(** [DocsCrawler.__init__]; [None] when [urlparse] raises. *)
Definition new_crawler (base_url : str) (max_pages max_depth : nat)
    : option DocsCrawler :=
  let base_url := rstrip_char slash base_url in
  match urlparse base_url with
  | None => None
  | Some parsed =>
      Some (mkCrawler base_url max_pages max_depth
                      (netloc parsed) (path_or_root (path parsed)))
  end.

(** [DocsCrawler._is_valid_url] *)
Definition is_valid_url (self : DocsCrawler) (url : str) : bool :=
  match urlparse url with
  | None => false
  | Some parsed =>
      if negb (str_eqb (netloc parsed) (base_domain self)) then false
      else
        let url_path := path_or_root (path parsed) in
        if negb (startswith url_path (base_path_prefix self)) then false
        else if existsb (fun ext => endswith (lower url_path) ext)
                        skip_extensions
        then false
        else true
  end.

(** [DocsCrawler._extract_links], on the [href]s of the page. *)
Fixpoint extract_links (self : DocsCrawler) (visited : gset str)
    (current_url : str) (hrefs : list str) : list str :=
  match hrefs with
  | [] => []
  | href :: rest =>
      let links := extract_links self visited current_url rest in
      if negb (nonempty href)
         || existsb (startswith href) skipped_href_prefixes
      then links
      else
        let absolute_url := normalize (urljoin current_url href) in
        if is_valid_url self absolute_url
           && negb (bool_decide (absolute_url ∈ visited))
        then absolute_url :: links
        else links
  end.

(** [self.visited.add(url)] *)
Definition visit (url : str) (st : CrawlState) : CrawlState :=
  mkCrawl ({[url]} ∪ visited st) (added st ++ [url]) (pages st).

(** [yield CrawledPage(url, title, content)] *)
Definition yield_page (p : CrawledPage) (st : CrawlState) : CrawlState :=
  mkCrawl (visited st) (added st) (pages st ++ [p]).

(** [for link in links: yield from self._crawl_recursive(link, depth + 1)],
    given the recursive call; [None] when a call ran out of fuel. *)
Fixpoint follow_links (recurse : str -> CrawlState -> option CrawlState)
    (links : list str) (st : CrawlState) : option CrawlState :=
  match links with
  | [] => Some st
  | link :: rest =>
      match recurse link st with
      | None => None
      | Some st' => follow_links recurse rest st'
      end
  end.

(** [DocsCrawler._crawl_recursive].  [fuel] bounds the nesting of the
    recursive calls; [None] means it ran out. *)
Fixpoint crawl_recursive (fuel : nat) (self : DocsCrawler) (url : str)
    (depth : nat) (st : CrawlState) : option CrawlState :=
  match fuel with
  | 0 => None
  | S fuel =>
      if max_depth self <? depth then Some st
      else if max_pages self <=? size (visited st) then Some st
      else
        let url := normalize url in
        if bool_decide (url ∈ visited st) then Some st
        else if negb (is_valid_url self url) then Some st
        else
          let st := visit url st in
          match get url with
          | FetchError => Some st
          | NotHtml => Some st
          | Html title content hrefs =>
              let st :=
                if nonempty (strip content)
                then yield_page (mkPage url title content) st
                else st in
              let links := extract_links self (visited st) url hrefs in
              follow_links
                (fun link st => crawl_recursive fuel self link (depth + 1) st)
                links st
          end
  end.

(** [DocsCrawler.crawl], consumed to the end.  The nesting of
    [_crawl_recursive] never exceeds [max_depth + 2]. *)
Definition crawl (self : DocsCrawler) : option CrawlState :=
  crawl_recursive (max_depth self + 2) self (base_url self) 0 initial.

End WithWeb.

(** *** A model of [urllib.parse] for the examples

    [urlparse] on an http(s) URL
    [scheme://netloc/path;params?query#fragment]: the scheme
    is the text before the first [:] when it is a letter followed by
    letters, digits, [+], [-] or [.]; a netloc follows [//] and runs to the
    first [/], [?] or [#]; the path runs to the first [?] or [#], its
    last segment cut at [;].  A netloc with an unmatched square bracket
    raises [ValueError]. *)

Definition is_alpha (c : ascii) : bool :=
  let n := nat_of_ascii c in
  ((65 <=? n) && (n <=? 90)) || ((97 <=? n) && (n <=? 122)).

Definition is_scheme_char (c : ascii) : bool :=
  let n := nat_of_ascii c in
  is_alpha c || ((48 <=? n) && (n <=? 57))
  || (n =? 43) || (n =? 45) || (n =? 46).

Definition is_char (n : nat) (c : ascii) : bool := nat_of_ascii c =? n.

Definition split_scheme (url : str) : str * str :=
  match cut_at (is_char 58) url with
  | (s, Some rest) =>
      match s with
      | c :: _ =>
          if is_alpha c && forallb is_scheme_char s then (lower s, rest)
          else ([], url)
      | [] => ([], url)
      end
  | (_, None) => ([], url)
  end.

(** The text up to the first character satisfying [stop], and the rest
    from that character on. *)
Fixpoint span_until (stop : ascii -> bool) (s : str) : str * str :=
  match s with
  | [] => ([], [])
  | c :: s' =>
      if stop c then ([], s)
      else let '(a, b) := span_until stop s' in (c :: a, b)
  end.

Definition is_delim (c : ascii) : bool :=
  is_char 47 c || is_char 63 c || is_char 35 c.

(** The last path segment is cut at its first [;]. *)
Fixpoint drop_params (p : str) : str :=
  match p with
  | [] => []
  | c :: p' =>
      if is_char 59 c && negb (existsb (is_char 47) p') then []
      else c :: drop_params p'
  end.

Definition urlparse (url : str) : option ParseResult :=
  let '(_, rest) := split_scheme url in
  let '(loc, rest) :=
    match rest with
    | a :: b :: rest' =>
        if is_char 47 a && is_char 47 b then span_until is_delim rest'
        else ([], rest)
    | _ => ([], rest)
    end in
  if xorb (existsb (is_char 91) loc) (existsb (is_char 93) loc) then None
  else
    let '(p, _) := span_until (fun c => is_char 63 c || is_char 35 c) rest in
    Some (mkParse loc (drop_params p)).

(** [urljoin] for an [href] that is already an absolute URL. *)
Definition urljoin_absolute (current_url href : str) : str := href.

End Crawler.

(** ** GitHub repository fetcher ([app/ingestion/github.py]) *)

Module GitHub.

Record GitHubFile := mkFile {
  path : str;
  content : str;
  url : str;
  file_type : str
}.

(** A [ContentFile] of the GitHub client: its [type] (["file"], ["dir"],
    ...), [path], reported [size], [html_url], and what
    [base64.b64decode(content).decode("utf-8")] gives ([None] when it
    raises). *)
Record ContentFile := mkContent {
  cf_type : str;
  cf_path : str;
  cf_size : N;
  cf_html_url : str;
  cf_decoded : option str
}.

(** [repo.get_contents(path)]: a [GithubException], one file, or a
    directory listing. *)
Inductive Contents : Type :=
| GithubException
| Single (f : ContentFile)
| Listing (items : list ContentFile).

Definition Repo : Type := str -> Contents.

Definition PRIORITY_FILES : list str :=
  map lit ["README.md"; "readme.md"; "README.rst"; "CONTRIBUTING.md";
           "CHANGELOG.md"; "ARCHITECTURE.md"; "docs/README.md";
           "doc/README.md"]%string.

Definition DOC_DIRS : list str :=
  map lit ["docs"; "doc"; "documentation"; "examples"; "samples"]%string.

Definition OPERATOR_DIRS : list str :=
  map lit ["api"; "apis"; "config/crd"; "config/rbac"; "config/samples";
           "bundle/manifests"; "charts"; "deploy"; "hack"]%string.

Definition relevant_extensions : list str :=
  map lit [".md"; ".rst"; ".txt"; ".adoc"; ".go"; ".py"; ".yaml"; ".yml";
           ".json"; ".sh"; ".bash"]%string.

(** The size above which a file is skipped: 500KB. *)
Definition size_ceiling : N := 500000%N.

(** The state of a fetch: [self.fetched_count] and the files yielded. *)
Record FetchState := mkFetch {
  fetched_count : nat;
  yielded : list GitHubFile
}.

(** [GitHubFetcher._get_file_type] *)
Definition get_file_type (dir_path : str) : str :=
  if contains dir_path (lit "api") then lit "api_types"
  else if contains dir_path (lit "crd") then lit "crd"
  else if contains dir_path (lit "rbac") then lit "rbac"
  else if contains dir_path (lit "sample") then lit "sample"
  else if contains dir_path (lit "chart") || contains dir_path (lit "helm")
  then lit "helm_chart"
  else if contains dir_path (lit "bundle") then lit "olm_bundle"
  else lit "code".

(** ["." + path.split(".")[-1] if "." in path else ""] *)
Definition extension (path : str) : str :=
  if contains path (lit ".")
  then lit "." ++ List.last (split (lit ".") path) []
  else [].

(** [GitHubFetcher._process_file] *)
Definition process_file (file_content : ContentFile) (file_type : str)
    (st : FetchState) : FetchState :=
  if (size_ceiling <? cf_size file_content)%N then st
  else if negb (str_in (lower (extension (cf_path file_content)))
                       relevant_extensions)
          && negb (str_in (cf_path file_content) PRIORITY_FILES)
  then st
  else
    match cf_decoded file_content with
    | None => st
    | Some content =>
        mkFetch (fetched_count st + 1)
                (yielded st ++ [mkFile (cf_path file_content) content
                                       (cf_html_url file_content) file_type])
    end.

Section WithRepo.

Variable max_files : nat.
Variable repo : Repo.

(** The loop of [_fetch_directory] over the items of a directory, given
    the recursive call; [None] when a call ran out of fuel. *)
Fixpoint walk (recurse : str -> FetchState -> option FetchState)
    (file_type : str) (contents : list ContentFile) (st : FetchState)
    : option FetchState :=
  match contents with
  | [] => Some st
  | item :: rest =>
      if max_files <=? fetched_count st then Some st
      else if str_eqb (cf_type item) (lit "dir") then
        match recurse (cf_path item) st with
        | None => None
        | Some st' => walk recurse file_type rest st'
        end
      else if str_eqb (cf_type item) (lit "file") then
        walk recurse file_type rest (process_file item file_type st)
      else walk recurse file_type rest st
  end.

(** [GitHubFetcher._fetch_directory].  [fuel] bounds the nesting of the
    recursive calls; [None] means it ran out. *)
Fixpoint fetch_directory (fuel : nat) (path file_type : str) (depth : nat)
    (st : FetchState) : option FetchState :=
  match fuel with
  | 0 => None
  | S fuel =>
      if (4 <? depth) || (max_files <=? fetched_count st) then Some st
      else
        let recurse :=
          fun path st => fetch_directory fuel path file_type (depth + 1) st in
        match repo path with
        | GithubException => Some st
        | Single f => walk recurse file_type [f] st
        | Listing items => walk recurse file_type items st
        end
  end.

(** The loop of [fetch] over [PRIORITY_FILES]. *)
Fixpoint fetch_priority (files : list str) (st : FetchState) : FetchState :=
  match files with
  | [] => st
  | file_path :: rest =>
      if max_files <=? fetched_count st then st
      else
        match repo file_path with
        | Single f => fetch_priority rest (process_file f (lit "readme") st)
        | Listing _ | GithubException => fetch_priority rest st
        end
  end.

(** The loops of [fetch] over [OPERATOR_DIRS] and [DOC_DIRS]; [type_of]
    gives the file type of a directory. *)
Fixpoint fetch_dirs (fuel : nat) (type_of : str -> str) (dirs : list str)
    (st : FetchState) : option FetchState :=
  match dirs with
  | [] => Some st
  | dir_path :: rest =>
      if max_files <=? fetched_count st then Some st
      else
        match fetch_directory fuel dir_path (type_of dir_path) 0 st with
        | None => None
        | Some st' => fetch_dirs fuel type_of rest st'
        end
  end.

(** The body of [fetch] once [get_repo] has returned. *)
Definition fetch_from (fuel : nat) (st : FetchState) : option FetchState :=
  let st := fetch_priority PRIORITY_FILES st in
  match fetch_dirs fuel get_file_type OPERATOR_DIRS st with
  | None => None
  | Some st => fetch_dirs fuel (fun _ => lit "docs") DOC_DIRS st
  end.

End WithRepo.

(** [GitHubFetcher.fetch] on a fresh fetcher, consumed to the end; the
    repository is [None] when [get_repo] raises [GithubException].  The
    nesting of [_fetch_directory] never exceeds 6. *)
Definition fetch (max_files : nat) (repo : option Repo) : option FetchState :=
  match repo with
  | None => Some (mkFetch 0 [])
  | Some repo => fetch_from max_files repo 6 (mkFetch 0 [])
  end.

End GitHub.

(** ** State and exceptions

    Code that threads a state and may raise is a function from the state
    to a result and the state it leaves behind; an exception keeps the
    state reached when it was raised. *)

Module Exc.

Definition M (S A : Type) : Type := S -> Result A * S.

Definition ret {S A : Type} (a : A) : M S A := fun s => (Ok a, s).

Definition bind {S A B : Type} (m : M S A) (k : A -> M S B) : M S B :=
  fun s =>
    match m s with
    | (Ok a, s') => k a s'
    | (Raise e, s') => (Raise e, s')
    end.

(** [raise e] *)
Definition raise {S A : Type} (e : Exn) : M S A := fun s => (Raise e, s).

(** [try: body  except Exception as e: handler(e)] *)
Definition try_except {S A : Type} (body : M S A) (handler : Exn -> M S A)
    : M S A :=
  fun s =>
    match body s with
    | (Ok a, s') => (Ok a, s')
    | (Raise e, s') => handler e s'
    end.

(** The outcome of a call to a collaborator, in the monad. *)
Definition lift {S A : Type} (r : Result A) : M S A := fun s => (r, s).

Definition gets {S A : Type} (f : S -> A) : M S A := fun s => (Ok (f s), s).

Definition modify {S : Type} (f : S -> S) : M S unit := fun s => (Ok tt, f s).

(** [for x in xs: body(x)] *)
Fixpoint for_each {S A : Type} (xs : list A) (body : A -> M S unit)
    : M S unit :=
  match xs with
  | [] => ret tt
  | x :: rest => bind (body x) (fun _ => for_each rest body)
  end.

End Exc.

Declare Scope exc_scope.
Delimit Scope exc_scope with exc.
Notation "x <- m ;; k" := (Exc.bind m (fun x => k))
  (at level 100, m at next level, k at level 200, right associativity)
  : exc_scope.
Notation "m ;; k" := (Exc.bind m (fun _ => k))
  (at level 100, k at level 200, right associativity) : exc_scope.

(** ** Query pipeline ([app/query/pipeline.py],
       [app/retrieval/vector_store.py], [app/ingestion/embedder.py]) *)

Module Pipeline.

(** The calls the pipeline makes to its collaborators, in the order it
    makes them: loading the embedding model ([Embedder()]),
    [collection.count()], [model.encode([query])],
    [collection.query(..., n_results)], and [generate_answer]. *)
Inductive Call : Type :=
| LoadModel
| CollectionCount
| EncodeQuery (query : str)
| CollectionQuery (n_results : nat)
| GenerateAnswer (question context : str).

(** The dictionary [answer_question] returns. *)
Record Answer := mkAnswer {
  answer : str;
  sources : list str;
  confidence : str
}.

(** Chunk metadata as stored in the index. *)
Abbreviation Meta := (gmap string str).

Section WithServices.

Context {Vec Dist Score : Type}.

(** The first row of what [collection.query] returns. *)
Record QueryResults := mkResults {
  documents : list str;
  metadatas : list Meta;
  distances : list Dist
}.

(** An entry of the list [VectorStore.query] returns. *)
Record Hit := mkHit { hit_content : str; hit_metadata : Meta; score : Score }.

(** The collaborators: the number of documents in the channel's
    collection, the embedding model on one query, the similarity query, the
    language model; and the floating-point operations [1 - dist] and
    [score < 0.3]. *)
Variable collection_count : nat.
Variable encode_query : str -> Result Vec.
Variable collection_query : Vec -> nat -> Result QueryResults.
Variable generate_answer : str -> str -> Result (str * str).
Variable one_minus : Dist -> Score.
Variable below_floor : Score -> bool.

Local Open Scope exc_scope.

Definition call (c : Call) : Exc.M (list Call) unit :=
  Exc.modify (fun trace => trace ++ [c]).

(** [Embedder.__init__] *)
Definition new_embedder : Exc.M (list Call) unit := call LoadModel.

(** [VectorStore.count] *)
Definition count : Exc.M (list Call) nat :=
  call CollectionCount ;; Exc.ret collection_count.

(** [Embedder.embed_query] *)
Definition embed_query (query : str) : Exc.M (list Call) Vec :=
  call (EncodeQuery query) ;; Exc.lift (encode_query query).

(** [zip(documents, metadatas, distances)] into the result dictionaries. *)
Fixpoint zip_hits (docs : list str) (metas : list Meta) (dists : list Dist)
    : list Hit :=
  match docs, metas, dists with
  | doc :: docs, meta :: metas, dist :: dists =>
      mkHit doc meta (one_minus dist) :: zip_hits docs metas dists
  | _, _, _ => []
  end.

(** [VectorStore.query] *)
Definition query (query_embedding : Vec) (n_results : nat)
    : Exc.M (list Call) (list Hit) :=
  Exc.try_except
    (call (CollectionQuery n_results) ;;
     results <- Exc.lift (collection_query query_embedding n_results) ;;
     Exc.ret (zip_hits (documents results) (metadatas results)
                       (distances results)))
    (fun _ => Exc.ret []).

Definition not_indexed : Answer :=
  mkAnswer
    (lit "I don't have any knowledge indexed yet. Please configure my knowledge sources first!")
    [] (lit "low").

Definition not_found : Answer :=
  mkAnswer
    (lit "I couldn't find relevant information to answer your question.")
    [] (lit "low").

Definition not_relevant : Answer :=
  mkAnswer
    (lit "I found some content but it doesn't seem relevant to your question. Could you rephrase?")
    [] (lit "low").

(** [metadata.get("url") or metadata.get("file_path")] *)
Definition source_of (metadata : Meta) : option str :=
  match metadata !! "url"%string with
  | Some u => if nonempty u then Some u else metadata !! "file_path"%string
  | None => metadata !! "file_path"%string
  end.

(** One iteration of the loop over [results]; the state is
    [(context_parts, sources)]. *)
Definition collect (st : list str * list str) (result : Hit)
    : list str * list str :=
  let '(context_parts, sources) := st in
  if below_floor (score result) then st
  else
    (context_parts ++ [hit_content result],
     match source_of (hit_metadata result) with
     | Some source =>
         if nonempty source && negb (str_in source sources)
         then sources ++ [source] else sources
     | None => sources
     end).

Definition context_separator : str :=
  [LF; LF] ++ lit "---" ++ [LF; LF].

(** [answer_question] *)
Definition answer_question (question : str) : Exc.M (list Call) Answer :=
  new_embedder ;;
  doc_count <- count ;;
  if doc_count =? 0 then Exc.ret not_indexed
  else
    query_embedding <- embed_query question ;;
    results <- query query_embedding 5 ;;
    if negb (match results with [] => false | _ => true end)
    then Exc.ret not_found
    else
      let '(context_parts, sources) := fold_left collect results ([], []) in
      if negb (match context_parts with [] => false | _ => true end)
      then Exc.ret not_relevant
      else
        let context := join context_separator context_parts in
        Exc.try_except
          (call (GenerateAnswer question context) ;;
           r <- Exc.lift (generate_answer question context) ;;
           Exc.ret (mkAnswer (fst r) (slice_to 3 sources) (snd r)))
          (fun e =>
             Exc.raise (Exception (lit "Failed to generate answer: "
                                     ++ str_of_exn e))).

End WithServices.

End Pipeline.

(** ** Indexing task ([app/ingestion/tasks.py], [app/models/source.py]) *)

Module Tasks.

Inductive SourceType : Type :=
| DOCUMENTATION
| GITHUB_OPERATOR
| GITHUB_OPERAND
| GITHUB_ISSUES
| SLACK_HISTORY.

(** [source_type.value] *)
Definition value (t : SourceType) : str :=
  match t with
  | DOCUMENTATION => lit "documentation"
  | GITHUB_OPERATOR => lit "github_operator"
  | GITHUB_OPERAND => lit "github_operand"
  | GITHUB_ISSUES => lit "github_issues"
  | SLACK_HISTORY => lit "slack_history"
  end.

Inductive SourceStatus : Type :=
| PENDING
| INDEXING
| INDEXED
| FAILED.

Definition status_eqb (a b : SourceStatus) : bool :=
  match a, b with
  | PENDING, PENDING | INDEXING, INDEXING
  | INDEXED, INDEXED | FAILED, FAILED => true
  | _, _ => false
  end.

(** A row of [knowledge_sources]; its [id] is the key it is stored under. *)
Record KnowledgeSource := mkSource {
  channel_id : str;
  source_type : SourceType;
  url : str;
  status : SourceStatus;
  last_indexed_at : option nat;
  error_message : option str
}.

Definition with_status (s : SourceStatus) (k : KnowledgeSource)
    : KnowledgeSource :=
  mkSource (channel_id k) (source_type k) (url k) s
           (last_indexed_at k) (error_message k).

Definition with_last_indexed_at (t : nat) (k : KnowledgeSource)
    : KnowledgeSource :=
  mkSource (channel_id k) (source_type k) (url k) (status k)
           (Some t) (error_message k).

Definition with_error_message (m : str) (k : KnowledgeSource)
    : KnowledgeSource :=
  mkSource (channel_id k) (source_type k) (url k) (status k)
           (last_indexed_at k) (Some m).

(** The message [_notify_slack] is called with: ["Ready! Indexed {indexed}
    knowledge source(s). ..."] or ["Indexing done. {indexed} succeeded,
    {failed} failed. ..."]. *)
Inductive Notice : Type :=
| Ready (indexed : nat)
| Mixed (indexed failed : nat).

(** The calls of a run that may raise, by their place in
    [_index_channel_sources] and [_notify_slack], with the values they are
    given:
    - [GetDb]: [next(get_db())]; [NewVectorStore]: [VectorStore(channel_id)];
      [NewEmbedder]: [Embedder()]; [QueryChannel]: the lookup of the
      [MonitoredChannel]; [QueryPending]: the query of the pending sources;
    - [PrintIndexing n c]: the print of ["Indexing {n} sources for channel
      {c}..."];
    - in the [try] of the loop, for the source [id]: [CommitIndexing id],
      the commit after [status = INDEXING]; [ReloadSource id], the reload of
      the attributes that commit expired; [PrintIndexed n t], the print of
      ["Indexed {n} chunks from {t}"]; [CommitIndexed id], the commit after
      [status = INDEXED];
    - in the handler: [RollbackFailed id], the [db.rollback()] that opens it;
      [PrintFailed m], the print of ["Failed to index source: {m}"];
      [RefreshSource id] and [CommitFailed id], in the inner [try]; and
      [RollbackGiveUp id], the [db.rollback()] of the inner handler;
    - [PrintComplete c]: the print of ["Indexing complete for channel {c}"];
      [CountIndexed] and [CountFailed]: the two counts;
    - in [_notify_slack]: [PostMessage c m], the making of the client and
      [chat_postMessage]; [PrintNotifyFailed m], the print of ["Failed to
      notify Slack: {m}"]. *)
Inductive Call : Type :=
| GetDb
| NewVectorStore
| NewEmbedder
| QueryChannel
| QueryPending
| PrintIndexing (count : nat) (channel : str)
| CommitIndexing (id : str)
| ReloadSource (id : str)
| PrintIndexed (count : nat) (source_type : str)
| CommitIndexed (id : str)
| RollbackFailed (id : str)
| PrintFailed (message : str)
| RefreshSource (id : str)
| CommitFailed (id : str)
| RollbackGiveUp (id : str)
| PrintComplete (channel : str)
| CountIndexed
| CountFailed
| PostMessage (slack_channel_id : str) (message : Notice)
| PrintNotifyFailed (message : str).

Section WithWorld.

Context {Meta Emb : Type}.

(** The world of a run:
    - [rows]: the table [knowledge_sources] as committed, by source id;
    - [objects]: the attribute values of the session's [KnowledgeSource]
      objects (they differ from [rows] between an assignment and the next
      [commit] or [rollback]);
    - [stored]: what was added to the channel's vector store;
    - [notified]: the messages posted to Slack, oldest first. *)
Record World := mkWorld {
  rows : gmap str KnowledgeSource;
  objects : gmap str KnowledgeSource;
  stored : list (str * Emb * Meta);
  notified : list (str * Notice)
}.

(** The collaborators: [fault c] is the exception the call [c] raises, if
    any; [utcnow id] is the time at which source [id] is marked indexed;
    the four fetch-and-chunk functions [_index_documentation],
    [_index_github], [_index_github_issues] and [_index_slack_history];
    the embedder; [collection.add]; and the Slack channel of a monitored
    channel ([None] when the channel is unknown). *)
Variable fault : Call -> option Exn.
Variable utcnow : str -> nat.
Variable index_documentation : str -> Result (list (Chunker.Chunk Meta)).
Variable index_github : str -> str -> Result (list (Chunker.Chunk Meta)).
Variable index_github_issues : str -> Result (list (Chunker.Chunk Meta)).
Variable index_slack_history : str -> Result (list (Chunker.Chunk Meta)).
Variable embed : list str -> Result (list Emb).
Variable collection_add :
  list str -> list Emb -> list Meta -> option Exn.
Variable slack_channel_of : str -> option str.

Local Open Scope exc_scope.

(** A call that changes nothing the run looks at: it raises or returns. *)
Definition call (c : Call) : Exc.M World unit :=
  fun w =>
    match fault c with
    | Some e => (Raise e, w)
    | None => (Ok tt, w)
    end.

Definition set_objects (o : gmap str KnowledgeSource) (w : World) : World :=
  mkWorld (rows w) o (stored w) (notified w).

(** [source.attr = v] *)
Definition assign (id : str) (f : KnowledgeSource -> KnowledgeSource)
    : Exc.M World unit :=
  Exc.modify (fun w => set_objects (alter f id (objects w)) w).

(** Reading the attributes of [source] after a commit expired them. *)
Definition load (id : str) : Exc.M World KnowledgeSource :=
  call (ReloadSource id) ;;
  fun w =>
    match objects w !! id with
    | Some k => (Ok k, w)
    | None => (Raise (Exception (lit "ObjectDeletedError")), w)
    end.

(** [db.commit()]: it raises and writes nothing, or writes the session's
    objects to the table. *)
Definition commit (c : Call) : Exc.M World unit :=
  call c ;;
  Exc.modify (fun w =>
    mkWorld (objects w) (objects w) (stored w) (notified w)).

(** [db.rollback()]: it raises, or the objects go back to what the table
    holds. *)
Definition rollback (c : Call) : Exc.M World unit :=
  call c ;;
  Exc.modify (fun w => set_objects (rows w) w).

(** [db.refresh(source)] *)
Definition refresh (id : str) : Exc.M World unit :=
  call (RefreshSource id) ;;
  fun w =>
    match rows w !! id with
    | Some k => (Ok tt, set_objects (<[id := k]> (objects w)) w)
    | None => (Raise (Exception (lit "InvalidRequestError")), w)
    end.

(** [VectorStore.add] *)
Definition vector_store_add (texts : list str) (embeddings : list Emb)
    (metadatas : list Meta) : Exc.M World unit :=
  match texts with
  | [] => Exc.ret tt
  | _ =>
      match collection_add texts embeddings metadatas with
      | Some e => Exc.raise e
      | None =>
          Exc.modify (fun w =>
            mkWorld (rows w) (objects w)
                    (stored w ++ zip (zip texts embeddings) metadatas)
                    (notified w))
      end
  end.

(** [_notify_slack]: the message is posted, or the failure to post it is
    printed. *)
Definition notify_slack (slack_channel_id : str) (message : Notice)
    : Exc.M World unit :=
  Exc.try_except
    (call (PostMessage slack_channel_id message) ;;
     Exc.modify (fun w =>
       mkWorld (rows w) (objects w) (stored w)
               (notified w ++ [(slack_channel_id, message)])))
    (fun e => call (PrintNotifyFailed (str_of_exn e))).

(** The dispatch on [source.source_type]. *)
Definition fetch_chunks (source : KnowledgeSource)
    : Result (list (Chunker.Chunk Meta)) :=
  match source_type source with
  | DOCUMENTATION => index_documentation (url source)
  | GITHUB_OPERATOR | GITHUB_OPERAND =>
      index_github (url source) (value (source_type source))
  | GITHUB_ISSUES => index_github_issues (url source)
  | SLACK_HISTORY => index_slack_history (url source)
  end.

(** [if chunks: ... embedder.embed(texts); vector_store.add(...);
    console.print(...)] *)
Definition embed_and_store (source : KnowledgeSource)
    (chunks : list (Chunker.Chunk Meta)) : Exc.M World unit :=
  match chunks with
  | [] => Exc.ret tt
  | _ =>
      let texts := map Chunker.content chunks in
      let metadatas := map Chunker.metadata chunks in
      embeddings <- Exc.lift (embed texts) ;;
      vector_store_add texts embeddings metadatas ;;
      call (PrintIndexed (length chunks) (value (source_type source)))
  end.

(** The body of the [try] of the loop. *)
Definition index_source_body (id : str) : Exc.M World unit :=
  assign id (with_status INDEXING) ;;
  commit (CommitIndexing id) ;;
  source <- load id ;;
  chunks <- Exc.lift (fetch_chunks source) ;;
  embed_and_store source chunks ;;
  assign id (with_status INDEXED) ;;
  assign id (with_last_indexed_at (utcnow id)) ;;
  commit (CommitIndexed id).

(** The [except Exception as e] of the loop: the rollback and the print
    are outside the inner [try]. *)
Definition record_failure (id : str) (e : Exn) : Exc.M World unit :=
  rollback (RollbackFailed id) ;;
  call (PrintFailed (str_of_exn e)) ;;
  Exc.try_except
    (refresh id ;;
     assign id (with_status FAILED) ;;
     assign id (with_error_message (slice_to 500 (str_of_exn e))) ;;
     commit (CommitFailed id))
    (fun _ => rollback (RollbackGiveUp id)).

(** One iteration of [for source in sources]. *)
Definition index_source (id : str) : Exc.M World unit :=
  Exc.try_except (index_source_body id) (record_failure id).

(** [db.query(KnowledgeSource).filter_by(channel_id=..., status=...)] *)
Definition select (channel : str) (s : SourceStatus) (w : World)
    : list (str * KnowledgeSource) :=
  List.filter (fun r => str_eqb (channel_id (snd r)) channel
                        && status_eqb (status (snd r)) s)
              (map_to_list (rows w)).

(** [_index_channel_sources] *)
Definition index_channel_sources (channel : str) : Exc.M World unit :=
  call GetDb ;;
  call NewVectorStore ;;
  call NewEmbedder ;;
  call QueryChannel ;;
  let slack_channel_id := slack_channel_of channel in
  call QueryPending ;;
  sources <- Exc.gets (fun w => map fst (select channel PENDING w)) ;;
  call (PrintIndexing (length sources) (slice_to 8 channel)) ;;
  Exc.for_each sources index_source ;;
  call (PrintComplete (slice_to 8 channel)) ;;
  match slack_channel_id with
  | Some slack_channel_id =>
      if nonempty slack_channel_id then
        call CountIndexed ;;
        indexed <- Exc.gets (fun w => length (select channel INDEXED w)) ;;
        call CountFailed ;;
        failed <- Exc.gets (fun w => length (select channel FAILED w)) ;;
        if failed =? 0 then notify_slack slack_channel_id (Ready indexed)
        else notify_slack slack_channel_id (Mixed indexed failed)
      else Exc.ret tt
  | None => Exc.ret tt
  end.

(** The world a run starts in: a fresh session over the table. *)
Definition start (table : gmap str KnowledgeSource) : World :=
  mkWorld table table [] [].

End WithWorld.

End Tasks.

(** * Further parts of the program *)

(** What an iteration over a paginated listing of an external API gives:
    the next item, or an exception of the API raised while fetching it. *)
Inductive Served (A : Type) : Type :=
| Next (a : A)
| Fault.

Arguments Next {A} a.
Arguments Fault {A}.

(** ** GitHub issues fetcher ([app/ingestion/github.py]) *)

Module GitHubIssues.

Record GitHubIssue := mkIssue {
  number : nat;
  title : str;
  body : str;
  state : str;
  labels : list str;
  url : str;
  comments : list str
}.

(** An issue as the GitHub client serves it: [body] is [None] for an
    issue without text, [pull_request] is set for a pull request, and the
    comments come from a paginated listing; a comment is given by its
    [body]. *)
Record Issue := mkServed {
  i_number : nat;
  i_title : str;
  i_body : option str;
  i_state : str;
  i_labels : list str;
  i_html_url : str;
  i_pull_request : bool;
  i_comments : list (Served (option str))
}.

(** The loop of [_process_issue] over [issue.get_comments()[:10]]: the
    comments with a body, up to the first [GithubException]. *)
Fixpoint collect_comments (items : list (Served (option str))) : list str :=
  match items with
  | [] => []
  | Fault :: _ => []
  | Next comment_body :: rest =>
      match comment_body with
      | Some b => if nonempty b then b :: collect_comments rest
                  else collect_comments rest
      | None => collect_comments rest
      end
  end.

(** [GitHubIssuesFetcher._process_issue]: the one issue it yields. *)
Definition process_issue (issue : Issue) : GitHubIssue :=
  mkIssue (i_number issue) (i_title issue)
          (match i_body issue with
           | Some b => if nonempty b then b else []
           | None => []
           end)
          (i_state issue) (i_labels issue) (i_html_url issue)
          (collect_comments (slice_to 10 (i_comments issue))).

(** The state of a fetch: [fetched] and the issues yielded. *)
Record FetchState := mkFetch {
  fetched : nat;
  yielded : list GitHubIssue
}.

(** One loop of [fetch] over a listing of issues; the flag tells whether
    the listing raised. *)
Fixpoint fetch_listing (max_issues : nat) (issues : list (Served Issue))
    (st : FetchState) : FetchState * bool :=
  match issues with
  | [] => (st, false)
  | Fault :: _ => (st, true)
  | Next issue :: rest =>
      if max_issues <=? fetched st then (st, false)
      else if i_pull_request issue then fetch_listing max_issues rest st
      else
        fetch_listing max_issues rest
          (mkFetch (fetched st + 1) (yielded st ++ [process_issue issue]))
  end.

(** [GitHubIssuesFetcher.fetch], consumed to the end, given the listings
    of the open and of the closed issues; the repository is [None] when
    [get_repo] raises. *)
Definition fetch (max_issues : nat) (include_closed : bool)
    (repo : option (list (Served Issue) * list (Served Issue)))
    : list GitHubIssue :=
  match repo with
  | None => []
  | Some (open_issues, closed_issues) =>
      let '(st, raised) := fetch_listing max_issues open_issues (mkFetch 0 []) in
      if raised then yielded st
      else if include_closed then
        yielded (fst (fetch_listing max_issues closed_issues st))
      else yielded st
  end.

End GitHubIssues.

(** * Answer generation ([app/query/llm.py]) *)

Module LLM.

(** The prompt [generate_answer] sends. *)
Definition user_prompt (question context : str) : str :=
  lit "Based on this context, answer the question. Be brief and direct."
  ++ [LF; LF] ++ lit "CONTEXT:" ++ [LF] ++ context
  ++ [LF; LF] ++ lit "QUESTION: " ++ question
  ++ [LF; LF]
  ++ lit "Respond with your answer only. If you're unsure, say so briefly. End your response with one of:"
  ++ [LF] ++ lit "[CONFIDENCE:HIGH]"
  ++ [LF] ++ lit "[CONFIDENCE:MEDIUM]"
  ++ [LF] ++ lit "[CONFIDENCE:LOW]".

(** What [generate_answer] makes of the text of the response: the answer
    and the confidence. *)
Definition extract_confidence (text : str) : str * str :=
  let full_response := strip text in
  if contains full_response (lit "[CONFIDENCE:HIGH]") then
    (strip (replace (lit "[CONFIDENCE:HIGH]") [] full_response), lit "high")
  else if contains full_response (lit "[CONFIDENCE:MEDIUM]") then
    (strip (replace (lit "[CONFIDENCE:MEDIUM]") [] full_response),
     lit "medium")
  else if contains full_response (lit "[CONFIDENCE:LOW]") then
    (strip (replace (lit "[CONFIDENCE:LOW]") [] full_response), lit "low")
  else (full_response, lit "medium").

Section WithClient.

(** [client.messages.create(...)] followed by [response.content[0].text],
    as a function of the user prompt; it may raise. *)
Variable messages_create : str -> Result str.

(** [generate_answer]; an exception of the client is raised again. *)
Definition generate_answer (question context : str) : Result (str * str) :=
  match messages_create (user_prompt question context) with
  | Ok text => Ok (extract_confidence text)
  | Raise e => Raise e
  end.

End WithClient.

End LLM.

(** * Slack history ([app/ingestion/slack_history.py]) *)

Module SlackHistory.

Record SlackMessage := mkMessage {
  text : str;
  user : str;
  timestamp : str;
  thread_ts : option str;
  url : str
}.

(** A message as the API gives it, by the keys the fetcher reads; [None]
    is a missing key. *)
Record Raw := mkRaw {
  r_subtype : option str;
  r_text : option str;
  r_user : option str;
  r_ts : option str;
  r_thread_ts : option str;
  r_reply_count : option nat
}.

(** A page of [conversations_history]. *)
Record Page := mkPage { messages : list Raw; next_cursor : option str }.

(** Truthiness of [d.get(key)]. *)
Definition truthy (value : option str) : bool :=
  match value with
  | Some s => nonempty s
  | None => false
  end.

Section WithClient.

Variable channel_id : str.

(** The Slack client: [conversations_info], [conversations_history] by
    cursor and [conversations_replies] by thread; [Fault] is a
    [SlackApiError]. *)
Variable conversations_info : Served unit.
Variable conversations_history : option str -> Served Page.
Variable conversations_replies : str -> Served (list Raw).

(** The body both loops share: the message is skipped ([None]) or made
    into a [SlackMessage] with the given [thread_ts]. *)
Definition as_message (thread_ts : option str) (message : Raw)
    : option SlackMessage :=
  if truthy (r_subtype message) then None
  else
    let text := strip (default [] (r_text message)) in
    if negb (nonempty text) || (length text <? 10) then None
    else
      let user := default (lit "unknown") (r_user message) in
      let ts := default [] (r_ts message) in
      let url := lit "https://slack.com/archives/" ++ channel_id
                 ++ lit "/p" ++ replace (lit ".") [] ts in
      Some (mkMessage text user ts thread_ts url).

(** [SlackHistoryFetcher._fetch_thread] *)
Definition fetch_thread (thread_ts : str) : list SlackMessage :=
  match conversations_replies thread_ts with
  | Fault => []
  | Next replies => omap (as_message (Some thread_ts)) (skipn 1 replies)
  end.

(** The loop over the messages of one page. *)
Fixpoint page_messages (page : list Raw) : list SlackMessage :=
  match page with
  | [] => []
  | message :: rest =>
      match as_message (r_thread_ts message) message with
      | None => page_messages rest
      | Some m =>
          m :: (if bool_decide (r_thread_ts message = None)
                   && (0 <? default 0 (r_reply_count message))
                then fetch_thread (timestamp m) else [])
            ++ page_messages rest
      end
  end.

(** The [while True] loop: what is yielded during the first [rounds]
    calls of [conversations_history]. *)
Fixpoint fetch_pages (rounds : nat) (cursor : option str)
    : list SlackMessage :=
  match rounds with
  | 0 => []
  | S rounds =>
      match conversations_history cursor with
      | Fault => []
      | Next response =>
          page_messages (messages response)
          ++ (if truthy (next_cursor response)
              then fetch_pages rounds (next_cursor response)
              else [])
      end
  end.

(** [SlackHistoryFetcher.fetch], for its first [rounds] pages. *)
Definition fetch (rounds : nat) : list SlackMessage :=
  match conversations_info with
  | Fault => []
  | Next _ => fetch_pages rounds None
  end.

End WithClient.

End SlackHistory.

(** * The fetch-and-chunk functions of [app/ingestion/tasks.py] *)

Module Indexing.

(** Metadata dictionaries with string values. *)
Abbreviation Meta := (gmap string str).

Definition documentation_metadata (page : Crawler.CrawledPage) : Meta :=
  <["source_type"%string := lit "documentation"]>
    (<["url"%string := Crawler.url page]>
       (<["title"%string := Crawler.title page]> ∅)).

Definition github_metadata (source_type : str) (file : GitHub.GitHubFile)
    : Meta :=
  <["source_type"%string := source_type]>
    (<["url"%string := GitHub.url file]>
       (<["file_path"%string := GitHub.path file]>
          (<["file_type"%string := GitHub.file_type file]> ∅))).

Definition slack_metadata (url : str) : Meta :=
  <["source_type"%string := lit "slack_history"]>
    (<["url"%string := url]> ∅).

(** [chunker.chunk_text] of a [TextChunker()]. *)
Definition chunk (text : str) (metadata : Meta) : list (Chunker.Chunk Meta) :=
  Chunker.chunk_text Chunker.default_chunk_size Chunker.default_chunk_overlap
                     text metadata.

(** The loop of [_index_documentation]: [chunks] once the loop has
    consumed the pages the crawl yielded. *)
Definition index_documentation (pages : list Crawler.CrawledPage)
    : list (Chunker.Chunk Meta) :=
  fold_left
    (fun chunks page =>
       chunks ++ chunk (Crawler.content page) (documentation_metadata page))
    pages [].

(** The loop of [_index_github]: [chunks] once the loop has consumed the
    files the fetcher yielded. *)
Definition index_github (source_type : str)
    (files : list GitHub.GitHubFile) : list (Chunker.Chunk Meta) :=
  fold_left
    (fun chunks file =>
       chunks ++ chunk (GitHub.content file)
                       (github_metadata source_type file))
    files [].

(** The flush of [_index_slack_history]: the chunks of a conversation. *)
Definition flush_conversation
    (current_conversation : list SlackHistory.SlackMessage)
    : list (Chunker.Chunk Meta) :=
  match current_conversation with
  | [] => []
  | first :: _ =>
      chunk (join [LF] (map SlackHistory.text current_conversation))
            (slack_metadata (SlackHistory.url first))
  end.

(** One iteration of the loop of [_index_slack_history]; the state is
    [(chunks, current_conversation, last_thread)]. *)
Definition group_step
    (st : list (Chunker.Chunk Meta) * list SlackHistory.SlackMessage
          * option str)
    (message : SlackHistory.SlackMessage)
    : list (Chunker.Chunk Meta) * list SlackHistory.SlackMessage
      * option str :=
  let '(chunks, current_conversation, last_thread) := st in
  let '(chunks, current_conversation) :=
    if negb (bool_decide (SlackHistory.thread_ts message = last_thread))
       && match current_conversation with [] => false | _ => true end
    then (chunks ++ flush_conversation current_conversation, [])
    else (chunks, current_conversation) in
  (chunks, current_conversation ++ [message],
   SlackHistory.thread_ts message).

(** [_index_slack_history] on the messages the fetcher yields. *)
Definition index_slack_history (messages : list SlackHistory.SlackMessage)
    : list (Chunker.Chunk Meta) :=
  let '(chunks, current_conversation, _) :=
    fold_left group_step messages ([], [], None) in
  chunks ++ flush_conversation current_conversation.

End Indexing.

(** * The configuration modal ([app/slack/modals.py]) *)

Module Modals.

Import Tasks.

(** [str(n)] for a count. *)
Definition str_of_nat (n : nat) : str :=
  lit (NilZero.string_of_uint (Nat.to_uint n)).

(** [[url.strip() for url in docs_urls_raw.split("\n") if url.strip()]] *)
Definition docs_urls (docs_urls_raw : str) : list str :=
  map strip
      (List.filter (fun url => nonempty (strip url))
                   (split [LF] docs_urls_raw)).

(** [KnowledgeSource(channel_id=..., source_type=..., url=...,
    status=SourceStatus.PENDING)] *)
Definition new_source (channel : str) (source_type : SourceType) (url : str)
    : KnowledgeSource :=
  mkSource channel source_type url PENDING None None.

(** The list [sources] that [handle_config_submit] builds from the values
    of the form: the text of the documentation field, the two repository
    fields ([None] when empty), the issues checkbox and the selected number
    of days ([None] when nothing is selected).  [channel] is the id of the
    channel's row, [slack_channel_id] the Slack id of the channel. *)
Definition sources (channel slack_channel_id : str) (docs_urls_raw : str)
    (github_operator github_operand : option str)
    (include_github_issues : bool) (slack_history_option : option nat)
    : list KnowledgeSource :=
  let slack_history_days := default 30 slack_history_option in
  map (new_source channel DOCUMENTATION) (docs_urls docs_urls_raw)
  ++ match github_operator with
     | Some repo =>
         if nonempty repo then
           new_source channel GITHUB_OPERATOR repo
           :: (if include_github_issues
               then [new_source channel GITHUB_ISSUES repo] else [])
         else []
     | None => []
     end
  ++ match github_operand with
     | Some repo =>
         if nonempty repo then [new_source channel GITHUB_OPERAND repo]
         else []
     | None => []
     end
  ++ (if 0 <? slack_history_days
      then [new_source channel SLACK_HISTORY
              (lit "slack://" ++ slack_channel_id ++ lit "?days="
               ++ str_of_nat slack_history_days)]
      else []).

End Modals.

(** * The vector store ([app/retrieval/vector_store.py]) *)

Module VectorStore.

(** [self.collection_name] as [VectorStore.__init__] sets it. *)
Definition collection_name (channel_id : str) : str :=
  lit "channel_" ++ replace (lit "-") (lit "_") channel_id.

End VectorStore.

(** * Vocabulary of the properties *)

(** A string is [headed] when [lstrip] leaves it alone, [tailed] when
    [rstrip] does. *)
Definition headed (s : str) : Prop := lstrip s = s.
Definition tailed (s : str) : Prop := rstrip s = s.

(** The characters a list of pieces takes up when each is followed by a
    separator of length [n]. *)
Definition weight (n : nat) (pieces : list str) : nat :=
  list_sum (map (fun p => length p + n) pieces).

(** The non-blank pieces of a list, each trimmed. *)
Definition trimmed_pieces (pieces : list str) : list str :=
  List.filter nonempty (map strip pieces).

(** [lone_sentence chunk_size text c]: [c] is one sentence of one
    paragraph of [text], trimmed, and it is longer than [chunk_size]. *)
Definition lone_sentence (chunk_size : nat) (text c : str) : Prop :=
  chunk_size < length c /\
  exists paragraph sentence,
    In paragraph (Chunker.paragraphs (strip text)) /\
    In sentence (Chunker.sentences (strip paragraph)) /\
    c = strip sentence.

(** [n] copies of [s]. *)
Definition times (n : nat) (s : str) : str := concat (repeat s n).

(** Two paragraphs of short sentences, 899 and 949 characters long. *)
Definition two_long_paragraphs : str :=
  strip (times 90 (lit "aaaaaaaa. ")) ++ Chunker.para_sep
  ++ strip (times 95 (lit "bbbbbbbb. ")).

(** A 150-character buffer and a 900-character paragraph. *)
Definition short_buffer : str := times 150 (lit "a").
Definition long_paragraph : str := times 900 (lit "b").

(** *** A documentation site of ten pages

    The base page links to [p1], [p2], [p3]; [p1] to [p4], [p5]; [p2] to
    [p6], [p7]; [p3] to [p8], [p9]; the leaves link back to the base.
    Some links carry a fragment or a trailing slash, and some leave the
    site or the documentation prefix. *)

Definition docs_page (name : string) : str :=
  lit "https://ex.com/docs/" ++ lit name.

Definition ten_pages : list (str * Crawler.Response) :=
  let page := fun (name : string) (links : list str) =>
    (docs_page name, Crawler.Html (lit name) (lit "Text of " ++ lit name) links) in
  let home := lit "https://ex.com/docs/#top" in
  [ (lit "https://ex.com/docs",
     Crawler.Html (lit "Docs") (lit "Welcome")
       [docs_page "p1/"; lit "#intro"; lit "https://ex.com/blog";
        docs_page "p2#install"; lit "mailto:docs@ex.com"; docs_page "p3";
        lit "https://other.com/docs"; docs_page "file.pdf"]);
    page "p1"%string [docs_page "p4"; docs_page "p5/"; home];
    page "p2"%string [docs_page "p6"; docs_page "p7"; docs_page "p1"];
    page "p3"%string [docs_page "p8"; docs_page "p9"];
    page "p4"%string [home];
    page "p5"%string [home];
    page "p6"%string [home];
    page "p7"%string [home];
    page "p8"%string [home];
    page "p9"%string [home] ].

(** [client.get] on that site; any other URL is a 404. *)
Definition ten_pages_get (url : str) : Crawler.Response :=
  match List.find (fun entry => str_eqb (fst entry) url) ten_pages with
  | Some (_, response) => response
  | None => Crawler.FetchError
  end.

(** A crawl of that site from its base. *)
Definition crawl_ten_pages (max_pages max_depth : nat)
    : option Crawler.CrawlState :=
  match Crawler.new_crawler Crawler.urlparse (lit "https://ex.com/docs/")
                            max_pages max_depth with
  | Some self =>
      Crawler.crawl Crawler.urlparse Crawler.urljoin_absolute ten_pages_get
                    self
  | None => None
  end.

(** What a crawl keeps true of its state: no URL was added twice, the
    [visited] set is what was added, at most [max_pages] URLs were added,
    and every URL added is a normalized one. *)
Definition crawl_invariant (max_pages : nat) (st : Crawler.CrawlState)
    : Prop :=
  NoDup (Crawler.added st)
  /\ Crawler.visited st = list_to_set (Crawler.added st)
  /\ length (Crawler.added st) <= max_pages
  /\ Forall (fun u => Crawler.normalize u = u) (Crawler.added st).

(** [cf] is a [ContentFile] the repository serves: the answer to some
    [get_contents], or an item of a listing. *)
Definition in_repo (repo : GitHub.Repo) (cf : GitHub.ContentFile) : Prop :=
  exists path,
    repo path = GitHub.Single cf
    \/ exists items, repo path = GitHub.Listing items /\ In cf items.

(** [f] was made from a [ContentFile] of the repository whose reported
    size is within the ceiling. *)
Definition from_small_file (repo : GitHub.Repo) (f : GitHub.GitHubFile)
    : Prop :=
  exists cf,
    in_repo repo cf
    /\ (GitHub.cf_size cf <= GitHub.size_ceiling)%N
    /\ GitHub.path f = GitHub.cf_path cf
    /\ GitHub.url f = GitHub.cf_html_url cf
    /\ GitHub.cf_decoded cf = Some (GitHub.content f).

(** What a fetch keeps true of its state. *)
Definition fetch_invariant (max_files : nat) (repo : GitHub.Repo)
    (st : GitHub.FetchState) : Prop :=
  GitHub.fetched_count st = length (GitHub.yielded st)
  /\ GitHub.fetched_count st <= max_files
  /\ Forall (from_small_file repo) (GitHub.yielded st).

(** A call to the query-embedding operation or to answer generation. *)
Definition embeds_or_generates (c : Pipeline.Call) : Prop :=
  match c with
  | Pipeline.EncodeQuery _ | Pipeline.GenerateAnswer _ _ => True
  | _ => False
  end.

(** *** Collaborators for the pipeline examples

    Embeddings, distances and scores are natural numbers (hundredths); the
    index raises on every query; the language model echoes the context. *)
Definition unit_encode (query : str) : Result nat := Ok (length query).

Definition failing_index (embedding n_results : nat)
    : Result (@Pipeline.QueryResults nat) :=
  Raise (Exception (lit "index unavailable")).

Definition echo_model (question context : str) : Result (str * str) :=
  Ok (context, lit "high").

Definition hundredths_score (distance : nat) : nat := 100 - distance.
Definition hundredths_below_floor (score : nat) : bool := score <? 30.

(** *** A channel with two pending documentation sources

    The fetch of the first source raises, with a message of 600
    characters; the second yields one chunk, which is embedded and
    stored. *)
Definition docs_source (url : string) : Tasks.KnowledgeSource :=
  Tasks.mkSource (lit "channel-1") Tasks.DOCUMENTATION (lit url)
                 Tasks.PENDING None None.

Definition two_sources : gmap str Tasks.KnowledgeSource :=
  <[lit "docs-broken" := docs_source "https://[broken/docs"]>
    (<[lit "docs-site" := docs_source "https://ex.com/docs"]> ∅).

Definition long_message : str := times 600 (lit "x").

Definition index_docs (url : str) : Result (list (Chunker.Chunk unit)) :=
  if str_eqb url (lit "https://ex.com/docs")
  then Ok (Chunker.chunk_text 1000 200 (lit "Install with pip.") tt)
  else Raise (Exception long_message).

Definition no_fetch (url : str) : Result (list (Chunker.Chunk unit)) :=
  Ok [].

Definition length_embed (texts : list str) : Result (list nat) :=
  Ok (map (fun t => length t) texts).

Definition add_ok (texts : list str) (embeddings : list nat)
    (metadatas : list unit) : option Exn := None.

Definition slack_of (channel : str) : option str :=
  if str_eqb channel (lit "channel-1") then Some (lit "C0123") else None.

(** No call of the run raises. *)
Definition healthy (c : Tasks.Call) : option Exn := None.

(** The database raises on the calls of the handler's inner [try]. *)
Definition handler_down (c : Tasks.Call) : option Exn :=
  match c with
  | Tasks.RefreshSource _ | Tasks.CommitFailed _ =>
      Some (Exception (lit "database is locked"))
  | _ => None
  end.

(** A console that raises on a closing tag [[/x]] in the text it is given
    for the two lines that print an exception, and nothing else raises. *)
Definition strict_console (c : Tasks.Call) : option Exn :=
  match c with
  | Tasks.PrintFailed m | Tasks.PrintNotifyFailed m =>
      if contains m (lit "[/x]")
      then Some (Exception (lit "closing tag '[/x]' at position 40 doesn't match any open tag"))
      else None
  | _ => None
  end.

(** The fetch of a documentation source whose URL holds a closing tag
    raises with a message that names the tag. *)
Definition tagged_sources : gmap str Tasks.KnowledgeSource :=
  <[lit "docs-broken" := docs_source "https://ex.com/docs/[/x]"]>
    (<[lit "docs-site" := docs_source "https://ex.com/docs"]> ∅).

Definition index_tagged (url : str) : Result (list (Chunker.Chunk unit)) :=
  if str_eqb url (lit "https://ex.com/docs")
  then Ok (Chunker.chunk_text 1000 200 (lit "Install with pip.") tt)
  else Raise (Exception (lit "closing tag '[/x]' at position 51 doesn't match any open tag")).

(** A run over [two_sources] with the given faults, and one over
    [tagged_sources]. *)
Definition run_two_sources (fault : Tasks.Call -> option Exn)
    : Result unit * Tasks.World :=
  Tasks.index_channel_sources fault (fun _ => 1000)
    index_docs (fun url _ => no_fetch url) no_fetch no_fetch
    length_embed add_ok slack_of (lit "channel-1")
    (Tasks.start two_sources).

Definition run_tagged_sources (fault : Tasks.Call -> option Exn)
    : Result unit * Tasks.World :=
  Tasks.index_channel_sources fault (fun _ => 1000)
    index_tagged (fun url _ => no_fetch url) no_fetch no_fetch
    length_embed add_ok slack_of (lit "channel-1")
    (Tasks.start tagged_sources).

(** The session holds no uncommitted change. *)
Definition clean {Meta Emb : Type} (w : @Tasks.World Meta Emb) : Prop :=
  Tasks.objects w = Tasks.rows w.

(** A terminal status: [INDEXED] or [FAILED]. *)
Definition terminal (k : Tasks.KnowledgeSource) : Prop :=
  Tasks.status k = Tasks.INDEXED \/ Tasks.status k = Tasks.FAILED.

(** No call raises. *)
Definition quiet (fault : Tasks.Call -> option Exn) : Prop :=
  forall c, fault c = None.

(** The calls of the run that are in no [try]: an exception of one of
    them ends the run. *)
Definition unguarded (c : Tasks.Call) : Prop :=
  match c with
  | Tasks.GetDb | Tasks.NewVectorStore | Tasks.NewEmbedder
  | Tasks.QueryChannel | Tasks.QueryPending | Tasks.PrintIndexing _ _
  | Tasks.RollbackFailed _ | Tasks.PrintFailed _ | Tasks.RollbackGiveUp _
  | Tasks.PrintComplete _ | Tasks.CountIndexed | Tasks.CountFailed
  | Tasks.PrintNotifyFailed _ => True
  | _ => False
  end.

(** The handler records a failure of source [id]: its rollback, the print
    of the exception, the refresh and the commit do not raise. *)
Definition records_failure (fault : Tasks.Call -> option Exn) (id : str)
    : Prop :=
  fault (Tasks.RollbackFailed id) = None
  /\ (forall m, fault (Tasks.PrintFailed m) = None)
  /\ fault (Tasks.RefreshSource id) = None
  /\ fault (Tasks.CommitFailed id) = None.

(** The row a source ends with when it is indexed at time [utcnow id],
    and when its failure [e] is recorded. *)
Definition indexed_row (utcnow : str -> nat) (id : str)
    (k : Tasks.KnowledgeSource) : Tasks.KnowledgeSource :=
  Tasks.with_last_indexed_at (utcnow id)
    (Tasks.with_status Tasks.INDEXED (Tasks.with_status Tasks.INDEXING k)).

Definition failed_row (e : Exn) (k : Tasks.KnowledgeSource)
    : Tasks.KnowledgeSource :=
  Tasks.with_error_message (slice_to 500 (str_of_exn e))
    (Tasks.with_status Tasks.FAILED (Tasks.with_status Tasks.INDEXING k)).

(** What the body of the loop's [try] does for a source [id] whose row is
    [k]: it returns, or raises an exception.  It is read off a run of the
    body on a table that holds that row alone. *)
Definition body_outcome {Meta Emb : Type}
    (fault : Tasks.Call -> option Exn) (utcnow : str -> nat)
    (index_documentation : str -> Result (list (Chunker.Chunk Meta)))
    (index_github : str -> str -> Result (list (Chunker.Chunk Meta)))
    (index_github_issues index_slack_history :
       str -> Result (list (Chunker.Chunk Meta)))
    (embed : list str -> Result (list Emb))
    (collection_add : list str -> list Emb -> list Meta -> option Exn)
    (id : str) (k : Tasks.KnowledgeSource) : Result unit :=
  fst (Tasks.index_source_body fault utcnow index_documentation index_github
         index_github_issues index_slack_history embed collection_add id
         (Tasks.start {[id := k]})).

(** The exception [e] is raised by a call of the run that is in no
    [try]. *)
Definition escapes (fault : Tasks.Call -> option Exn) (e : Exn) : Prop :=
  exists c, unguarded c /\ fault c = Some e.

(** [chunks] are embedded and stored without an exception. *)
Definition stores {Meta Emb : Type} (embed : list str -> Result (list Emb))
    (collection_add : list str -> list Emb -> list Meta -> option Exn)
    (chunks : list (Chunker.Chunk Meta)) : Prop :=
  chunks = []
  \/ exists embeddings,
       embed (map Chunker.content chunks) = Ok embeddings
       /\ collection_add (map Chunker.content chunks) embeddings
                         (map Chunker.metadata chunks) = None.

(** The notification posted at the end of a run that leaves the rows of
    [w]. *)
Definition completion_notice {Meta Emb : Type}
    (slack_channel_of : str -> option str) (channel : str)
    (w : @Tasks.World Meta Emb) : list (str * Tasks.Notice) :=
  match slack_channel_of channel with
  | Some slack_channel_id =>
      if nonempty slack_channel_id then
        let indexed := length (Tasks.select channel Tasks.INDEXED w) in
        let failed := length (Tasks.select channel Tasks.FAILED w) in
        [(slack_channel_id,
          if failed =? 0 then Tasks.Ready indexed
          else Tasks.Mixed indexed failed)]
      else []
  | None => []
  end.

(** * Vocabulary of the further properties *)

(** [p] occurs in [s] as a substring. *)
Definition occurs (p s : str) : Prop := exists a b, s = a ++ p ++ b.

(** [a] is a prefix of [b]. *)
Definition prefix_of (a b : str) : Prop := exists rest, b = a ++ rest.

(** Each string of the list is a prefix of the next one. *)
Fixpoint chain (l : list str) : Prop :=
  match l with
  | a :: (b :: _) as rest => prefix_of a b /\ chain rest
  | _ => True
  end.

Section ReachabilityWithin.

Variable urlparse : str -> option Crawler.ParseResult.
Variable urljoin : str -> str -> str.
Variable get : str -> Crawler.Response.
Variable self : Crawler.DocsCrawler.

(** [reachable_within n u]: the page [u] is [n] links away from the base
    URL, through in-scope links of HTML pages. *)
Inductive reachable_within : nat -> str -> Prop :=
| within_base :
    Crawler.is_valid_url urlparse self
      (Crawler.normalize (Crawler.base_url self)) = true ->
    reachable_within 0 (Crawler.normalize (Crawler.base_url self))
| within_link (n : nat) (u title content : str) (hrefs : list str)
    (v : str) :
    reachable_within n u ->
    get u = Crawler.Html title content hrefs ->
    In v (Crawler.extract_links urlparse urljoin self ∅ u hrefs) ->
    reachable_within (S n) v.

(** A yielded page is the page fetched at its URL, an in-scope URL, and
    has text. *)
Definition faithful_page (p : Crawler.CrawledPage) : Prop :=
  Crawler.is_valid_url urlparse self (Crawler.url p) = true
  /\ strip (Crawler.content p) <> []
  /\ exists hrefs,
       get (Crawler.url p)
       = Crawler.Html (Crawler.title p) (Crawler.content p) hrefs.

End ReachabilityWithin.

(** The items a listing gives before it raises, and whether it raises. *)
Fixpoint before_fault {A : Type} (l : list (Served A)) : list A :=
  match l with
  | Next a :: rest => a :: before_fault rest
  | _ => []
  end.

Fixpoint has_fault {A : Type} (l : list (Served A)) : bool :=
  match l with
  | [] => false
  | Fault :: _ => true
  | Next _ :: rest => has_fault rest
  end.

(** The issues a repository serves to a fetch: the open ones, then, if
    asked for and the listing of the open ones did not raise, the closed
    ones; pull requests left out. *)
Definition issues_served (include_closed : bool)
    (open_issues closed_issues : list (Served GitHubIssues.Issue))
    : list GitHubIssues.Issue :=
  List.filter (fun i => negb (GitHubIssues.i_pull_request i))
    (before_fault open_issues
     ++ (if include_closed && negb (has_fault open_issues)
         then before_fault closed_issues else [])).

(** The file types a repository fetch gives its files. *)
Definition file_types : list str :=
  map lit ["readme"; "api_types"; "crd"; "rbac"; "sample"; "helm_chart";
           "olm_bundle"; "code"; "docs"]%string.

(** The path passes the filter of [_process_file]. *)
Definition relevant_path (path : str) : Prop :=
  str_in (lower (GitHub.extension path)) GitHub.relevant_extensions = true
  \/ In path GitHub.PRIORITY_FILES.

(** An entry of the vector store holds the content and the metadata of
    one of [chunks]. *)
Definition chunk_entry {Meta Emb : Type} (chunks : list (Chunker.Chunk Meta))
    (x : str * Emb * Meta) : Prop :=
  exists c,
    In c chunks /\ x.1.1 = Chunker.content c /\ x.2 = Chunker.metadata c.

(** What [VectorStore.query] returns for a query embedding: the hits the
    collection gives, or none when the collection raises. *)
Definition retrieved {Vec Dist Score : Type}
    (collection_query : Vec -> nat -> Result (@Pipeline.QueryResults Dist))
    (one_minus : Dist -> Score) (query_embedding : Vec)
    : list (@Pipeline.Hit Score) :=
  match collection_query query_embedding 5 with
  | Ok results =>
      Pipeline.zip_hits one_minus (Pipeline.documents results)
        (Pipeline.metadatas results) (Pipeline.distances results)
  | Raise _ => []
  end.

(** The hits whose score is not below the floor, in the order retrieved. *)
Definition relevant {Score : Type} (below_floor : Score -> bool)
    (hits : list (@Pipeline.Hit Score)) : list (@Pipeline.Hit Score) :=
  List.filter (fun h => negb (below_floor (Pipeline.score h))) hits.

(** The calls a question makes before an answer is generated. *)
Definition retrieval_calls (question : str) : list Pipeline.Call :=
  [Pipeline.LoadModel; Pipeline.CollectionCount;
   Pipeline.EncodeQuery question; Pipeline.CollectionQuery 5].

(** The markers the model is asked to end its response with, and the
    confidence each stands for. *)
Definition confidence_markers : list (str * str) :=
  [(lit "[CONFIDENCE:HIGH]", lit "high");
   (lit "[CONFIDENCE:MEDIUM]", lit "medium");
   (lit "[CONFIDENCE:LOW]", lit "low")].

(** A text with no opening bracket, and a run of blanks. *)
Definition bracket_free (s : str) : Prop := Forall (fun c => c <> "["%char) s.
Definition blank (s : str) : Prop := Forall (fun c => isspace c = true) s.

(** The conversations of a list of messages: its maximal runs of
    consecutive messages with the same [thread_ts]. *)
Fixpoint conversations (messages : list SlackHistory.SlackMessage)
    : list (list SlackHistory.SlackMessage) :=
  match messages with
  | [] => []
  | m :: rest =>
      match conversations rest with
      | (m' :: g) :: gs =>
          if bool_decide (SlackHistory.thread_ts m = SlackHistory.thread_ts m')
          then (m :: m' :: g) :: gs
          else [m] :: (m' :: g) :: gs
      | _ => [[m]]
      end
  end.

(** All messages of [g] have the thread [t]. *)
Definition in_thread (t : option str) (g : list SlackHistory.SlackMessage)
    : Prop :=
  Forall (fun m => SlackHistory.thread_ts m = t) g.

(** No two neighbours of the list of groups share a thread. *)
Fixpoint separated (gs : list (list SlackHistory.SlackMessage)) : Prop :=
  match gs with
  | g :: ((g' :: _) as rest) =>
      (forall a b, In a g -> In b g' ->
                   SlackHistory.thread_ts a <> SlackHistory.thread_ts b)
      /\ separated rest
  | _ => True
  end.

(** What the history fetcher yields for a raw message [raw] under the
    thread [t]. *)
Definition message_of (channel_id : str) (t : option str)
    (raw : SlackHistory.Raw) (m : SlackHistory.SlackMessage) : Prop :=
  SlackHistory.truthy (SlackHistory.r_subtype raw) = false
  /\ SlackHistory.text m = strip (default [] (SlackHistory.r_text raw))
  /\ SlackHistory.user m
     = default (lit "unknown") (SlackHistory.r_user raw)
  /\ SlackHistory.timestamp m = default [] (SlackHistory.r_ts raw)
  /\ SlackHistory.thread_ts m = t
  /\ SlackHistory.url m
     = lit "https://slack.com/archives/" ++ channel_id ++ lit "/p"
       ++ replace (lit ".") [] (SlackHistory.timestamp m).

(** ** Data of the examples *)

(** A repository that holds a [README.md] and nothing else. *)
Definition readme_file : GitHub.ContentFile :=
  GitHub.mkContent (lit "file") (lit "README.md") 12
    (lit "https://github.com/o/r/blob/main/README.md")
    (Some (lit "# Operator")).

Definition readme_repo : GitHub.Repo :=
  fun path =>
    if str_eqb path (lit "README.md") then GitHub.Single readme_file
    else GitHub.GithubException.

(** An index that gives two hits, at distances 0.20 and 0.90, and one
    that gives two hits far from every query; a model and an embedder that
    raise. *)
Definition two_hits_index (embedding n_results : nat)
    : Result (@Pipeline.QueryResults nat) :=
  Ok (Pipeline.mkResults
        [lit "Install with pip."; lit "Unrelated."]
        [{["url"%string := lit "https://ex.com/docs/install"]}; ∅]
        [20; 90]).

Definition far_index (embedding n_results : nat)
    : Result (@Pipeline.QueryResults nat) :=
  Ok (Pipeline.mkResults
        [lit "Unrelated."; lit "Unrelated too."] [∅; ∅] [90; 95]).

Definition failing_model (question context : str) : Result (str * str) :=
  Raise (Exception (lit "overloaded")).

Definition failing_encode (query : str) : Result nat :=
  Raise (Exception (lit "model not loaded")).

(** The sources of a form with one documentation URL, an operator
    repository with its issues, and seven days of history. *)
Definition form_sources : list Tasks.KnowledgeSource :=
  Modals.sources (lit "channel-1") (lit "C0123")
    (lit "https://ex.com/docs") (Some (lit "https://github.com/o/r")) None
    true (Some 7).

(** * Properties *)

(** ** Strings *)

Section StringFacts.

Lemma lstrip_length (s : str) : length (lstrip s) <= length s.
Proof.
  induction s as [|c s IH]; simpl; [lia|].
  destruct (isspace c); simpl; lia.
Qed.

Lemma rstrip_length (s : str) : length (rstrip s) <= length s.
Proof.
  induction s as [|c s IH]; simpl; [lia|].
  destruct (rstrip s) as [|d r]; [destruct (isspace c)|]; simpl in *; lia.
Qed.

Lemma strip_length (s : str) : length (strip s) <= length s.
Proof.
  unfold strip. pose proof (rstrip_length (lstrip s)).
  pose proof (lstrip_length s). lia.
Qed.

Lemma headed_cons (c : ascii) (s : str) :
  headed (c :: s) <-> isspace c = false.
Proof.
  unfold headed; simpl. destruct (isspace c) eqn:E; split; try done.
  intros H. pose proof (lstrip_length s) as L. rewrite H in L.
  simpl in L. lia.
Qed.

Lemma lstrip_headed (s : str) : headed (lstrip s).
Proof.
  induction s as [|c s IH]; [done|]. simpl.
  destruct (isspace c) eqn:E; [done|]. by apply headed_cons.
Qed.

Lemma rstrip_tailed (s : str) : tailed (rstrip s).
Proof.
  unfold tailed. induction s as [|c s IH]; [done|]. simpl.
  destruct (rstrip s) as [|d r] eqn:E.
  - destruct (isspace c) eqn:Ec; simpl; [done|]. by rewrite Ec.
  - change (rstrip (c :: d :: r) = c :: d :: r).
    simpl in IH. simpl. destruct (rstrip r) as [|d' r'] eqn:Er.
    + destruct (isspace d); [discriminate|]. by inversion IH.
    + by inversion IH.
Qed.

Lemma rstrip_headed (s : str) : headed s -> headed (rstrip s).
Proof.
  destruct s as [|c s]; [done|]. intros H%headed_cons. simpl.
  destruct (rstrip s); [rewrite H|]; by apply headed_cons.
Qed.

Lemma strip_headed (s : str) : headed (strip s).
Proof. apply rstrip_headed, lstrip_headed. Qed.

Lemma strip_tailed (s : str) : tailed (strip s).
Proof. apply rstrip_tailed. Qed.

Lemma strip_fixed (s : str) : headed s -> tailed s -> strip s = s.
Proof. unfold strip, headed, tailed. by intros -> ->. Qed.

Lemma strip_idempotent (s : str) : strip (strip s) = strip s.
Proof. apply strip_fixed; [apply strip_headed | apply strip_tailed]. Qed.

Lemma headed_app (a b : str) : headed a -> a <> [] -> headed (a ++ b).
Proof.
  destruct a as [|c a]; [done|]. intros H%headed_cons _.
  by apply headed_cons.
Qed.

Lemma rstrip_app (a b : str) : rstrip b <> [] -> rstrip (a ++ b) = a ++ rstrip b.
Proof.
  intros Hb. induction a as [|c a IH]; [done|]. simpl. rewrite IH.
  destruct (a ++ rstrip b) eqn:E; [|done].
  apply app_eq_nil in E as [_ E]. done.
Qed.

Lemma tailed_app (a b : str) : tailed b -> b <> [] -> tailed (a ++ b).
Proof.
  unfold tailed. intros Hb Hne. rewrite rstrip_app; rewrite Hb; done.
Qed.

Lemma nonempty_true (s : str) : nonempty s = true <-> s <> [].
Proof. destruct s; simpl; split; done. Qed.

Lemma nonempty_false (s : str) : nonempty s = false <-> s = [].
Proof. destruct s; simpl; split; done. Qed.

End StringFacts.

(** ** Splitting and joining *)

Section SplitFacts.

Lemma startswith_spec (s p : str) :
  startswith s p = true <-> exists rest, s = p ++ rest.
Proof.
  revert s. induction p as [|a p IH]; intros s; simpl.
  - split; [intros _; by exists s | done].
  - destruct s as [|b s].
    + split; [done | intros [rest H]; discriminate].
    + rewrite andb_true_iff, IH. split.
      * intros [E%Ascii.eqb_eq [rest ->]]. subst. by exists rest.
      * intros [rest H]. inversion H; subst. split; [apply Ascii.eqb_refl|].
        by exists rest.
Qed.

Lemma startswith_length (s p : str) :
  startswith s p = true -> length p <= length s.
Proof.
  intros [rest ->]%startswith_spec. rewrite length_app. lia.
Qed.

Lemma endswith_spec (s p : str) :
  endswith s p = true <-> exists front, s = front ++ p.
Proof.
  unfold endswith. rewrite startswith_spec. split.
  - intros [rest H]. exists (rev rest).
    rewrite <- (rev_involutive s), H, rev_app_distr, rev_involutive. done.
  - intros [front ->]. exists (rev front). by rewrite rev_app_distr.
Qed.

Lemma split_from_not_nil (sep : str) (k : nat) (s : str) :
  split_from sep k s <> [].
Proof.
  revert k. induction s as [|c s IH]; intros k; simpl; [done|].
  destruct k; [|apply IH].
  destruct (startswith (c :: s) sep); [done|].
  destruct (split_from sep 0 s); done.
Qed.

(** The pieces and the separators between them make up the string. *)
Lemma split_from_weight (sep : str) (k : nat) (s : str) :
  sep <> [] -> k <= length s ->
  weight (length sep) (split_from sep k s) + k = length s + length sep.
Proof.
  intros Hsep. revert k. induction s as [|c s IH]; intros k Hk; simpl in *.
  - assert (k = 0) as -> by lia. unfold weight; simpl. lia.
  - destruct k as [|k].
    + destruct (startswith (c :: s) sep) eqn:E.
      * apply startswith_length in E. simpl in E.
        assert (length sep <> 0) by (destruct sep; simpl; [done | lia]).
        specialize (IH (length sep - 1) ltac:(lia)).
        unfold weight in *; simpl. lia.
      * specialize (IH 0 ltac:(lia)).
        pose proof (split_from_not_nil sep 0 s) as Hne.
        destruct (split_from sep 0 s) as [|p ps]; [done|].
        unfold weight in *; simpl in *. lia.
    + specialize (IH k ltac:(lia)). lia.
Qed.

Lemma split_weight (sep s : str) :
  sep <> [] -> weight (length sep) (split sep s) = length s + length sep.
Proof.
  intros H. pose proof (split_from_weight sep 0 s H ltac:(lia)).
  unfold split. lia.
Qed.

Lemma weight_app (n : nat) (a b : list str) :
  weight n (a ++ b) = weight n a + weight n b.
Proof. unfold weight. by rewrite map_app, list_sum_app. Qed.

(** A string without the separator is its own single piece. *)
Lemma split_without (sep s : str) :
  contains s sep = false -> split sep s = [s].
Proof.
  unfold split. induction s as [|c s IH]; simpl; [done|].
  intros [E1 E2]%orb_false_iff. rewrite E1, (IH E2). done.
Qed.

(** The first piece of a string that starts with a character other than
    the separator's first starts with that character. *)
Lemma split_head (sep : str) (c : ascii) (s : str) :
  startswith (c :: s) sep = false ->
  exists p ps, split sep (c :: s) = (c :: p) :: ps.
Proof.
  unfold split; simpl. intros ->.
  pose proof (split_from_not_nil sep 0 s).
  destruct (split_from sep 0 s) as [|p ps]; [done|]. by exists p, ps.
Qed.

Lemma join_cons (sep p : str) (ps : list str) :
  ps <> [] -> join sep (p :: ps) = p ++ sep ++ join sep ps.
Proof. destruct ps; done. Qed.

Lemma join_snoc (sep : str) (ps : list str) (p : str) :
  ps <> [] -> join sep (ps ++ [p]) = join sep ps ++ sep ++ p.
Proof.
  induction ps as [|q ps IH]; [done|]. intros _.
  destruct ps as [|q' ps].
  - done.
  - change ((q :: q' :: ps) ++ [p]) with (q :: ((q' :: ps) ++ [p])).
    rewrite join_cons by (by destruct ps).
    rewrite IH by done. rewrite (join_cons sep q (q' :: ps)) by done.
    by rewrite <- !app_assoc.
Qed.

Lemma join_nonempty (sep : str) (ps : list str) :
  ps <> [] -> Forall (fun p => p <> []) ps -> join sep ps <> [].
Proof.
  destruct ps as [|p ps]; [done|]. intros _ H.
  inversion H as [|? ? Hp _]; subst.
  destruct ps; simpl; [done|].
  destruct p; simpl; done.
Qed.

Lemma join_length (sep : str) (ps : list str) :
  length (join sep ps) <= weight (length sep) ps.
Proof.
  induction ps as [|p ps IH]; [unfold weight; simpl; lia|].
  destruct ps as [|q ps].
  - unfold weight; simpl. lia.
  - rewrite join_cons by done. rewrite !length_app.
    unfold weight in *. simpl in *. lia.
Qed.

(** Joining trimmed, non-empty pieces gives a trimmed string. *)
Lemma join_trimmed (sep : str) (ps : list str) :
  ps <> [] ->
  Forall (fun p => p <> [] /\ headed p /\ tailed p) ps ->
  headed (join sep ps) /\ tailed (join sep ps) /\ join sep ps <> [].
Proof.
  induction ps as [|p ps IH]; [done|]. intros _ H.
  inversion H as [|? ? (Hne & Hh & Ht) Hps]; subst.
  destruct ps as [|q ps]; [done|].
  destruct (IH ltac:(done) Hps) as (Hh' & Ht' & Hne').
  rewrite join_cons by done. split_and!.
  - by apply headed_app.
  - rewrite app_assoc. by apply tailed_app.
  - destruct p; done.
Qed.

Lemma trimmed_pieces_Forall (pieces : list str) :
  Forall (fun p => p <> [] /\ headed p /\ tailed p) (trimmed_pieces pieces).
Proof.
  unfold trimmed_pieces. apply Forall_forall. intros p Hp.
  apply list_elem_of_In, filter_In in Hp as [Hp Hne].
  apply in_map_iff in Hp as (q & <- & _).
  split_and!; [ | apply strip_headed | apply strip_tailed].
  by destruct (strip q).
Qed.

Lemma trimmed_pieces_weight (n : nat) (pieces : list str) :
  weight n (trimmed_pieces pieces) <= weight n pieces.
Proof.
  unfold trimmed_pieces, weight.
  induction pieces as [|p ps IH]; simpl; [lia|].
  pose proof (strip_length p).
  destruct (nonempty (strip p)); simpl; lia.
Qed.

Lemma trimmed_pieces_snoc (pieces : list str) (p : str) :
  trimmed_pieces (pieces ++ [p])
  = trimmed_pieces pieces ++ (if nonempty (strip p) then [strip p] else []).
Proof.
  unfold trimmed_pieces. rewrite map_app, List.filter_app. f_equal.
Qed.

End SplitFacts.

(** ** URL normalization *)

Section NormalizeFacts.

Import Crawler.

Lemma rstrip_char_fixed (ch : ascii) (s : str) :
  rstrip_char ch (rstrip_char ch s) = rstrip_char ch s.
Proof.
  induction s as [|c s IH]; [done|]. simpl.
  destruct (rstrip_char ch s) as [|d r] eqn:E.
  - destruct (Ascii.eqb c ch) eqn:Ec; simpl; [done|]. by rewrite Ec.
  - change (rstrip_char ch (c :: d :: r) = c :: d :: r).
    change (rstrip_char ch (c :: d :: r))
      with (match rstrip_char ch (d :: r) with
            | [] => if Ascii.eqb c ch then [] else [c]
            | r' => c :: r'
            end).
    by rewrite IH.
Qed.

Lemma rstrip_char_end (ch : ascii) (s front : str) :
  rstrip_char ch s <> front ++ [ch].
Proof.
  revert front. induction s as [|c s IH]; intros front.
  - by destruct front.
  - simpl. destruct (rstrip_char ch s) as [|d r] eqn:E.
    + destruct (Ascii.eqb c ch) eqn:Ec; [by destruct front|].
      destruct front as [|f front]; simpl.
      * intros [= ->]. by rewrite Ascii.eqb_refl in Ec.
      * intros [= _ H]. by destruct front.
    + destruct front as [|f front]; simpl; [done|].
      intros [= _ H]. by apply (IH front).
Qed.

Lemma rstrip_char_repeat (ch : ascii) (n : nat) :
  rstrip_char ch (repeat ch n) = [].
Proof.
  induction n as [|n IH]; [done|]. simpl. rewrite IH.
  by rewrite Ascii.eqb_refl.
Qed.

Lemma rstrip_char_app_repeat (ch : ascii) (s : str) (n : nat) :
  rstrip_char ch (s ++ repeat ch n) = rstrip_char ch s.
Proof.
  induction s as [|c s IH]; simpl; [apply rstrip_char_repeat|].
  by rewrite IH.
Qed.

(** A text that does not end with [ch] is left as it is. *)
Lemma rstrip_char_id (ch : ascii) (s : str) :
  (forall front, s <> front ++ [ch]) -> rstrip_char ch s = s.
Proof.
  induction s as [|c s IH]; [done|]. intros Hend.
  destruct s as [|d s].
  - simpl. destruct (Ascii.eqb c ch) eqn:E; [|done].
    apply Ascii.eqb_eq in E. subst c. by destruct (Hend []).
  - change (rstrip_char ch (c :: d :: s))
      with (match rstrip_char ch (d :: s) with
            | [] => if Ascii.eqb c ch then [] else [c]
            | r' => c :: r'
            end).
    rewrite IH; [done|]. intros front Hfront.
    apply (Hend (c :: front)). simpl. by rewrite Hfront.
Qed.

(** What is stripped is a run of [ch]. *)
Lemma rstrip_char_split (ch : ascii) (s : str) :
  exists n, s = rstrip_char ch s ++ repeat ch n.
Proof.
  induction s as [|c s [n IH]]; [by exists 0|]. simpl.
  destruct (rstrip_char ch s) as [|d r] eqn:E.
  - destruct (Ascii.eqb c ch) eqn:Ec.
    + apply Ascii.eqb_eq in Ec. subst c. exists (S n). simpl in *.
      by rewrite <- IH.
    + exists n. simpl in *. by rewrite <- IH.
  - exists n. simpl in *. by rewrite <- IH.
Qed.

(** [s.rstrip(ch)] is the one text that does not end with [ch] and that a
    run of [ch] completes to [s]. *)
Lemma rstrip_char_spec (ch : ascii) (s stripped : str) :
  rstrip_char ch s = stripped
  <-> (exists n, s = stripped ++ repeat ch n)
      /\ (forall front, stripped <> front ++ [ch]).
Proof.
  split.
  - intros <-. split; [apply rstrip_char_split|].
    intros front. apply rstrip_char_end.
  - intros [[n ->] Hend]. rewrite rstrip_char_app_repeat.
    by apply rstrip_char_id.
Qed.

Lemma rstrip_char_In (ch x : ascii) (s : str) :
  In x (rstrip_char ch s) -> In x s.
Proof.
  induction s as [|c s IH]; [done|]. simpl.
  destruct (rstrip_char ch s) as [|d r].
  - destruct (Ascii.eqb c ch); [done|]. intros [<-|[]]. by left.
  - intros [<-|H]; [by left | right; by apply IH].
Qed.

Lemma contains_single (h : ascii) (s : str) :
  ~ In h s -> contains s [h] = false.
Proof.
  induction s as [|c s IH]; [done|]. intros Hnot.
  cbn [contains startswith]. rewrite IH by (intros H; apply Hnot; by right).
  destruct (Ascii.eqb h c) eqn:E; [|done].
  apply Ascii.eqb_eq in E. subst c. destruct Hnot. by left.
Qed.

(** The text before the first [h] has no [h]. *)
Lemma split_first_piece (h : ascii) (s : str) :
  ~ In h (hd [] (split [h] s)).
Proof.
  unfold split. induction s as [|c s IH]; [by intros []|].
  cbn [split_from startswith].
  destruct (Ascii.eqb h c) eqn:E; cbn [andb]; [by intros []|].
  pose proof (split_from_not_nil [h] 0 s) as Hne.
  destruct (split_from [h] 0 s) as [|p ps]; [done|]. simpl in *.
  intros [->|H]; [by rewrite Ascii.eqb_refl in E | done].
Qed.

Lemma normalize_idempotent (url : str) :
  normalize (normalize url) = normalize url.
Proof.
  unfold normalize.
  set (x := hd [] (split [hash] url)).
  assert (~ In hash (rstrip_char slash x)) as Hno.
  { intros H. apply rstrip_char_In in H. by apply split_first_piece in H. }
  rewrite (split_without _ _ (contains_single _ _ Hno)). simpl.
  apply rstrip_char_fixed.
Qed.

End NormalizeFacts.

(** ** Text chunker *)

Section ChunkerFacts.

Import Chunker.

Context {Meta : Type}.

Implicit Types (metadata : Meta) (c : Chunk Meta).

Lemma fold_left_invariant {A B : Type} (f : A -> B -> A) (I : A -> Prop)
    (l : list B) (a : A) :
  I a -> (forall a x, In x l -> I a -> I (f a x)) -> I (fold_left f l a).
Proof.
  revert a. induction l as [|x l IH]; intros a Ha Hstep; simpl; [done|].
  apply IH.
  - apply Hstep; [by left | done].
  - intros a' x' Hx'. apply Hstep. by right.
Qed.

Lemma flush_In (current_chunk : str) metadata c :
  In c (flush current_chunk metadata) ->
  content c = strip current_chunk /\ strip current_chunk <> [].
Proof.
  unfold flush. destruct (nonempty (strip current_chunk)) eqn:E; [|done].
  intros [<-|[]]. split; [done | by apply nonempty_true].
Qed.

(** A chunk of [_split_large_text] exceeds [chunk_size + 1] only when it is
    a single sentence. *)
Lemma split_large_text_chunks (chunk_size : nat) (text : str) metadata c :
  In c (split_large_text chunk_size text metadata) ->
  length (content c) <= chunk_size + 1
  \/ exists s, In s (sentences text) /\ content c = strip s.
Proof.
  unfold split_large_text.
  set (Q := fun c : Chunk Meta =>
    length (content c) <= chunk_size + 1
    \/ exists s, In s (sentences text) /\ content c = strip s).
  set (J := fun st : str * list (Chunk Meta) =>
    (length (fst st) <= chunk_size + 1
     \/ exists s, In s (sentences text) /\ fst st = strip s)
    /\ forall c, In c (snd st) -> Q c).
  assert (Hflush : forall cur out c',
             J (cur, out) -> In c' (flush cur metadata) -> Q c').
  { intros cur out c' [[Hlen|(s & Hs & Hcur)] _] [Hc _]%flush_In;
      simpl in *.
    - left. rewrite Hc. pose proof (strip_length cur). lia.
    - right. exists s. by rewrite Hc, Hcur, strip_idempotent. }
  assert (HJ : J (fold_left (split_step chunk_size metadata)
                            (sentences text) ([], []))).
  { apply fold_left_invariant.
    - split; [left; simpl; lia | intros ? []].
    - intros [cur out] s Hs HJ. unfold split_step.
      destruct (nonempty (strip s)) eqn:Es; simpl; [|done].
      destruct (chunk_size <? length cur + length (strip s)) eqn:Ecmp.
      + split; simpl; [right; by exists s|].
        intros c' [Hc'|Hc']%in_app_iff; [by apply HJ | by eapply Hflush].
      + apply Nat.ltb_ge in Ecmp. split; [|apply HJ]. left. simpl.
        destruct (nonempty cur); rewrite ?length_app; simpl;
          rewrite ?length_app; simpl; lia. }
  destruct (fold_left _ _ _) as [cur out].
  intros [Hc|Hc]%in_app_iff; [by apply HJ | by eapply Hflush].
Qed.

Lemma overlap_of_length (chunk_overlap : nat) (current_chunk : str) :
  0 < chunk_overlap ->
  length (overlap_of chunk_overlap current_chunk) <= chunk_overlap.
Proof.
  intros Hpos. unfold overlap_of, slice_last.
  destruct (chunk_overlap <? length current_chunk) eqn:E; [|simpl; lia].
  apply Nat.ltb_lt in E. destruct chunk_overlap; [lia|].
  rewrite length_skipn. lia.
Qed.

Lemma restart_length (chunk_overlap : nat) (current_chunk paragraph : str) :
  0 < chunk_overlap ->
  length (restart chunk_overlap current_chunk paragraph)
  <= chunk_overlap + 2 + length paragraph.
Proof.
  intros Hpos. unfold restart.
  pose proof (overlap_of_length chunk_overlap current_chunk Hpos).
  destruct (nonempty _); rewrite ?length_app; simpl; rewrite ?length_app;
    simpl; lia.
Qed.

(** C1, as the code has it: with a positive overlap, a chunk is at most
    [chunk_size + chunk_overlap + 2] characters long (a paragraph of up to
    [chunk_size] characters after the overlap and the blank line), unless it
    is a single sentence that is itself longer than [chunk_size]. *)
Theorem chunk_text_length_bound (chunk_size chunk_overlap : nat) (text : str)
    metadata c :
  0 < chunk_overlap ->
  In c (chunk_text chunk_size chunk_overlap text metadata) ->
  length (content c) <= chunk_size + chunk_overlap + 2
  \/ lone_sentence chunk_size text (content c).
Proof.
  intros Hpos. unfold chunk_text.
  destruct (nonempty (strip text)) eqn:Et; simpl; [|done].
  set (bound := chunk_size + chunk_overlap + 2).
  set (P := fun c : Chunk Meta =>
    length (content c) <= bound \/ lone_sentence chunk_size text (content c)).
  set (I := fun st : str * list (Chunk Meta) =>
    length (fst st) <= bound /\ forall c, In c (snd st) -> P c).
  assert (Hflush : forall cur out c',
             I (cur, out) -> In c' (flush cur metadata) -> P c').
  { intros cur out c' [Hlen _] [Hc _]%flush_In; simpl in *.
    left. rewrite Hc. pose proof (strip_length cur). lia. }
  assert (HI : I (fold_left (chunk_step chunk_size chunk_overlap metadata)
                            (paragraphs (strip text)) ([], []))).
  { apply fold_left_invariant.
    - split; [simpl; lia | intros ? []].
    - intros [cur out] p Hp HI. unfold chunk_step.
      destruct (nonempty (strip p)) eqn:Ep; simpl; [|done].
      destruct (chunk_size <? length cur + length (strip p)) eqn:Ecmp.
      + destruct (chunk_size <? length (strip p)) eqn:Ebig.
        * split; simpl; [lia|].
          intros c' [[Hc'|Hc']%in_app_iff|Hc']%in_app_iff;
            [by apply HI | by eapply Hflush |].
          apply split_large_text_chunks in Hc' as [Hc'|(s & Hs & Hc')].
          -- left. unfold bound. lia.
          -- destruct (Nat.le_gt_cases (length (content c')) chunk_size).
             ++ left. unfold bound. lia.
             ++ right. split; [done|]. by exists p, s.
        * apply Nat.ltb_ge in Ebig. split; simpl.
          -- pose proof (restart_length chunk_overlap cur (strip p) Hpos).
             unfold bound. lia.
          -- intros c' [Hc'|Hc']%in_app_iff;
               [by apply HI | by eapply Hflush].
      + apply Nat.ltb_ge in Ecmp. split; [|apply HI]. simpl.
        destruct (nonempty cur); rewrite ?length_app; simpl;
          rewrite ?length_app; unfold bound; lia. }
  destruct (fold_left _ _ _) as [cur out].
  intros [Hc|Hc]%in_app_iff; [by apply HI | by eapply Hflush].
Qed.

Lemma rstrip_cons_not_nil (c : ascii) (s : str) :
  isspace c = false -> rstrip (c :: s) <> [].
Proof. intros H. simpl. destruct (rstrip s); [by rewrite H | done]. Qed.

Lemma strip_cons_not_nil (c : ascii) (s : str) :
  isspace c = false -> strip (c :: s) <> [].
Proof.
  intros H. unfold strip. simpl. rewrite H. by apply rstrip_cons_not_nil.
Qed.

(** A trimmed, non-empty text has a non-blank first paragraph. *)
Lemma trimmed_paragraphs_not_nil (t : str) :
  t <> [] -> headed t -> trimmed_pieces (paragraphs t) <> [].
Proof.
  destruct t as [|c t]; [done|]. intros _ Hc%headed_cons.
  assert (startswith (c :: t) para_sep = false) as Hs.
  { unfold para_sep. cbn [startswith].
    destruct (Ascii.eqb LF c) eqn:E; [|done].
    apply Ascii.eqb_eq in E. subst c. discriminate Hc. }
  destruct (split_head para_sep c t Hs) as (p & ps & Hsplit).
  unfold paragraphs, trimmed_pieces. rewrite Hsplit. simpl.
  pose proof (strip_cons_not_nil c p Hc) as Hne.
  apply nonempty_true in Hne. by rewrite Hne.
Qed.

(** While everything seen so far fits in a chunk, the loop of
    [chunk_text] only extends the buffer. *)
Lemma chunk_text_accumulates (chunk_size chunk_overlap : nat) metadata
    (rest seen : list str) :
  weight 2 (seen ++ rest) <= chunk_size + 2 ->
  fold_left (chunk_step chunk_size chunk_overlap metadata) rest
            (join para_sep (trimmed_pieces seen), [])
  = (join para_sep (trimmed_pieces (seen ++ rest)), []).
Proof.
  revert seen. induction rest as [|p rest IH]; intros seen Hw.
  - by rewrite app_nil_r.
  - replace (seen ++ p :: rest) with ((seen ++ [p]) ++ rest) in *
      by (by rewrite <- app_assoc).
    rewrite <- IH by done. simpl. f_equal.
    rewrite trimmed_pieces_snoc. unfold chunk_step.
    destruct (nonempty (strip p)) eqn:Ep; simpl;
      [|by rewrite app_nil_r].
    pose proof (join_length para_sep (trimmed_pieces seen)) as Hj.
    pose proof (trimmed_pieces_weight 2 seen) as Ht.
    pose proof (strip_length p) as Hp.
    rewrite !weight_app in Hw. unfold weight at 2 in Hw. simpl in Hw, Hj.
    assert ((chunk_size <? length (join para_sep (trimmed_pieces seen))
                            + length (strip p)) = false) as ->
      by (apply Nat.ltb_ge; lia).
    f_equal. destruct (trimmed_pieces seen) as [|q qs] eqn:Eq; [done|].
    rewrite <- Eq in *.
    assert (trimmed_pieces seen <> []) as Hne by (by rewrite Eq).
    pose proof (trimmed_pieces_Forall seen) as HF.
    assert (join para_sep (trimmed_pieces seen) <> []) as Hjne.
    { apply join_nonempty; [done|].
      eapply Forall_impl; [exact HF|]. by intros ? [? _]. }
    apply nonempty_true in Hjne. rewrite Hjne.
    by rewrite join_snoc.
Qed.

(** C7, as the code has it: a non-blank text shorter than [chunk_size]
    gives exactly one chunk, made of the text's non-blank paragraphs, each
    trimmed, joined by blank lines; it is the trimmed text when that has a
    single paragraph. *)
Theorem chunk_text_short (chunk_size chunk_overlap : nat) (text : str)
    metadata :
  strip text <> [] ->
  length text < chunk_size ->
  chunk_text chunk_size chunk_overlap text metadata
  = [mkChunk (join para_sep (trimmed_pieces (paragraphs (strip text))))
             metadata]
  /\ (contains (strip text) para_sep = false ->
      chunk_text chunk_size chunk_overlap text metadata
      = [mkChunk (strip text) metadata]).
Proof.
  intros Hne Hlen.
  assert (chunk_text chunk_size chunk_overlap text metadata
          = [mkChunk (join para_sep (trimmed_pieces (paragraphs (strip text))))
                     metadata]) as Heq.
  { assert (fold_left (chunk_step chunk_size chunk_overlap metadata)
                      (paragraphs (strip text)) ([], [])
            = (join para_sep (trimmed_pieces (paragraphs (strip text))), []))
      as Hfold.
    { apply (chunk_text_accumulates chunk_size chunk_overlap metadata
               (paragraphs (strip text)) []).
      pose proof (split_weight para_sep (strip text) ltac:(done)) as Hw.
      change (length para_sep) with 2 in Hw.
      pose proof (strip_length text). unfold paragraphs.
      rewrite app_nil_l. lia. }
    unfold chunk_text. pose proof Hne as Hne'.
    apply nonempty_true in Hne'. rewrite Hne'. cbn [negb].
    rewrite Hfold. unfold flush.
    destruct (join_trimmed para_sep (trimmed_pieces (paragraphs (strip text))))
      as (Hh & Ht & Hj).
    - apply trimmed_paragraphs_not_nil; [done | apply strip_headed].
    - apply trimmed_pieces_Forall.
    - rewrite (strip_fixed _ Hh Ht).
      apply nonempty_true in Hj. by rewrite Hj. }
  split; [done|]. intros Hsingle. rewrite Heq.
  unfold paragraphs. rewrite (split_without _ _ Hsingle).
  unfold trimmed_pieces. simpl. rewrite strip_idempotent.
  apply nonempty_true in Hne. by rewrite Hne.
Qed.


End ChunkerFacts.

(** ** Text chunker: examples *)

Section ChunkerExamples.

Import Chunker.

Example split_blank_lines :
  split para_sep (lit "a" ++ [LF; LF; LF] ++ lit "b")
  = [lit "a"; LF :: lit "b"].
Proof. reflexivity. Qed.

Example strip_both : strip (lit "  a b " ++ [LF]) = lit "a b".
Proof. reflexivity. Qed.

Example sentences_of_text :
  sentences (lit "One. Two.  Three") = [lit "One."; lit "Two."; lit " Three"].
Proof. reflexivity. Qed.

Example slice_last_short : slice_last 5 (lit "abc") = lit "abc".
Proof. reflexivity. Qed.

Example slice_last_zero : slice_last 0 (lit "abc") = lit "abc".
Proof. reflexivity. Qed.

Example chunk_text_blank :
  chunk_text 1000 200 ([LF] ++ lit "  " ++ [LF]) tt = [].
Proof. reflexivity. Qed.

Lemma chunk_text_length_bound_witness :
  let text := lit "aaaaaa" ++ para_sep ++ lit "bbbbbbbb" in
  let c := mkChunk (lit "aaa" ++ para_sep ++ lit "bbbbbbbb") tt in
  0 < 3
  /\ In c (chunk_text 10 3 text tt)
  /\ (length (content c) <= 10 + 3 + 2 \/ lone_sentence 10 text (content c)).
Proof.
  assert (0 < 3) as Hpos by lia.
  assert (In (mkChunk (lit "aaa" ++ para_sep ++ lit "bbbbbbbb") tt)
             (chunk_text 10 3 (lit "aaaaaa" ++ para_sep ++ lit "bbbbbbbb") tt))
    as Hin by (vm_compute; right; left; reflexivity).
  exact (conj Hpos (conj Hin
           (chunk_text_length_bound 10 3 _ tt _ Hpos Hin))).
Defined.

(** C1 as stated fails: with the default sizes, two paragraphs of
    nine-character sentences give a second chunk of 1150 characters. *)
Lemma chunk_exceeds_chunk_size :
  (exists c, In c (chunk_text 1000 200 two_long_paragraphs tt)
             /\ 1000 < length (content c))
  /\ Forall (fun s => length s <= 20)
            (split sentence_end two_long_paragraphs)
  /\ Forall (fun p => Forall (fun s => length s <= 10) (sentences (strip p)))
            (paragraphs (strip two_long_paragraphs)).
Proof.
  split_and!.
  - exists (nth 1 (chunk_text 1000 200 two_long_paragraphs tt)
                (mkChunk [] tt)).
    split.
    + apply nth_In. apply Nat.ltb_lt. vm_compute. reflexivity.
    + apply Nat.ltb_lt. vm_compute. reflexivity.
  - apply List.Forall_forall. intros s Hs. apply Nat.leb_le.
    revert s Hs. apply forallb_forall. vm_compute. reflexivity.
  - apply List.Forall_forall. intros p Hp. apply List.Forall_forall.
    intros s Hs. apply Nat.leb_le. revert s Hs. apply forallb_forall.
    revert p Hp. apply forallb_forall. vm_compute. reflexivity.
Qed.

(** The separator alone already takes a chunk over [chunk_size]. *)
Example chunk_text_separator_overflow :
  map (fun c => length (content c))
      (chunk_text 1000 200
         (times 500 (lit "a") ++ para_sep ++ times 500 (lit "b")) tt)
  = [1002].
Proof. vm_compute. reflexivity. Qed.

(** With [chunk_overlap = 0] the overlap is the whole buffer. *)
Example chunk_text_zero_overlap :
  map (fun c => length (content c))
      (chunk_text 10 0
         (lit "aaaaaa" ++ para_sep ++ lit "bbbbbb" ++ para_sep
          ++ lit "cccccc") tt)
  = [6; 14; 22].
Proof. vm_compute. reflexivity. Qed.

Lemma chunk_text_short_witness :
  let text := lit "  hello" ++ para_sep ++ lit " world " in
  strip text <> []
  /\ length text < 1000
  /\ chunk_text 1000 200 text tt
     = [mkChunk (lit "hello" ++ para_sep ++ lit "world") tt].
Proof.
  assert (strip (lit "  hello" ++ para_sep ++ lit " world ") <> [])
    as Hne by (vm_compute; discriminate).
  assert (length (lit "  hello" ++ para_sep ++ lit " world ") < 1000)
    as Hlen by (vm_compute; lia).
  exact (conj Hne (conj Hlen
           (proj1 (chunk_text_short 1000 200 _ tt Hne Hlen)))).
Defined.

(** C7 as stated fails: the one chunk is not the trimmed input when the
    paragraphs have blanks around the separator. *)
Lemma chunk_is_not_trimmed_input :
  let text := lit "a " ++ para_sep ++ lit " b" in
  strip text <> []
  /\ length text < 1000
  /\ chunk_text 1000 200 text tt = [mkChunk (lit "a" ++ para_sep ++ lit "b") tt]
  /\ lit "a" ++ para_sep ++ lit "b" <> strip text.
Proof. vm_compute. split_and!; (discriminate || lia || reflexivity). Qed.



End ChunkerExamples.

(** ** Documentation crawler *)

Section CrawlerFacts.

Import Crawler.

Variable urlparse : str -> option ParseResult.
Variable urljoin : str -> str -> str.
Variable get : str -> Response.
Variable self : DocsCrawler.

Lemma str_eqb_eq (a b : str) : str_eqb a b = true <-> a = b.
Proof. unfold str_eqb. apply bool_decide_eq_true. Qed.

Lemma invariant_size (st : CrawlState) :
  crawl_invariant (max_pages self) st ->
  size (visited st) = length (added st).
Proof. intros (Hnd & -> & _). by apply size_list_to_set. Qed.

Lemma visit_invariant (raw : str) (st : CrawlState) :
  crawl_invariant (max_pages self) st ->
  size (visited st) < max_pages self ->
  normalize raw ∉ visited st ->
  crawl_invariant (max_pages self) (visit (normalize raw) st).
Proof.
  intros Hinv Hsize Hnew. pose proof (invariant_size st Hinv) as Hlen.
  destruct Hinv as (Hnd & Hset & Hmax & Hnorm).
  unfold crawl_invariant, visit; simpl.
  split_and!.
  - apply NoDup_app. split_and!; [done | | apply NoDup_singleton].
    intros x Hx Hx'. apply list_elem_of_singleton in Hx'. subst x.
    apply Hnew. rewrite Hset. by apply elem_of_list_to_set.
  - rewrite Hset, list_to_set_app_L. simpl.
    rewrite (right_id_L ∅ (∪)). apply (comm_L (∪)).
  - rewrite length_app. simpl. lia.
  - apply Forall_app. split; [done|]. apply Forall_singleton.
    apply normalize_idempotent.
Qed.

Lemma follow_links_invariant
    (recurse : str -> CrawlState -> option CrawlState)
    (links : list str) (st st' : CrawlState) :
  (forall link s s',
     crawl_invariant (max_pages self) s -> recurse link s = Some s' ->
     crawl_invariant (max_pages self) s') ->
  crawl_invariant (max_pages self) st ->
  follow_links recurse links st = Some st' ->
  crawl_invariant (max_pages self) st'.
Proof.
  intros Hrec. revert st. induction links as [|link rest IH]; intros st Hinv.
  - simpl. by intros [= <-].
  - simpl. destruct (recurse link st) as [s|] eqn:E; [|done].
    apply IH. by eapply Hrec.
Qed.

Lemma crawl_recursive_invariant (fuel : nat) (url : str) (depth : nat)
    (st st' : CrawlState) :
  crawl_invariant (max_pages self) st ->
  crawl_recursive urlparse urljoin get fuel self url depth st = Some st' ->
  crawl_invariant (max_pages self) st'.
Proof.
  revert url depth st st'.
  induction fuel as [|fuel IH]; intros url depth st st' Hinv; [done|].
  simpl. destruct (max_depth self <? depth); [by intros [= <-]|].
  destruct (max_pages self <=? size (visited st)) eqn:Efull;
    [by intros [= <-]|].
  apply Nat.leb_gt in Efull.
  destruct (bool_decide (normalize url ∈ visited st)) eqn:Eseen;
    [by intros [= <-]|].
  apply bool_decide_eq_false in Eseen.
  destruct (is_valid_url urlparse self (normalize url)); simpl;
    [|by intros [= <-]].
  pose proof (visit_invariant url st Hinv Efull Eseen) as Hvisit.
  destruct (get (normalize url)) as [| |title content hrefs];
    [by intros [= <-] | by intros [= <-] |].
  apply follow_links_invariant.
  - intros link s s'. apply IH.
  - by destruct (nonempty (strip content)).
Qed.

Lemma follow_links_total
    (recurse : str -> CrawlState -> option CrawlState)
    (links : list str) (st : CrawlState) :
  (forall link s, is_Some (recurse link s)) ->
  is_Some (follow_links recurse links st).
Proof.
  intros Hrec. revert st. induction links as [|link rest IH]; intros st.
  - by eexists.
  - simpl. destruct (Hrec link st) as [s ->]. apply IH.
Qed.

(** The recursion is at most [max_depth + 2] calls deep. *)
Lemma crawl_recursive_total (fuel : nat) (url : str) (depth : nat)
    (st : CrawlState) :
  0 < fuel -> max_depth self + 2 <= fuel + depth ->
  is_Some (crawl_recursive urlparse urljoin get fuel self url depth st).
Proof.
  revert url depth st.
  induction fuel as [|fuel IH]; intros url depth st Hpos Hfuel; [lia|].
  simpl. destruct (max_depth self <? depth) eqn:Edepth; [by eexists|].
  apply Nat.ltb_ge in Edepth.
  destruct (max_pages self <=? size (visited st)); [by eexists|].
  destruct (bool_decide (normalize url ∈ visited st)); [by eexists|].
  destruct (is_valid_url urlparse self (normalize url)); simpl;
    [|by eexists].
  destruct (get (normalize url)) as [| |title content hrefs];
    [by eexists | by eexists |].
  apply follow_links_total. intros link s. apply IH; lia.
Qed.

Lemma initial_invariant : crawl_invariant (max_pages self) initial.
Proof.
  split_and!; simpl; [apply NoDup_nil_2 | done | lia | apply Forall_nil_2].
Qed.

Lemma crawl_invariant_holds :
  exists st, crawl urlparse urljoin get self = Some st
             /\ crawl_invariant (max_pages self) st.
Proof.
  unfold crawl.
  destruct (crawl_recursive_total (max_depth self + 2) (base_url self) 0
              initial ltac:(lia) ltac:(lia)) as [st Hst].
  exists st. split; [done|].
  eapply crawl_recursive_invariant; [apply initial_invariant | exact Hst].
Qed.

Lemma is_valid_url_spec (url : str) :
  is_valid_url urlparse self url = true <->
  exists parsed,
    urlparse url = Some parsed
    /\ netloc parsed = base_domain self
    /\ (exists rest,
          path_or_root (path parsed) = base_path_prefix self ++ rest)
    /\ ~ (exists ext front,
            In ext skip_extensions
            /\ lower (path_or_root (path parsed)) = front ++ ext).
Proof.
  unfold is_valid_url. destruct (urlparse url) as [parsed|]; swap 1 2.
  { split; [done | by intros (? & ? & _)]. }
  destruct (str_eqb (netloc parsed) (base_domain self)) eqn:Ehost;
    cbn [negb].
  - apply str_eqb_eq in Ehost.
    destruct (startswith _ (base_path_prefix self)) eqn:Eprefix; cbn [negb].
    + apply startswith_spec in Eprefix.
      destruct (existsb (fun ext => endswith
                  (lower (path_or_root (path parsed))) ext)
                  skip_extensions) eqn:Eext; cbv iota.
      * apply existsb_exists in Eext as (ext & Hext & Hend).
        apply endswith_spec in Hend as [front Hfront].
        split; [done|]. intros (p & [= <-] & _ & _ & Hno).
        destruct Hno. by exists ext, front.
      * split; [|done]. intros _. exists parsed. split_and!; try done.
        intros (ext & front & Hext & Hfront).
        assert (existsb (fun ext => endswith
                  (lower (path_or_root (path parsed))) ext)
                  skip_extensions = true) as Hyes.
        { apply existsb_exists. exists ext. split; [done|].
          apply endswith_spec. by exists front. }
        congruence.
    + split; [done|]. intros (p & [= <-] & _ & Hp & _).
      apply startswith_spec in Hp. congruence.
  - split; [done|]. intros (p & [= <-] & Hp & _).
    apply str_eqb_eq in Hp. congruence.
Qed.

End CrawlerFacts.

(** ** Documentation crawler: the links a page gives *)

Section CrawlerLinks.

Import Crawler.

Variable urlparse : str -> option ParseResult.
Variable urljoin : str -> str -> str.
Variable self : DocsCrawler.

Local Abbreviation valid := (is_valid_url urlparse self).
Local Abbreviation links_of := (extract_links urlparse urljoin self).

(** The links kept are the in-scope links not yet visited; they are
    normalized. *)
Lemma extract_links_spec (V : gset str) (u : str) (hrefs : list str)
    (v : str) :
  In v (links_of V u hrefs) <-> In v (links_of ∅ u hrefs) /\ v ∉ V.
Proof.
  induction hrefs as [|href rest IH]; simpl; [tauto|].
  destruct (_ || _); [done|].
  destruct (valid _) eqn:Ev; simpl; [|done].
  rewrite (bool_decide_eq_false_2 (_ ∈ (∅ : gset str)))
    by apply not_elem_of_empty.
  simpl.
  destruct (bool_decide _) eqn:Eseen; simpl.
  - apply bool_decide_eq_true in Eseen. rewrite IH.
    split; [tauto|]. intros [[<-|H] Hv]; [done | tauto].
  - apply bool_decide_eq_false in Eseen. rewrite IH.
    split; [intros [<-|H]; tauto|]. tauto.
Qed.

Lemma extract_links_valid (u : str) (hrefs : list str) (v : str) :
  In v (links_of ∅ u hrefs) -> valid v = true /\ normalize v = v.
Proof.
  induction hrefs as [|href rest IH]; simpl; [done|].
  destruct (_ || _); [done|].
  destruct (valid (normalize (urljoin u href))) eqn:Ev; simpl;
    [|exact IH].
  rewrite (bool_decide_eq_false_2 (_ ∈ (∅ : gset str)))
    by apply not_elem_of_empty.
  simpl.
  intros [<-|H]; [|by apply IH].
  split; [done | apply normalize_idempotent].
Qed.

End CrawlerLinks.

(** C4: a crawl terminates; it adds no URL to [visited] twice, every URL it
    adds is a normalized one, and it never adds more than [max_pages]; on a
    site of ten reachable pages and [max_pages = 3] it visits exactly
    three. *)
Theorem crawl_visits_once_within_budget :
  (forall urlparse urljoin get self,
     exists st,
       Crawler.crawl urlparse urljoin get self = Some st
       /\ NoDup (Crawler.added st)
       /\ Crawler.visited st = list_to_set (Crawler.added st)
       /\ Forall (fun u => Crawler.normalize u = u) (Crawler.added st)
       /\ size (Crawler.visited st) <= Crawler.max_pages self)
  /\ option_map (fun st => size (Crawler.visited st)) (crawl_ten_pages 500 5)
     = Some 10
  /\ option_map (fun st => size (Crawler.visited st)) (crawl_ten_pages 3 5)
     = Some 3.
Proof.
  split_and!.
  - intros urlparse urljoin get self.
    destruct (crawl_invariant_holds urlparse urljoin get self)
      as (st & Hst & Hinv).
    exists st. pose proof (invariant_size self st Hinv) as Hsize.
    destruct Hinv as (Hnd & Hset & Hmax & Hnorm).
    split_and!; try done. lia.
  - vm_compute. reflexivity.
  - vm_compute. reflexivity.
Qed.

(** C5: a URL is accepted exactly when it parses, its host is the base
    host, and its path, with the slashes at its end stripped and replaced
    by [/] when nothing is left, starts with the base path prefix and, in
    lower case, ends with no blocked extension; for the base
    [https://ex.com/docs], [/docs/a] is accepted and [/blog], another host
    and [/docs/file.pdf] are rejected.  The slashes are stripped before the
    extension is looked at, and the extension is compared in lower case:
    [/docs/a/] is accepted, [/docs/file.pdf/] and [/docs/FILE.PDF] are
    rejected; under the base [https://ex.com/], whose prefix is [/], the
    URL [https://ex.com], whose path is empty, is accepted. *)
Theorem is_valid_url_scope :
  (forall urlparse self url,
     Crawler.is_valid_url urlparse self url = true <->
     exists parsed stripped url_path,
       urlparse url = Some parsed
       /\ Crawler.netloc parsed = Crawler.base_domain self
       /\ (exists n, Crawler.path parsed = stripped ++ repeat "/"%char n)
       /\ (forall front, stripped <> front ++ ["/"%char])
       /\ url_path = match stripped with [] => ["/"%char] | _ => stripped end
       /\ (exists rest, url_path = Crawler.base_path_prefix self ++ rest)
       /\ ~ (exists ext front,
               In ext (map lit [".pdf"; ".zip"; ".tar"; ".gz"; ".png";
                                ".jpg"; ".gif"; ".svg"; ".css";
                                ".js"]%string)
               /\ lower url_path = front ++ ext))
  /\ (exists self,
        Crawler.new_crawler Crawler.urlparse (lit "https://ex.com/docs") 500 5
        = Some self
        /\ Crawler.base_domain self = lit "ex.com"
        /\ Crawler.base_path_prefix self = lit "/docs"
        /\ Crawler.is_valid_url Crawler.urlparse self
             (lit "https://ex.com/docs/a") = true
        /\ Crawler.is_valid_url Crawler.urlparse self
             (lit "https://ex.com/blog") = false
        /\ Crawler.is_valid_url Crawler.urlparse self
             (lit "https://other.com/docs") = false
        /\ Crawler.is_valid_url Crawler.urlparse self
             (lit "https://ex.com/docs/file.pdf") = false
        /\ Crawler.is_valid_url Crawler.urlparse self
             (lit "https://ex.com/docs/a/") = true
        /\ Crawler.is_valid_url Crawler.urlparse self
             (lit "https://ex.com/docs/file.pdf/") = false
        /\ Crawler.is_valid_url Crawler.urlparse self
             (lit "https://ex.com/docs/FILE.PDF") = false)
  /\ (exists self,
        Crawler.new_crawler Crawler.urlparse (lit "https://ex.com/") 500 5
        = Some self
        /\ Crawler.base_domain self = lit "ex.com"
        /\ Crawler.base_path_prefix self = lit "/"
        /\ Crawler.is_valid_url Crawler.urlparse self
             (lit "https://ex.com") = true
        /\ Crawler.is_valid_url Crawler.urlparse self
             (lit "https://ex.com/a.js/") = false).
Proof.
  split_and!.
  - intros urlparse self url. rewrite is_valid_url_spec.
    change Crawler.skip_extensions
      with (map lit [".pdf"; ".zip"; ".tar"; ".gz"; ".png"; ".jpg"; ".gif";
                     ".svg"; ".css"; ".js"]%string).
    unfold Crawler.path_or_root. cbv zeta. split.
    + intros (parsed & Hparse & Hhost & Hprefix & Hext).
      destruct (proj1 (rstrip_char_spec Crawler.slash (Crawler.path parsed)
                         _) eq_refl) as [Hrun Hend].
      exists parsed, (rstrip_char Crawler.slash (Crawler.path parsed)),
        (if nonempty (rstrip_char Crawler.slash (Crawler.path parsed))
         then rstrip_char Crawler.slash (Crawler.path parsed)
         else [Crawler.slash]).
      split_and!; try done.
      by destruct (rstrip_char Crawler.slash (Crawler.path parsed)).
    + intros (parsed & stripped & url_path & Hparse & Hhost & Hrun & Hend
              & Hpath & Hprefix & Hext).
      assert (rstrip_char Crawler.slash (Crawler.path parsed) = stripped)
        as Hstrip by (by apply rstrip_char_spec).
      exists parsed. rewrite Hstrip.
      rewrite Hpath in Hprefix, Hext. by destruct stripped.
  - eexists. split; [vm_compute; reflexivity|].
    split_and!; vm_compute; reflexivity.
  - eexists. split; [vm_compute; reflexivity|].
    split_and!; vm_compute; reflexivity.
Qed.

(** ** GitHub repository fetcher *)

Section GitHubFacts.

Import GitHub.

Variable max_files : nat.
Variable repo : Repo.

Local Abbreviation Inv := (fetch_invariant max_files repo).

Lemma process_file_invariant (cf : ContentFile) (file_type : str)
    (st : FetchState) :
  Inv st -> fetched_count st < max_files -> in_repo repo cf ->
  Inv (process_file cf file_type st).
Proof.
  intros (Hcount & Hmax & Hall) Hroom Hcf. unfold process_file.
  destruct (size_ceiling <? cf_size cf)%N eqn:Esize; [done|].
  apply N.ltb_ge in Esize.
  destruct (_ && _); [done|].
  destruct (cf_decoded cf) as [decoded|] eqn:Edec; [|done].
  unfold fetch_invariant; simpl. split_and!.
  - rewrite length_app. simpl. lia.
  - lia.
  - apply Forall_app. split; [done|]. apply Forall_singleton.
    by exists cf.
Qed.

Lemma walk_invariant (recurse : str -> FetchState -> option FetchState)
    (file_type : str) (contents : list ContentFile) (st st' : FetchState) :
  (forall path s s', Inv s -> recurse path s = Some s' -> Inv s') ->
  (forall item, In item contents -> in_repo repo item) ->
  Inv st ->
  walk max_files recurse file_type contents st = Some st' ->
  Inv st'.
Proof.
  intros Hrec. revert st.
  induction contents as [|item rest IH]; intros st Hitems Hinv; simpl.
  - by intros [= <-].
  - destruct (max_files <=? fetched_count st) eqn:Efull;
      [by intros [= <-]|].
    apply Nat.leb_gt in Efull.
    assert (forall i, In i rest -> in_repo repo i) as Hrest
      by (intros i Hi; apply Hitems; by right).
    destruct (str_eqb (cf_type item) _); cbv iota.
    + destruct (recurse (cf_path item) st) as [s|] eqn:E; [|done].
      apply IH; [done|]. by eapply Hrec.
    + destruct (str_eqb (cf_type item) _); cbv iota.
      * apply IH; [done|]. apply process_file_invariant; [done..|].
        apply Hitems. by left.
      * by apply IH.
Qed.

Lemma fetch_directory_invariant (fuel : nat) (path file_type : str)
    (depth : nat) (st st' : FetchState) :
  Inv st ->
  fetch_directory max_files repo fuel path file_type depth st = Some st' ->
  Inv st'.
Proof.
  revert path depth st st'.
  induction fuel as [|fuel IH]; intros path depth st st' Hinv; [done|].
  cbn [fetch_directory]. destruct (_ || _); [by intros [= <-]|].
  destruct (repo path) as [|f|items] eqn:E; [by intros [= <-] | |].
  - apply walk_invariant; [intros p s s'; apply IH | | done].
    intros item [<-|[]]. exists path. by left.
  - apply walk_invariant; [intros p s s'; apply IH | | done].
    intros item Hitem. exists path. right. by exists items.
Qed.

Lemma fetch_priority_invariant (files : list str) (st : FetchState) :
  Inv st -> Inv (fetch_priority max_files repo files st).
Proof.
  revert st. induction files as [|file_path rest IH]; intros st Hinv;
    simpl; [done|].
  destruct (max_files <=? fetched_count st) eqn:Efull; [done|].
  apply Nat.leb_gt in Efull.
  destruct (repo file_path) as [|f|items] eqn:E; try by apply IH.
  apply IH. apply process_file_invariant; [done..|].
  exists file_path. by left.
Qed.

Lemma fetch_dirs_invariant (fuel : nat) (type_of : str -> str)
    (dirs : list str) (st st' : FetchState) :
  Inv st ->
  fetch_dirs max_files repo fuel type_of dirs st = Some st' ->
  Inv st'.
Proof.
  revert st. induction dirs as [|dir_path rest IH]; intros st Hinv; simpl.
  - by intros [= <-].
  - destruct (max_files <=? fetched_count st); [by intros [= <-]|].
    destruct (fetch_directory _ _ _ _ _ _ _) as [s|] eqn:E; [|done].
    apply IH. by eapply fetch_directory_invariant.
Qed.

Lemma walk_total (recurse : str -> FetchState -> option FetchState)
    (file_type : str) (contents : list ContentFile) (st : FetchState) :
  (forall path s, is_Some (recurse path s)) ->
  is_Some (walk max_files recurse file_type contents st).
Proof.
  intros Hrec. revert st.
  induction contents as [|item rest IH]; intros st; simpl; [by eexists|].
  destruct (max_files <=? fetched_count st); [by eexists|].
  destruct (str_eqb (cf_type item) _); cbv iota.
  - destruct (Hrec (cf_path item) st) as [s ->]. apply IH.
  - destruct (str_eqb (cf_type item) _); apply IH.
Qed.

(** The recursion is at most 6 calls deep. *)
Lemma fetch_directory_total (fuel : nat) (path file_type : str)
    (depth : nat) (st : FetchState) :
  0 < fuel -> 6 <= fuel + depth ->
  is_Some (fetch_directory max_files repo fuel path file_type depth st).
Proof.
  revert path depth st.
  induction fuel as [|fuel IH]; intros path depth st Hpos Hfuel; [lia|].
  cbn [fetch_directory].
  destruct (4 <? depth) eqn:Edepth; cbn [orb]; [by eexists|].
  apply Nat.ltb_ge in Edepth.
  destruct (max_files <=? fetched_count st); [by eexists|].
  destruct (repo path); [by eexists | |];
    apply walk_total; intros p s; apply IH; lia.
Qed.

Lemma fetch_dirs_total (type_of : str -> str) (dirs : list str)
    (st : FetchState) :
  is_Some (fetch_dirs max_files repo 6 type_of dirs st).
Proof.
  revert st. induction dirs as [|dir_path rest IH]; intros st;
    cbn [fetch_dirs]; [by eexists|].
  destruct (max_files <=? fetched_count st); [by eexists|].
  destruct (fetch_directory_total 6 dir_path (type_of dir_path) 0 st
              ltac:(lia) ltac:(lia)) as [s ->].
  apply IH.
Qed.

Lemma fetch_from_invariant :
  exists st, fetch_from max_files repo 6 (mkFetch 0 []) = Some st /\ Inv st.
Proof.
  unfold fetch_from.
  set (st0 := fetch_priority max_files repo PRIORITY_FILES (mkFetch 0 [])).
  assert (Inv st0) as H0.
  { apply fetch_priority_invariant. split_and!; simpl; [done | lia |].
    apply Forall_nil_2. }
  destruct (fetch_dirs_total get_file_type OPERATOR_DIRS st0) as [st1 H1].
  rewrite H1.
  destruct (fetch_dirs_total (fun _ => lit "docs") DOC_DIRS st1)
    as [st2 H2].
  exists st2. split; [done|].
  eapply fetch_dirs_invariant; [|exact H2].
  eapply fetch_dirs_invariant; [exact H0 | exact H1].
Qed.

End GitHubFacts.

(** C6: a fetch returns; it yields at most [max_files] files over its
    three phases, and every file it yields was made from a [ContentFile]
    of the repository whose reported size is at most 500000. *)
Theorem fetch_within_budget (max_files : nat) (repo : option GitHub.Repo) :
  exists st,
    GitHub.fetch max_files repo = Some st
    /\ length (GitHub.yielded st) <= max_files
    /\ Forall (fun f => exists r, repo = Some r /\ from_small_file r f)
              (GitHub.yielded st).
Proof.
  destruct repo as [r|]; simpl.
  - destruct (fetch_from_invariant max_files r) as (st & Hst & Hinv).
    exists st. destruct Hinv as (Hcount & Hmax & Hall).
    split_and!; [done | lia |].
    eapply Forall_impl; [exact Hall|]. intros f Hf. by exists r.
  - eexists. split_and!; [done | simpl; lia | apply Forall_nil_2].
Qed.

(** ** Query pipeline *)

Section PipelineFacts.

Import Pipeline.

Context {Vec Dist Score : Type}.

Variable collection_count : nat.
Variable encode_query : str -> Result Vec.
Variable collection_query : Vec -> nat -> Result (@QueryResults Dist).
Variable generate_answer : str -> str -> Result (str * str).
Variable one_minus : Dist -> Score.
Variable below_floor : Score -> bool.

Local Abbreviation answer_question' :=
  (answer_question collection_count encode_query collection_query
                   generate_answer one_minus below_floor).

Local Abbreviation query' := (query collection_query one_minus).



End PipelineFacts.

(** ** Query pipeline: examples *)

Section PipelineExamples.

Import Pipeline.



End PipelineExamples.
(** ** Indexing task *)

Section TasksFacts.

Import Tasks.

Context {Meta Emb : Type}.

Variable fault : Call -> option Exn.
Variable utcnow : str -> nat.
Variable index_documentation : str -> Result (list (Chunker.Chunk Meta)).
Variable index_github : str -> str -> Result (list (Chunker.Chunk Meta)).
Variable index_github_issues : str -> Result (list (Chunker.Chunk Meta)).
Variable index_slack_history : str -> Result (list (Chunker.Chunk Meta)).
Variable embed : list str -> Result (list Emb).
Variable collection_add : list str -> list Emb -> list Meta -> option Exn.
Variable slack_channel_of : str -> option str.

Implicit Types (w : @World Meta Emb) (k : KnowledgeSource) (id : str).

Local Abbreviation fetch_chunks' :=
  (fetch_chunks index_documentation index_github index_github_issues
                index_slack_history).
Local Abbreviation embed_and_store' :=
  (embed_and_store fault embed collection_add).
Local Abbreviation index_source_body' :=
  (index_source_body fault utcnow index_documentation index_github
     index_github_issues index_slack_history embed collection_add).
Local Abbreviation record_failure' :=
  (record_failure (Meta:=Meta) (Emb:=Emb) fault).
Local Abbreviation index_source' :=
  (index_source fault utcnow index_documentation index_github
     index_github_issues index_slack_history embed collection_add).
Local Abbreviation index_channel_sources' :=
  (index_channel_sources fault utcnow index_documentation index_github
     index_github_issues index_slack_history embed collection_add
     slack_channel_of).
Local Abbreviation body_outcome' :=
  (body_outcome fault utcnow index_documentation index_github
     index_github_issues index_slack_history embed collection_add).

Local Abbreviation start' := (start (Meta:=Meta) (Emb:=Emb)).
Local Abbreviation pending channel table :=
  (select channel PENDING (start' table)).

Local Abbreviation indexed_row' := (indexed_row utcnow).
Local Abbreviation stores' := (stores embed collection_add).
Local Abbreviation completion_notice' :=
  (completion_notice (Meta:=Meta) (Emb:=Emb) slack_channel_of).

(** A stored entry comes from the chunks fetched for the row [k]. *)
Local Abbreviation chunk_of k x :=
  (exists chunks, fetch_chunks' k = Ok chunks /\ chunk_entry chunks x).

Lemma fetch_chunks_status (s : SourceStatus) k :
  fetch_chunks' (with_status s k) = fetch_chunks' k.
Proof. done. Qed.

Lemma zip_chunks (chunks : list (Chunker.Chunk Meta))
    (embeddings : list Emb) :
  Forall (chunk_entry (Emb:=Emb) chunks)
         (zip (zip (map Chunker.content chunks) embeddings)
              (map Chunker.metadata chunks)).
Proof.
  revert embeddings. induction chunks as [|c chunks IH];
    intros embeddings; [apply Forall_nil_2|].
  destruct embeddings as [|e embeddings]; [apply Forall_nil_2|].
  simpl. apply Forall_cons. split.
  - exists c. split_and!; [by left | done | done].
  - eapply Forall_impl; [apply IH|].
    intros x (c' & Hc' & Hx). exists c'. split; [by right | done].
Qed.

(** Embedding and storing touches the store only, adds entries of the
    chunks only, and returns when the embedder, the store and the print
    do. *)
Lemma embed_and_store_frame (source : KnowledgeSource)
    (chunks : list (Chunker.Chunk Meta)) w :
  exists r w',
    embed_and_store' source chunks w = (r, w')
    /\ rows w' = rows w /\ objects w' = objects w
    /\ notified w' = notified w
    /\ (exists more, stored w' = stored w ++ more
                     /\ Forall (chunk_entry chunks) more)
    /\ (stores' chunks ->
        fault (PrintIndexed (length chunks) (value (source_type source)))
        = None ->
        r = Ok tt).
Proof.
  unfold embed_and_store, vector_store_add, call, Exc.bind, Exc.lift,
    Exc.ret, Exc.raise, Exc.modify, stores.
  destruct chunks as [|c chunks].
  { eexists _, _. split; [reflexivity|]. split_and!; try done.
    exists []. by rewrite app_nil_r. }
  cbn [map].
  destruct (embed _) as [embeddings|e] eqn:Eembed.
  2:{ eexists _, _. split; [reflexivity|]. split_and!; try done.
      - exists []. by rewrite app_nil_r.
      - intros [?|(? & ? & _)]; done. }
  destruct (collection_add _ _ _) eqn:Eadd.
  { eexists _, _. split; [reflexivity|]. split_and!; try done.
    - exists []. by rewrite app_nil_r.
    - intros [?|(embeddings' & [= <-] & Hadd)]; [done | congruence]. }
  cbn beta iota.
  destruct (fault (PrintIndexed _ _)) eqn:Eprint;
    (eexists _, _; split; [reflexivity|]); cbn [rows objects stored notified];
    (split_and!; try done);
    try (eexists; split; [reflexivity|]; apply (zip_chunks (c :: chunks))).
Qed.

(** The handler: it records the failure, or, when one of its calls
    raises, leaves the row as it was committed, giving up on the source or
    ending the run. *)
Lemma record_failure_spec id (e : Exn) w k :
  rows w !! id = Some k ->
  exists r w',
    record_failure' id e w = (r, w')
    /\ notified w' = notified w
    /\ stored w' = stored w
    /\ (forall j, j <> id -> rows w' !! j = rows w !! j)
    /\ ((r = Ok tt /\ clean w'
         /\ rows w' !! id
            = Some (with_error_message (slice_to 500 (str_of_exn e))
                      (with_status FAILED k)))
        \/ (~ records_failure fault id
            /\ rows w' !! id = Some k
            /\ ((r = Ok tt /\ clean w')
                \/ exists e', r = Raise e' /\ escapes fault e'))).
Proof.
  intros Hk. unfold record_failure, rollback, refresh, commit, call, assign,
    Exc.try_except, Exc.bind, Exc.modify, Exc.ret, set_objects, clean,
    records_failure, escapes.
  destruct (fault (RollbackFailed id)) as [e1|] eqn:E1; cbn beta iota.
  { eexists _, _. split; [reflexivity|]. split_and!; try done.
    right. split_and!; [by intros [? _] | done |].
    right. exists e1. split; [done|]. by exists (RollbackFailed id). }
  destruct (fault (PrintFailed (str_of_exn e))) as [e2|] eqn:E2;
    cbn beta iota.
  { eexists _, _. split; [reflexivity|]. split_and!; try done.
    right. split_and!; [|done|].
    - intros (_ & Hp & _). by rewrite Hp in E2.
    - right. exists e2. split; [done|].
      by exists (PrintFailed (str_of_exn e)). }
  destruct (fault (RefreshSource id)) as [e3|] eqn:E3; cbn beta iota.
  { destruct (fault (RollbackGiveUp id)) as [e5|] eqn:E5; cbn beta iota;
      (eexists _, _; split; [reflexivity|]); split_and!; try done;
      right; (split_and!; [by intros (_ & _ & ? & _) | done |]).
    - right. exists e5. split; [done|]. by exists (RollbackGiveUp id).
    - by left. }
  cbn [rows]. rewrite Hk. cbn beta iota.
  destruct (fault (CommitFailed id)) as [e4|] eqn:E4; cbn beta iota.
  { destruct (fault (RollbackGiveUp id)) as [e5|] eqn:E5; cbn beta iota;
      (eexists _, _; split; [reflexivity|]); split_and!; try done;
      right; (split_and!; [by intros (_ & _ & _ & ?) | done |]).
    - right. exists e5. split; [done|]. by exists (RollbackGiveUp id).
    - by left. }
  eexists _, _. split; [reflexivity|]. cbn [rows objects stored notified].
  split_and!; try done.
  - intros j Hj. by rewrite !lookup_alter_ne, lookup_insert_ne.
  - left. split_and!; try done.
    by rewrite !lookup_alter_eq, lookup_insert_eq.
Qed.

(** The body of the [try]: it ends with the source committed as indexed,
    or raises with the source as last committed. *)
Lemma index_source_body_spec id w k :
  clean w -> rows w !! id = Some k ->
  exists r w',
    index_source_body' id w = (r, w')
    /\ notified w' = notified w
    /\ (exists more, stored w' = stored w ++ more
                     /\ Forall (fun x => chunk_of k x) more)
    /\ (forall j, j <> id -> rows w' !! j = rows w !! j)
    /\ match r with
       | Ok _ => clean w' /\ rows w' !! id = Some (indexed_row' id k)
       | Raise e =>
           rows w' !! id = Some k
           \/ rows w' !! id = Some (with_status INDEXING k)
       end.
Proof.
  intros Hclean Hk. destruct w as [m o st nt]. unfold clean in Hclean.
  simpl in *. subst o.
  set (from_k := fun x : str * Emb * Meta => chunk_of k x).
  assert (forall chunks x, fetch_chunks' k = Ok chunks ->
                           chunk_entry chunks x -> from_k x) as Hfrom
    by (intros chunks x H1 H2; by exists chunks).
  clearbody from_k.
  assert (exists more : list (str * Emb * Meta),
            st = st ++ more /\ Forall from_k more) as Hnone
    by (exists []; by rewrite app_nil_r).
  unfold index_source_body, commit, load, call, assign, Exc.bind,
    Exc.modify, Exc.lift, set_objects, indexed_row.
  cbn [rows objects stored notified].
  destruct (fault (CommitIndexing id)) as [e1|] eqn:E1; cbn beta iota.
  { eexists _, _. split; [reflexivity|]. cbn [rows objects stored notified].
    split_and!; try done. by left. }
  cbn [rows objects stored notified].
  destruct (fault (ReloadSource id)) as [e0|] eqn:E0; cbn beta iota.
  { eexists _, _. split; [reflexivity|]. cbn [rows objects stored notified].
    split_and!; try done.
    - intros j Hj. by rewrite lookup_alter_ne.
    - right. by rewrite lookup_alter_eq, Hk. }
  cbn [rows objects stored notified].
  rewrite lookup_alter_eq, Hk. cbn [fmap option_fmap option_map].
  cbn beta iota. rewrite fetch_chunks_status.
  destruct (fetch_chunks' k) as [chunks|e2] eqn:Efetch; cbn beta iota.
  2:{ eexists _, _. split; [reflexivity|]. cbn [rows objects stored notified].
      split_and!; try done.
      - intros j Hj. by rewrite lookup_alter_ne.
      - right. by rewrite lookup_alter_eq, Hk. }
  destruct (embed_and_store_frame (with_status INDEXING k) chunks
              (mkWorld (alter (with_status INDEXING) id m)
                       (alter (with_status INDEXING) id m) st nt))
    as (r & w1 & -> & Hrows & Hobjects & Hnotified & Hstored & _).
  cbn [rows objects stored notified] in *.
  assert (exists more, stored w1 = st ++ more /\ Forall from_k more)
    as Hmore.
  { destruct Hstored as (more & -> & Hall). exists more. split; [done|].
    eapply Forall_impl; [exact Hall|]. intros x Hx.
    by apply (Hfrom chunks). }
  destruct r as [[]|e3]; cbn beta iota.
  2:{ eexists _, _. split; [reflexivity|]. rewrite Hrows.
      split_and!; try done.
      - intros j Hj. by rewrite lookup_alter_ne.
      - right. by rewrite lookup_alter_eq, Hk. }
  rewrite Hobjects.
  destruct (fault (CommitIndexed id)) as [e4|] eqn:E4; cbn beta iota.
  { eexists _, _. split; [reflexivity|]. cbn [rows objects stored notified].
    rewrite Hrows. split_and!; try done.
    - intros j Hj. by rewrite lookup_alter_ne.
    - right. by rewrite lookup_alter_eq, Hk. }
  eexists _, _. split; [reflexivity|]. cbn [rows objects stored notified].
  split_and!; try done.
  - intros j Hj. by rewrite !lookup_alter_ne.
  - by rewrite !lookup_alter_eq, Hk.
Qed.

(** What the body does for a source depends on its row only. *)
Lemma index_source_body_outcome id w k :
  clean w -> rows w !! id = Some k ->
  fst (index_source_body' id w) = body_outcome' id k.
Proof.
  intros Hclean Hk. destruct w as [m o st nt]. unfold clean in Hclean.
  simpl in *. subst o.
  unfold body_outcome, start, index_source_body, commit, load, call, assign,
    Exc.bind, Exc.modify, Exc.lift, set_objects.
  cbn [rows objects stored notified].
  destruct (fault (CommitIndexing id)) as [e1|]; cbn beta iota; [done|].
  cbn [rows objects stored notified].
  destruct (fault (ReloadSource id)) as [e0|]; cbn beta iota; [done|].
  cbn [rows objects stored notified].
  rewrite !lookup_alter_eq, Hk, lookup_singleton_eq.
  cbn [fmap option_fmap option_map]. cbn beta iota.
  destruct (fetch_chunks' (with_status INDEXING k)) as [chunks|e2];
    cbn beta iota; [|done].
  unfold embed_and_store, vector_store_add, call, Exc.bind, Exc.lift,
    Exc.ret, Exc.raise, Exc.modify.
  destruct chunks as [|c chunks]; cbn beta iota.
  { cbn [rows objects stored notified].
    by destruct (fault (CommitIndexed id)). }
  cbn [map].
  destruct (embed _) as [embeddings|e3]; cbn beta iota; [|done].
  destruct (collection_add _ _ _) as [e4|]; cbn beta iota; [done|].
  destruct (fault (PrintIndexed _ _)) as [e5|]; cbn beta iota; [done|].
  cbn [rows objects stored notified].
  by destruct (fault (CommitIndexed id)).
Qed.

(** When the first commit and the reload go through and the fetch
    raises, the body raises the exception of the fetch. *)
Lemma body_outcome_fetch_raises id k (e : Exn) :
  fault (CommitIndexing id) = None ->
  fault (ReloadSource id) = None ->
  fetch_chunks' k = Raise e ->
  body_outcome' id k = Raise e.
Proof.
  intros Hc Hr Hfetch.
  unfold body_outcome, start, index_source_body, commit, load, call, assign,
    Exc.bind, Exc.modify, Exc.lift, set_objects.
  cbn [rows objects stored notified]. rewrite Hc. cbn beta iota.
  cbn [rows objects stored notified]. rewrite Hr. cbn beta iota.
  cbn [rows objects stored notified].
  rewrite lookup_alter_eq, lookup_singleton_eq.
  cbn [fmap option_fmap option_map]. cbn beta iota.
  by rewrite fetch_chunks_status, Hfetch.
Qed.

(** When the calls of the body go through and the chunks fetched are
    embedded and stored, the body returns. *)
Lemma body_outcome_returns id k (chunks : list (Chunker.Chunk Meta)) :
  fault (CommitIndexing id) = None ->
  fault (ReloadSource id) = None ->
  fetch_chunks' k = Ok chunks ->
  stores' chunks ->
  fault (PrintIndexed (length chunks) (value (source_type k))) = None ->
  fault (CommitIndexed id) = None ->
  body_outcome' id k = Ok tt.
Proof.
  intros Hc Hr Hfetch Hstores Hprint Hc'.
  unfold body_outcome, start, index_source_body, commit, load, call, assign,
    Exc.bind, Exc.modify, Exc.lift, set_objects.
  cbn [rows objects stored notified]. rewrite Hc. cbn beta iota.
  cbn [rows objects stored notified]. rewrite Hr. cbn beta iota.
  cbn [rows objects stored notified].
  rewrite lookup_alter_eq, lookup_singleton_eq.
  cbn [fmap option_fmap option_map]. cbn beta iota.
  rewrite fetch_chunks_status, Hfetch. cbn beta iota.
  destruct (embed_and_store_frame (with_status INDEXING k) chunks
              (mkWorld (alter (with_status INDEXING) id {[id := k]})
                       (alter (with_status INDEXING) id {[id := k]}) [] []))
    as (r & w1 & -> & _ & _ & _ & _ & Hok).
  rewrite (Hok Hstores Hprint). cbn beta iota.
  cbn [rows objects stored notified]. by rewrite Hc'.
Qed.

(** What an iteration of the loop makes of the row [k] of its source. *)
Definition processed id k (k' : KnowledgeSource) : Prop :=
  (body_outcome' id k = Ok tt /\ k' = indexed_row' id k)
  \/ exists e,
       body_outcome' id k = Raise e
       /\ (k' = failed_row e k
           \/ (~ records_failure fault id
               /\ (k' = k \/ k' = with_status INDEXING k))).

(** One iteration of the loop touches only the row of its source, posts
    nothing, stores only chunks of its source, and raises only an exception
    of a call that is in no [try]. *)
Lemma index_source_spec id w k :
  clean w -> rows w !! id = Some k ->
  exists r w' k',
    index_source' id w = (r, w')
    /\ notified w' = notified w
    /\ (exists more, stored w' = stored w ++ more
                     /\ Forall (fun x => chunk_of k x) more)
    /\ (forall j, j <> id -> rows w' !! j = rows w !! j)
    /\ rows w' !! id = Some k'
    /\ processed id k k'
    /\ ((r = Ok tt /\ clean w')
        \/ exists e', r = Raise e' /\ escapes fault e').
Proof.
  intros Hclean Hk.
  pose proof (index_source_body_outcome id w k Hclean Hk) as Hout.
  destruct (index_source_body_spec id w k Hclean Hk)
    as (r & w1 & Hbody & Hnotified & Hstored & Hothers & Hrow).
  rewrite Hbody in Hout. simpl in Hout.
  unfold index_source, Exc.try_except. rewrite Hbody.
  destruct r as [[]|e].
  - destruct Hrow as [Hclean1 Hrow]. exists (Ok tt), w1, (indexed_row' id k).
    split_and!; try done; [by left | by left].
  - assert (exists kb, rows w1 !! id = Some kb
                       /\ (kb = k \/ kb = with_status INDEXING k))
      as (kb & Hkb & Hshape)
      by (destruct Hrow as [H|H]; eexists; (split; [exact H|]);
          [by left | by right]).
    destruct (record_failure_spec id e w1 kb Hkb)
      as (r2 & w2 & Hrec & Hnotified2 & Hstored2 & Hothers2 & Hcases).
    rewrite Hrec.
    assert (with_error_message (slice_to 500 (str_of_exn e))
              (with_status FAILED kb) = failed_row e k) as Hfailed
      by (by destruct Hshape as [-> | ->]).
    assert (exists more, stored w2 = stored w ++ more
                         /\ Forall (fun x => chunk_of k x) more) as Hmore
      by (by rewrite Hstored2).
    assert (forall j, j <> id -> rows w2 !! j = rows w !! j) as Hframe.
    { intros j Hj. rewrite Hothers2 by done. by apply Hothers. }
    destruct Hcases as [(-> & Hclean2 & Hrow2)|(Hno & Hrow2 & Hr2)].
    + exists (Ok tt), w2, (failed_row e k).
      split_and!; try done; [congruence | by rewrite Hrow2, Hfailed | |
                             by left].
      right. exists e. split; [done | by left].
    + exists r2, w2, kb. split_and!; try done; [congruence|].
      right. exists e. split; [done|]. right. done.
Qed.

Lemma status_eqb_eq (a b : SourceStatus) : status_eqb a b = true <-> a = b.
Proof. destruct a, b; simpl; split; done. Qed.

Lemma select_In (channel : str) (s : SourceStatus) w id k :
  In (id, k) (select channel s w)
  <-> rows w !! id = Some k /\ channel_id k = channel /\ status k = s.
Proof.
  unfold select. rewrite filter_In, <- list_elem_of_In, elem_of_map_to_list.
  simpl. rewrite andb_true_iff, str_eqb_eq, status_eqb_eq.
  clear. tauto.
Qed.

Lemma NoDup_fst_filter {A B : Type} (f : A * B -> bool) (l : list (A * B)) :
  NoDup (map fst l) -> NoDup (map fst (List.filter f l)).
Proof.
  induction l as [|x l IH]; simpl; [done|].
  intros [Hx Hl]%NoDup_cons. destruct (f x); simpl; [|by apply IH].
  apply NoDup_cons. split; [|by apply IH].
  intros Hin. apply Hx. apply list_elem_of_In, in_map_iff in Hin
    as (y & Hy & Hin).
  apply filter_In in Hin as [Hin _].
  apply list_elem_of_In, in_map_iff. by exists y.
Qed.

Lemma select_NoDup (channel : str) (s : SourceStatus) w :
  NoDup (map fst (select channel s w)).
Proof. apply NoDup_fst_filter, NoDup_fst_map_to_list. Qed.

(** The loop over distinct sources: each source it reaches is processed
    once, from the row it began with; the others keep their rows; and the
    loop ends early only on an exception of a call that is in no [try]. *)
Lemma for_each_source_spec (ids : list str) w :
  NoDup ids -> clean w ->
  (forall id, id ∈ ids -> is_Some (rows w !! id)) ->
  exists r w',
    Exc.for_each ids index_source' w = (r, w')
    /\ notified w' = notified w
    /\ (exists more,
          stored w' = stored w ++ more
          /\ Forall (fun x => exists id k,
                       id ∈ ids /\ rows w !! id = Some k /\ chunk_of k x)
                    more)
    /\ (forall j, j ∉ ids -> rows w' !! j = rows w !! j)
    /\ (forall id k, id ∈ ids -> rows w !! id = Some k ->
          exists k', rows w' !! id = Some k'
                     /\ (k' = k \/ processed id k k'))
    /\ ((r = Ok tt /\ clean w'
         /\ forall id k, id ∈ ids -> rows w !! id = Some k ->
              exists k', rows w' !! id = Some k' /\ processed id k k')
        \/ exists e', r = Raise e' /\ escapes fault e').
Proof.
  revert w. induction ids as [|id ids IH]; intros w Hnd Hclean Hrows.
  { exists (Ok tt), w. split_and!; try done.
    - exists []. by rewrite app_nil_r.
    - intros id k Hid. by apply elem_of_nil in Hid.
    - left. split_and!; try done. intros id k Hid.
      by apply elem_of_nil in Hid. }
  apply NoDup_cons in Hnd as [Hid Hnd].
  destruct (Hrows id ltac:(left)) as [k Hk].
  destruct (index_source_spec id w k Hclean Hk)
    as (r1 & w1 & k1 & Hrun1 & Hnot1 & (more1 & Hst1 & Hall1) & Hothers1
        & Hrow1 & Hproc1 & Hend1).
  assert (forall j, j ∈ ids -> rows w1 !! j = rows w !! j) as Hrest.
  { intros j Hj. apply Hothers1. by intros ->. }
  assert (Forall (fun x => exists j kj,
                    j ∈ id :: ids /\ rows w !! j = Some kj /\ chunk_of kj x)
                 more1) as Hall1'.
  { eapply Forall_impl; [exact Hall1|]. intros x Hx.
    exists id, k. split_and!; [by left | done | done]. }
  simpl. unfold Exc.bind. rewrite Hrun1.
  destruct Hend1 as [[-> Hclean1]|(e' & -> & Hesc)].
  - destruct (IH w1 Hnd Hclean1)
      as (r & w' & Hrun & Hnot & (more & Hst & Hall) & Hothers & Heach
          & Hend).
    { intros j Hj. rewrite Hrest by done. apply Hrows. by right. }
    exists r, w'. split; [done|].
    assert (rows w' !! id = Some k1) as Hrow'
      by (by rewrite Hothers).
    split_and!.
    + congruence.
    + exists (more1 ++ more). split; [by rewrite Hst, Hst1, app_assoc|].
      apply Forall_app. split; [done|].
      eapply Forall_impl; [exact Hall|]. intros x (j & kj & Hj & Hkj & Hx).
      exists j, kj. split_and!; [by right | by rewrite <- Hrest | done].
    + intros j Hj. apply not_elem_of_cons in Hj as [Hne Hj].
      rewrite Hothers by done. by apply Hothers1.
    + intros j kj [->|Hj]%elem_of_cons Hkj.
      * exists k1. split; [done|]. right. congruence.
      * apply Heach; [done|]. by rewrite Hrest.
    + destruct Hend as [(-> & Hclean' & Hall')|Hraise]; [|by right].
      left. split_and!; try done.
      intros j kj [->|Hj]%elem_of_cons Hkj.
      * exists k1. split; [done|]. congruence.
      * apply Hall'; [done|]. by rewrite Hrest.
  - exists (Raise e'), w1. split; [done|]. split_and!; try done.
    + by exists more1.
    + intros j Hj. apply not_elem_of_cons in Hj as [Hne Hj].
      by apply Hothers1.
    + intros j kj [->|Hj]%elem_of_cons Hkj.
      * exists k1. split; [done|]. right. congruence.
      * exists kj. split; [by rewrite Hrest | by left].
    + right. by exists e'.
Qed.

(** What a run leaves behind, whether it returns or raises. *)
Definition run_facts (channel : str) (table : gmap str KnowledgeSource)
    (r : Result unit) w' : Prop :=
  (notified w' = [] \/ notified w' = completion_notice' channel w')
  /\ Forall (fun x => exists id k,
               In (id, k) (pending channel table) /\ chunk_of k x)
            (stored w')
  /\ (forall j, ~ In j (map fst (pending channel table)) ->
                rows w' !! j = table !! j)
  /\ (forall id k, In (id, k) (pending channel table) ->
        exists k', rows w' !! id = Some k' /\ (k' = k \/ processed id k k'))
  /\ ((r = Ok tt
       /\ forall id k, In (id, k) (pending channel table) ->
            exists k', rows w' !! id = Some k' /\ processed id k k')
      \/ exists e', r = Raise e' /\ escapes fault e')
  /\ (r = Ok tt -> (forall sc msg, fault (PostMessage sc msg) = None) ->
      notified w' = completion_notice' channel w').

Lemma completion_notice_rows (channel : str) w w' :
  rows w' = rows w ->
  completion_notice' channel w' = completion_notice' channel w.
Proof. intros H. unfold completion_notice, select. by rewrite H. Qed.

(** A run that ends before the loop begins leaves the table as it was. *)
Lemma run_facts_before (channel : str) (table : gmap str KnowledgeSource)
    (e : Exn) :
  escapes fault e -> run_facts channel table (Raise e) (start' table).
Proof.
  intros Hesc. unfold run_facts. simpl. split_and!; try done.
  - by left.
  - intros id k Hin. apply select_In in Hin as [Hk _]. simpl in Hk.
    exists k. split; [done | by left].
  - right. by exists e.
Qed.

(** The loop went through all the pending sources. *)
Definition loop_done (channel : str) (table : gmap str KnowledgeSource) w1
    : Prop :=
  notified w1 = []
  /\ Forall (fun x => exists id k,
               In (id, k) (pending channel table) /\ chunk_of k x)
            (stored w1)
  /\ (forall j, ~ In j (map fst (pending channel table)) ->
                rows w1 !! j = table !! j)
  /\ (forall id k, In (id, k) (pending channel table) ->
        exists k', rows w1 !! id = Some k' /\ processed id k k').

(** A run that ends after the loop leaves the rows and the store of the
    loop; it has posted nothing, or returned having posted the
    notification. *)
Lemma run_facts_after (channel : str) (table : gmap str KnowledgeSource)
    (r : Result unit) w1 w' :
  loop_done channel table w1 ->
  rows w' = rows w1 ->
  stored w' = stored w1 ->
  ((exists e, r = Raise e /\ escapes fault e /\ notified w' = [])
   \/ (r = Ok tt /\ notified w' = completion_notice' channel w')
   \/ (r = Ok tt /\ notified w' = []
       /\ exists sc msg, fault (PostMessage sc msg) <> None)) ->
  run_facts channel table r w'.
Proof.
  intros (Hnot & Hstored & Hothers & Hall) Hrows Hst Hr.
  unfold run_facts. rewrite Hrows, Hst. split_and!; try done.
  - destruct Hr as [(e & _ & _ & ->)|[(_ & ->)|(_ & -> & _)]];
      [by left | by right | by left].
  - intros id k Hin. destruct (Hall id k Hin) as (k' & Hk' & Hp).
    exists k'. split; [done | by right].
  - destruct Hr as [(e & -> & Hesc & _)|[(-> & _)|(-> & _)]];
      [right; by exists e | by left | by left].
  - intros -> Hpost.
    destruct Hr as [(e & He & _)|[(_ & ->)|(_ & _ & sc & msg & Hf)]];
      [done | done |]. by specialize (Hpost sc msg).
Qed.

(** A run is a few calls, the loop over the pending sources, and at most
    one notification. *)
Lemma index_channel_sources_spec (channel : str)
    (table : gmap str KnowledgeSource) :
  exists r w',
    index_channel_sources' channel (start' table) = (r, w')
    /\ run_facts channel table r w'.
Proof.
  destruct (for_each_source_spec
              (map fst (pending channel table)) (start' table))
    as (r1 & w1 & Hloop & Hnot1 & (more & Hst1 & Hall1) & Hothers1 & Heach1
        & Hend1).
  { apply select_NoDup. }
  { done. }
  { intros id Hid. apply list_elem_of_In, in_map_iff in Hid
      as ([id' k] & <- & Hin).
    apply select_In in Hin as [Hk _]. simpl in *. by rewrite Hk. }
  simpl in Hnot1, Hst1.
  assert (forall id k, In (id, k) (pending channel table) ->
            id ∈ map fst (pending channel table)
            /\ rows (start' table) !! id = Some k) as Hpending.
  { intros id k Hin. split.
    - apply list_elem_of_In, in_map_iff. by exists (id, k).
    - by apply select_In in Hin as [Hk _]. }
  assert (Forall (fun x => exists id k,
                    In (id, k) (pending channel table) /\ chunk_of k x)
                 (stored w1)) as Hstored1.
  { rewrite Hst1. eapply Forall_impl; [exact Hall1|].
    intros x (id & k & Hid & Hk & Hx). exists id, k. split; [|done].
    apply list_elem_of_In, in_map_iff in Hid as ([id' k'] & <- & Hin).
    simpl in *. pose proof Hin as Hin'.
    apply select_In in Hin' as [Hk' _]. simpl in Hk'. congruence. }
  assert (forall j, ~ In j (map fst (pending channel table)) ->
                    rows w1 !! j = table !! j) as Hframe1.
  { intros j Hj. apply Hothers1. intros H. by apply Hj, list_elem_of_In. }
  unfold index_channel_sources, call, Exc.bind, Exc.gets.
  destruct (fault GetDb) as [e|] eqn:E1; cbn beta iota.
  { eexists _, _. split; [reflexivity|]. apply run_facts_before.
    by exists GetDb. }
  destruct (fault NewVectorStore) as [e|] eqn:E2; cbn beta iota.
  { eexists _, _. split; [reflexivity|]. apply run_facts_before.
    by exists NewVectorStore. }
  destruct (fault NewEmbedder) as [e|] eqn:E3; cbn beta iota.
  { eexists _, _. split; [reflexivity|]. apply run_facts_before.
    by exists NewEmbedder. }
  destruct (fault QueryChannel) as [e|] eqn:E4; cbn beta iota.
  { eexists _, _. split; [reflexivity|]. apply run_facts_before.
    by exists QueryChannel. }
  destruct (fault QueryPending) as [e|] eqn:E5; cbn beta iota.
  { eexists _, _. split; [reflexivity|]. apply run_facts_before.
    by exists QueryPending. }
  destruct (fault (PrintIndexing _ _)) as [e|] eqn:E6; cbn beta iota.
  { eexists _, _. split; [reflexivity|]. apply run_facts_before.
    by eexists (PrintIndexing _ _). }
  rewrite Hloop.
  destruct Hend1 as [(-> & Hclean1 & Hdone)|(e' & -> & Hesc)];
    cbn beta iota.
  2:{ eexists _, _. split; [reflexivity|]. unfold run_facts.
      rewrite Hnot1. split_and!; try done.
      - by left.
      - intros id k Hin. destruct (Hpending id k Hin) as [Hid Hk].
        by apply Heach1.
      - right. by exists e'. }
  assert (loop_done channel table w1) as Hloop1.
  { split_and!; try done. intros id k Hin.
    destruct (Hpending id k Hin) as [Hid Hk]. by apply Hdone. }
  destruct (fault (PrintComplete _)) as [e|] eqn:E7; cbn beta iota.
  { eexists _, _. split; [reflexivity|].
    apply (run_facts_after channel table _ w1); try done.
    left. exists e. split_and!; try done. by eexists (PrintComplete _). }
  assert (run_facts channel table (Ok tt) w1
          \/ completion_notice' channel w1 <> []) as Hquiet.
  { destruct (completion_notice' channel w1) eqn:E; [|by right].
    left. apply (run_facts_after channel table _ w1); try done.
    right; left. by rewrite Hnot1. }
  unfold completion_notice in Hquiet.
  destruct (slack_channel_of channel) as [sc|] eqn:Esc.
  2:{ eexists _, _. split; [reflexivity|]. by destruct Hquiet. }
  destruct (nonempty sc) eqn:Ene.
  2:{ eexists _, _. split; [reflexivity|]. by destruct Hquiet. }
  clear Hquiet.
  destruct (fault CountIndexed) as [e|] eqn:E8; cbn beta iota.
  { eexists _, _. split; [reflexivity|].
    apply (run_facts_after channel table _ w1); try done.
    left. exists e. split_and!; try done. by exists CountIndexed. }
  destruct (fault CountFailed) as [e|] eqn:E9; cbn beta iota.
  { eexists _, _. split; [reflexivity|].
    apply (run_facts_after channel table _ w1); try done.
    left. exists e. split_and!; try done. by exists CountFailed. }
  set (message := if length (select channel FAILED w1) =? 0
                  then Ready (length (select channel INDEXED w1))
                  else Mixed (length (select channel INDEXED w1))
                             (length (select channel FAILED w1))).
  assert (exists r w',
            notify_slack fault sc message w1 = (r, w')
            /\ run_facts channel table r w') as (r & w' & Hnotify & Hfacts).
  { unfold notify_slack, call, Exc.try_except, Exc.bind, Exc.modify.
    destruct (fault (PostMessage sc message)) as [e|] eqn:E10;
      cbn beta iota.
    - destruct (fault (PrintNotifyFailed (str_of_exn e))) as [e2|] eqn:E11;
        (eexists _, _; split; [reflexivity|]);
        apply (run_facts_after channel table _ w1); try done.
      + left. exists e2. split_and!; try done.
        by eexists (PrintNotifyFailed _).
      + right; right. split_and!; try done.
        exists sc, message. by rewrite E10.
    - eexists _, _. split; [reflexivity|].
      apply (run_facts_after channel table _ w1); try done.
      right; left. split; [done|]. cbn [notified]. rewrite Hnot1.
      unfold completion_notice, select. cbn [rows].
      by rewrite Esc, Ene. }
  exists r, w'. split; [|done]. rewrite <- Hnotify. unfold message.
  by destruct (_ =? 0).
Qed.

Lemma processed_terminal id k (k' : KnowledgeSource) :
  processed id k k' ->
  terminal k'
  \/ (~ records_failure fault id /\ (k' = k \/ k' = with_status INDEXING k)).
Proof.
  intros [[_ ->]|(e & _ & [->|H])]; [left; by left | left; by right |].
  by right.
Qed.


Lemma select_length_pos (channel : str) (s : SourceStatus) w id k :
  rows w !! id = Some k -> channel_id k = channel -> status k = s ->
  1 <= length (select channel s w).
Proof.
  intros Hk Hc Hs.
  assert (In (id, k) (select channel s w)) as Hin by (by apply select_In).
  destruct (select channel s w); [done | simpl; lia].
Qed.


(** ** The indexing task: what a run leaves behind *)

(** X14: a run raises only the exception of a call that is in no [try];
    whether it returns or raises, it leaves every source that was not
    pending in the channel as it was, and adds none; it posts at most one
    notification, the one for the counts of the channel's [INDEXED] and
    [FAILED] rows when the loop ends; and it posts that one when it
    returns and the Slack client does not raise. *)
Theorem run_is_isolated (channel : str) (table : gmap str KnowledgeSource) :
  let out := index_channel_sources' channel (start' table) in
  (forall e, fst out = Raise e -> escapes fault e)
  /\ (forall j, ~ In j (map fst (pending channel table)) ->
      rows (snd out) !! j = table !! j)
  /\ (notified (snd out) = []
      \/ notified (snd out) = completion_notice' channel (snd out))
  /\ length (notified (snd out)) <= 1
  /\ (fst out = Ok tt ->
      (forall sc msg, fault (PostMessage sc msg) = None) ->
      notified (snd out) = completion_notice' channel (snd out)).
Proof.
  intros out.
  destruct (index_channel_sources_spec channel table)
    as (r & w' & Hrun & Hnot & _ & Hothers & _ & Hend & Hnotice).
  unfold out. rewrite Hrun. cbn [fst snd]. split_and!; try done.
  - intros e ->. destruct Hend as [[He _]|(e' & He' & Hesc)]; [done|].
    by inversion He'; subst e'.
  - destruct Hnot as [-> | ->]; [simpl; lia|].
    unfold completion_notice.
    destruct (slack_channel_of channel) as [sc|]; [|simpl; lia].
    destruct (nonempty sc); simpl; lia.
Qed.


(** X16: everything the run puts in the vector store is the content and the
    metadata of a chunk fetched for a source that was pending in the
    channel. *)
Theorem run_stores_fetched_chunks (channel : str)
    (table : gmap str KnowledgeSource) :
  Forall (fun x : str * Emb * Meta =>
            exists id k, In (id, k) (pending channel table) /\ chunk_of k x)
         (stored (snd (index_channel_sources' channel (start' table)))).
Proof.
  destruct (index_channel_sources_spec channel table)
    as (r & w' & Hrun & _ & Hstored & _).
  by rewrite Hrun.
Qed.

End TasksFacts.

(** ** Indexing task: examples *)

Section TasksExamples.

Import Tasks.

Local Abbreviation start_two := (start (Meta:=unit) (Emb:=nat) two_sources).
Local Abbreviation start_tagged :=
  (start (Meta:=unit) (Emb:=nat) tagged_sources).

Example two_sources_pending :
  select (lit "channel-1") PENDING start_two
  = [(lit "docs-broken", docs_source "https://[broken/docs");
     (lit "docs-site", docs_source "https://ex.com/docs")].
Proof. vm_compute. reflexivity. Qed.

Example tagged_sources_pending :
  select (lit "channel-1") PENDING start_tagged
  = [(lit "docs-broken", docs_source "https://ex.com/docs/[/x]");
     (lit "docs-site", docs_source "https://ex.com/docs")].
Proof. vm_compute. reflexivity. Qed.

Example healthy_run :
  let w' := snd (run_two_sources healthy) in
  fst (run_two_sources healthy) = Ok tt
  /\ (status <$> rows w' !! lit "docs-broken") = Some FAILED
  /\ (status <$> rows w' !! lit "docs-site") = Some INDEXED
  /\ notified w' = [(lit "C0123", Mixed 1 1)].
Proof. vm_compute. done. Qed.





End TasksExamples.

(** * Further properties *)

(** ** Text chunker: what a chunk holds *)

Section ChunkerContents.

Import Chunker.

Context {Meta : Type}.

Implicit Types (metadata : Meta) (c : Chunk Meta).

Lemma flush_chunk (current_chunk : str) metadata c :
  In c (flush current_chunk metadata) ->
  c = mkChunk (strip current_chunk) metadata /\ strip current_chunk <> [].
Proof.
  unfold flush. destruct (nonempty (strip current_chunk)) eqn:E; [|done].
  intros [<-|[]]. split; [done | by apply nonempty_true].
Qed.

Lemma flush_well_formed (current_chunk : str) metadata c :
  In c (flush current_chunk metadata) ->
  content c <> [] /\ strip (content c) = content c /\ Chunker.metadata c = metadata.
Proof.
  intros [-> Hne]%flush_chunk. simpl. split_and!; [done | | done].
  apply strip_idempotent.
Qed.

Lemma split_large_text_well_formed (chunk_size : nat) (text : str)
    metadata c :
  In c (split_large_text chunk_size text metadata) ->
  content c <> [] /\ strip (content c) = content c /\ Chunker.metadata c = metadata.
Proof.
  unfold split_large_text.
  set (Q := fun c : Chunk Meta =>
    content c <> [] /\ strip (content c) = content c
    /\ Chunker.metadata c = metadata).
  assert (forall c', In c' (snd (fold_left (split_step chunk_size metadata)
                                   (sentences text) ([], []))) -> Q c') as H.
  { apply (fold_left_invariant _
             (fun st => forall c', In c' (snd st) -> Q c')).
    - intros ? [].
    - intros [cur out] s _ Hout. unfold split_step.
      destruct (nonempty (strip s)); simpl; [|done].
      destruct (chunk_size <? _); simpl; [|done].
      intros c' [Hc'|Hc']%in_app_iff; [by apply Hout|].
      by eapply flush_well_formed. }
  destruct (fold_left _ _ _) as [cur out]. simpl in H.
  intros [Hc|Hc]%in_app_iff; [by apply H | by eapply flush_well_formed].
Qed.

Lemma chunk_text_chunks (chunk_size chunk_overlap : nat) (text : str)
    metadata c :
  In c (chunk_text chunk_size chunk_overlap text metadata) ->
  content c <> [] /\ strip (content c) = content c /\ Chunker.metadata c = metadata.
Proof.
  unfold chunk_text. destruct (nonempty (strip text)); simpl; [|done].
  set (Q := fun c : Chunk Meta =>
    content c <> [] /\ strip (content c) = content c
    /\ Chunker.metadata c = metadata).
  assert (forall c', In c' (snd (fold_left
                                   (chunk_step chunk_size chunk_overlap metadata)
                                   (paragraphs (strip text)) ([], []))) -> Q c')
    as H.
  { apply (fold_left_invariant _
             (fun st => forall c', In c' (snd st) -> Q c')).
    - intros ? [].
    - intros [cur out] p _ Hout. unfold chunk_step.
      destruct (nonempty (strip p)); simpl; [|done].
      destruct (chunk_size <? length cur + _); simpl; [|done].
      destruct (chunk_size <? _); simpl.
      + intros c' [[Hc'|Hc']%in_app_iff|Hc']%in_app_iff;
          [by apply Hout | by eapply flush_well_formed
           | by eapply split_large_text_well_formed].
      + intros c' [Hc'|Hc']%in_app_iff;
          [by apply Hout | by eapply flush_well_formed]. }
  destruct (fold_left _ _ _) as [cur out]. simpl in H.
  intros [Hc|Hc]%in_app_iff; [by apply H | by eapply flush_well_formed].
Qed.

(** X1: every chunk has content, without blanks at its ends, and the metadata
    the caller gave. *)
Theorem chunk_text_well_formed (chunk_size chunk_overlap : nat) (text : str)
    metadata c :
  In c (chunk_text chunk_size chunk_overlap text metadata) ->
  content c <> [] /\ strip (content c) = content c
  /\ Chunker.metadata c = metadata.
Proof. apply chunk_text_chunks. Qed.

(** *** Nothing is lost *)

Lemma occurs_refl (p : str) : occurs p p.
Proof. exists [], []. by rewrite app_nil_r. Qed.

Lemma occurs_app_l (p s t : str) : occurs p s -> occurs p (s ++ t).
Proof.
  intros (a & b & ->). exists a, (b ++ t). by rewrite <- !app_assoc.
Qed.

Lemma occurs_app_r (p s t : str) : occurs p s -> occurs p (t ++ s).
Proof.
  intros (a & b & ->). exists (t ++ a), b. by rewrite <- !app_assoc.
Qed.

Lemma occurs_not_nil (p s : str) : occurs p s -> p <> [] -> s <> [].
Proof. intros (a & b & ->) Hp. destruct a, p; done. Qed.

Lemma lstrip_keeps (p s : str) :
  occurs p s -> p <> [] -> headed p -> occurs p (lstrip s).
Proof.
  intros (a & b & ->) Hne Hh. induction a as [|c a IH]; simpl.
  - rewrite (headed_app p b Hh Hne). apply (occurs_app_l p p b), occurs_refl.
  - destruct (isspace c); [done|].
    exists (c :: a), b. done.
Qed.

Lemma rstrip_blank_tail (x b : str) :
  rstrip b = [] -> rstrip (x ++ b) = rstrip x.
Proof.
  intros Hb. induction x as [|c x IH]; simpl; [done|]. by rewrite IH.
Qed.

Lemma rstrip_keeps (p s : str) :
  occurs p s -> p <> [] -> tailed p -> occurs p (rstrip s).
Proof.
  intros (a & b & ->) Hne Ht.
  assert (rstrip p <> []) as Hp by (by rewrite Ht).
  rewrite app_assoc. destruct (rstrip b) as [|d r] eqn:Eb.
  - rewrite rstrip_blank_tail by done. rewrite rstrip_app by done.
    rewrite Ht. apply occurs_app_r, occurs_refl.
  - rewrite rstrip_app by (by rewrite Eb). rewrite <- app_assoc.
    by exists a, (rstrip b).
Qed.

Lemma strip_keeps (p s : str) :
  occurs p s -> p <> [] -> headed p -> tailed p -> occurs p (strip s).
Proof.
  intros Ho Hne Hh Ht. unfold strip.
  apply rstrip_keeps; [|done..]. by apply lstrip_keeps.
Qed.

(** What is in the buffer is in the chunk the buffer is flushed as. *)
Lemma flush_keeps (p cur : str) metadata :
  occurs p cur -> p <> [] -> headed p -> tailed p ->
  exists c, In c (flush cur metadata) /\ occurs p (content c).
Proof.
  intros Ho Hne Hh Ht. pose proof (strip_keeps p cur Ho Hne Hh Ht) as Hs.
  exists (mkChunk (strip cur) metadata). split; [|done].
  unfold flush. pose proof (occurs_not_nil _ _ Hs Hne) as Hn.
  apply nonempty_true in Hn. rewrite Hn. by left.
Qed.

(** A fold keeps [I] once it holds, and makes it hold at the element [x]. *)
Lemma fold_left_reaches {A B : Type} (f : A -> B -> A) (I : A -> Prop)
    (x : B) (l : list B) (a : A) :
  (forall a y, I a -> I (f a y)) ->
  (forall a, I (f a x)) ->
  In x l -> I (fold_left f l a).
Proof.
  intros Hkeep Hmake. revert a.
  induction l as [|y l IH]; intros a; [done|].
  assert (forall l' a', I a' -> I (fold_left f l' a')) as Hfold.
  { clear -Hkeep. induction l' as [|z l' IH']; intros a' Ha'; [done|].
    simpl. by apply IH', Hkeep. }
  intros [->|Hin]; simpl; [apply Hfold, Hmake | by apply IH].
Qed.

(** [p] is in the buffer or in a chunk already yielded. *)
Definition held (p : str) (st : str * list (Chunk Meta)) : Prop :=
  occurs p (fst st) \/ exists c, In c (snd st) /\ occurs p (content c).

Lemma held_flush (p cur : str) (out more : list (Chunk Meta)) metadata
    (next : str) :
  p <> [] -> headed p -> tailed p ->
  held p (cur, out) ->
  held p (next, (out ++ flush cur metadata) ++ more).
Proof.
  intros Hne Hh Ht [Hcur|(c & Hc & Ho)]; right; simpl in *.
  - destruct (flush_keeps p cur metadata Hcur Hne Hh Ht) as (c & Hc & Ho).
    exists c. split; [|done]. apply in_app_iff. left.
    apply in_app_iff. by right.
  - exists c. split; [|done]. apply in_app_iff. left.
    apply in_app_iff. by left.
Qed.

Lemma split_step_keeps (chunk_size : nat) metadata (p : str)
    (st : str * list (Chunk Meta)) (sentence : str) :
  p <> [] -> headed p -> tailed p ->
  held p st -> held p (split_step chunk_size metadata st sentence).
Proof.
  intros Hne Hh Ht. destruct st as [cur out]. intros Hheld.
  unfold split_step. destruct (nonempty (strip sentence)); simpl; [|done].
  destruct (chunk_size <? _).
  - rewrite <- (app_nil_r (out ++ flush cur metadata)).
    by apply held_flush.
  - destruct Hheld as [Hcur|Hout]; [left | by right]. simpl in *.
    pose proof (occurs_not_nil _ _ Hcur Hne) as Hn.
    apply nonempty_true in Hn. rewrite Hn. by apply occurs_app_l.
Qed.

Lemma split_step_takes (chunk_size : nat) metadata
    (st : str * list (Chunk Meta)) (sentence : str) :
  strip sentence <> [] ->
  held (strip sentence) (split_step chunk_size metadata st sentence).
Proof.
  intros Hne. destruct st as [cur out]. unfold split_step.
  apply nonempty_true in Hne. rewrite Hne. simpl.
  destruct (chunk_size <? _); left; simpl; [apply occurs_refl|].
  destruct (nonempty cur); [|apply occurs_refl].
  apply occurs_app_r, (occurs_app_r _ _ (lit " ")), occurs_refl.
Qed.

(** Every non-blank sentence of a text that [_split_large_text] splits is
    in one of its chunks. *)
Lemma split_large_text_keeps (chunk_size : nat) (text : str) metadata
    (sentence : str) :
  In sentence (sentences text) -> strip sentence <> [] ->
  exists c, In c (split_large_text chunk_size text metadata)
            /\ occurs (strip sentence) (content c).
Proof.
  intros Hin Hne. unfold split_large_text.
  pose proof (fold_left_reaches (split_step chunk_size metadata)
                (held (strip sentence)) sentence (sentences text) ([], [])
                (fun a y => split_step_keeps chunk_size metadata _ a y Hne
                              (strip_headed _) (strip_tailed _))
                (fun a => split_step_takes chunk_size metadata a sentence Hne)
                Hin) as Hheld.
  destruct (fold_left _ _ _) as [cur out].
  destruct Hheld as [Hcur|(c & Hc & Ho)]; simpl in *.
  - destruct (flush_keeps _ cur metadata Hcur Hne (strip_headed _)
                (strip_tailed _)) as (c & Hc & Ho).
    exists c. split; [|done]. apply in_app_iff. by right.
  - exists c. split; [|done]. apply in_app_iff. by left.
Qed.

Lemma chunk_step_keeps (chunk_size chunk_overlap : nat) metadata (p : str)
    (st : str * list (Chunk Meta)) (paragraph : str) :
  p <> [] -> headed p -> tailed p ->
  held p st ->
  held p (chunk_step chunk_size chunk_overlap metadata st paragraph).
Proof.
  intros Hne Hh Ht. destruct st as [cur out]. intros Hheld.
  unfold chunk_step. destruct (nonempty (strip paragraph)); simpl; [|done].
  destruct (chunk_size <? length cur + _).
  - destruct (chunk_size <? _).
    + by apply held_flush.
    + rewrite <- (app_nil_r (out ++ flush cur metadata)).
      by apply held_flush.
  - destruct Hheld as [Hcur|Hout]; [left | by right]. simpl in *.
    pose proof (occurs_not_nil _ _ Hcur Hne) as Hn.
    apply nonempty_true in Hn. rewrite Hn. by apply occurs_app_l.
Qed.

Lemma chunk_step_takes (chunk_size chunk_overlap : nat) metadata
    (st : str * list (Chunk Meta)) (paragraph : str) :
  strip paragraph <> [] -> length (strip paragraph) <= chunk_size ->
  held (strip paragraph)
       (chunk_step chunk_size chunk_overlap metadata st paragraph).
Proof.
  intros Hne Hfits. destruct st as [cur out]. unfold chunk_step.
  apply nonempty_true in Hne. rewrite Hne. simpl.
  apply Nat.ltb_ge in Hfits. rewrite Hfits.
  destruct (chunk_size <? length cur + _); left; simpl.
  - unfold restart.
    destruct (nonempty (overlap_of chunk_overlap cur)); [|apply occurs_refl].
    apply occurs_app_r, (occurs_app_r _ _ para_sep), occurs_refl.
  - destruct (nonempty cur); [|apply occurs_refl].
    apply occurs_app_r, (occurs_app_r _ _ para_sep), occurs_refl.
Qed.

Lemma chunk_step_takes_sentence (chunk_size chunk_overlap : nat) metadata
    (st : str * list (Chunk Meta)) (paragraph sentence : str) :
  chunk_size < length (strip paragraph) ->
  In sentence (sentences (strip paragraph)) -> strip sentence <> [] ->
  held (strip sentence)
       (chunk_step chunk_size chunk_overlap metadata st paragraph).
Proof.
  intros Hbig Hin Hne. destruct st as [cur out]. unfold chunk_step.
  assert (strip paragraph <> []) as Hp by (destruct (strip paragraph);
    [simpl in Hbig; lia | done]).
  apply nonempty_true in Hp. rewrite Hp. simpl.
  assert ((chunk_size <? length cur + length (strip paragraph)) = true)
    as -> by (apply Nat.ltb_lt; lia).
  apply Nat.ltb_lt in Hbig. rewrite Hbig. right. simpl.
  destruct (split_large_text_keeps chunk_size (strip paragraph) metadata
              sentence Hin Hne) as (c & Hc & Ho).
  exists c. split; [|done]. apply in_app_iff. by right.
Qed.

Lemma held_at_end (p : str) (st : str * list (Chunk Meta)) metadata :
  p <> [] -> headed p -> tailed p -> held p st ->
  exists c, In c (snd st ++ flush (fst st) metadata)
            /\ occurs p (content c).
Proof.
  intros Hne Hh Ht [Hcur|(c & Hc & Ho)].
  - destruct (flush_keeps p _ metadata Hcur Hne Hh Ht) as (c & Hc & Ho).
    exists c. split; [|done]. apply in_app_iff. by right.
  - exists c. split; [|done]. apply in_app_iff. by left.
Qed.

(** X2: no paragraph is lost: a non-blank paragraph that fits in a chunk is,
    trimmed, inside one of the chunks. *)
Theorem chunk_text_keeps_paragraphs (chunk_size chunk_overlap : nat)
    (text : str) metadata (paragraph : str) :
  In paragraph (paragraphs (strip text)) ->
  strip paragraph <> [] ->
  length (strip paragraph) <= chunk_size ->
  exists c, In c (chunk_text chunk_size chunk_overlap text metadata)
            /\ occurs (strip paragraph) (content c).
Proof.
  intros Hin Hne Hfits. unfold chunk_text.
  assert (strip text <> []) as Ht.
  { intros E. rewrite E in Hin. destruct Hin as [<-|[]]. done. }
  apply nonempty_true in Ht. rewrite Ht. cbn [negb].
  pose proof (fold_left_reaches
                (chunk_step chunk_size chunk_overlap metadata)
                (held (strip paragraph)) paragraph
                (paragraphs (strip text)) ([], [])
                (fun a y => chunk_step_keeps chunk_size chunk_overlap
                              metadata _ a y Hne (strip_headed _)
                              (strip_tailed _))
                (fun a => chunk_step_takes chunk_size chunk_overlap metadata
                            a paragraph Hne Hfits)
                Hin) as Hheld.
  destruct (fold_left _ _ _) as [cur out].
  apply (held_at_end _ (cur, out) metadata Hne (strip_headed _)
           (strip_tailed _) Hheld).
Qed.

(** X3: no sentence is lost: a non-blank sentence of a paragraph too long for
    a chunk is, trimmed, inside one of the chunks. *)
Theorem chunk_text_keeps_sentences (chunk_size chunk_overlap : nat)
    (text : str) metadata (paragraph sentence : str) :
  In paragraph (paragraphs (strip text)) ->
  chunk_size < length (strip paragraph) ->
  In sentence (sentences (strip paragraph)) ->
  strip sentence <> [] ->
  exists c, In c (chunk_text chunk_size chunk_overlap text metadata)
            /\ occurs (strip sentence) (content c).
Proof.
  intros Hin Hbig Hs Hne. unfold chunk_text.
  assert (strip text <> []) as Ht.
  { intros E. rewrite E in Hin. destruct Hin as [<-|[]].
    simpl in Hbig. lia. }
  apply nonempty_true in Ht. rewrite Ht. cbn [negb].
  pose proof (fold_left_reaches
                (chunk_step chunk_size chunk_overlap metadata)
                (held (strip sentence)) paragraph
                (paragraphs (strip text)) ([], [])
                (fun a y => chunk_step_keeps chunk_size chunk_overlap
                              metadata _ a y Hne (strip_headed _)
                              (strip_tailed _))
                (fun a => chunk_step_takes_sentence chunk_size chunk_overlap
                            metadata a paragraph sentence Hbig Hs Hne)
                Hin) as Hheld.
  destruct (fold_left _ _ _) as [cur out].
  apply (held_at_end _ (cur, out) metadata Hne (strip_headed _)
           (strip_tailed _) Hheld).
Qed.

End ChunkerContents.

(** ** Text chunker: [chunk_overlap = 0] *)

Section ChunkerZeroOverlap.

Import Chunker.

Context {Meta : Type}.

Implicit Types (metadata : Meta).

Lemma prefix_of_refl (a : str) : prefix_of a a.
Proof. exists []. by rewrite app_nil_r. Qed.

Lemma prefix_of_trans (a b c : str) :
  prefix_of a b -> prefix_of b c -> prefix_of a c.
Proof.
  intros [r ->] [r' ->]. exists (r ++ r'). by rewrite app_assoc.
Qed.

Lemma prefix_of_nil (a : str) : prefix_of [] a.
Proof. by exists a. Qed.

Lemma chain_last (l : list str) (a b : str) :
  chain (l ++ [a]) -> prefix_of a b -> chain (l ++ [b]).
Proof.
  intros Hl Hab. induction l as [|x l IH]; [done|].
  destruct l as [|y l].
  - simpl in *. split; [|done]. eapply prefix_of_trans; [apply Hl | done].
  - destruct Hl as [Hxy Hl]. split; [done|]. by apply IH.
Qed.

Lemma chain_snoc (l : list str) (a b : str) :
  chain (l ++ [a]) -> prefix_of a b -> chain (l ++ [a; b]).
Proof.
  intros Hl Hab. induction l as [|x l IH]; [by split|].
  destruct l as [|y l].
  - simpl in *. by split_and!; [apply Hl | |].
  - destruct Hl as [Hxy Hl]. split; [done|]. by apply IH.
Qed.

(** X4: with [chunk_overlap = 0] the overlap taken is the whole buffer
    ([current_chunk[-0:]]), so the buffer is never cut back: as long as the
    paragraphs fit in a chunk, each chunk starts with the whole of the chunk
    before it. *)
Theorem chunk_text_zero_overlap_cumulative (chunk_size : nat) (text : str)
    metadata :
  Forall (fun p => length (strip p) <= chunk_size)
         (paragraphs (strip text)) ->
  chain (map content (chunk_text chunk_size 0 text metadata)).
Proof.
  intros Hfit. unfold chunk_text.
  destruct (nonempty (strip text)); cbn [negb]; [|done].
  set (I := fun st : str * list (Chunk Meta) =>
    (fst st = [] -> snd st = [])
    /\ (fst st <> [] -> headed (fst st) /\ tailed (fst st))
    /\ chain (map content (snd st) ++ [fst st])).
  assert (I (fold_left (chunk_step chunk_size 0 metadata)
                       (paragraphs (strip text)) ([], []))) as HI.
  { apply fold_left_invariant; [by split_and!|].
    intros [cur out] p Hp (Hnil & Htrim & Hchain). simpl in *.
    apply list_elem_of_In in Hp.
    pose proof (proj1 (Forall_forall _ _) Hfit p Hp) as Hlen.
    simpl in Hlen. unfold chunk_step.
    destruct (nonempty (strip p)) eqn:Ep; cbn [negb]; [|by split_and!].
    apply nonempty_true in Ep.
    assert (prefix_of cur (cur ++ para_sep ++ strip p)) as Hpre
      by (by exists (para_sep ++ strip p)).
    assert (cur <> [] ->
            headed (cur ++ para_sep ++ strip p)
            /\ tailed (cur ++ para_sep ++ strip p)) as Hjoin.
    { intros Hc. destruct (Htrim Hc) as [Hh Ht]. split.
      - by apply headed_app.
      - rewrite app_assoc. apply tailed_app; [apply strip_tailed | done]. }
    destruct (chunk_size <? length cur + length (strip p)) eqn:Ecmp.
    - apply Nat.ltb_lt in Ecmp.
      assert (cur <> []) as Hc by (destruct cur; [simpl in Ecmp; lia | done]).
      destruct (Htrim Hc) as [Hh Ht].
      assert ((chunk_size <? length (strip p)) = false) as ->
        by (apply Nat.ltb_ge; lia).
      assert (restart 0 cur (strip p) = cur ++ para_sep ++ strip p) as ->.
      { unfold restart, overlap_of, slice_last.
        assert ((0 <? length cur) = true) as ->
          by (apply Nat.ltb_lt; destruct cur; [done | simpl; lia]).
        apply nonempty_true in Hc. by rewrite Hc. }
      assert (flush cur metadata = [mkChunk cur metadata]) as ->.
      { unfold flush. rewrite (strip_fixed cur Hh Ht).
        apply nonempty_true in Hc. by rewrite Hc. }
      split_and!; simpl.
      + intros E. by apply app_eq_nil in E as [? _].
      + intros _. by apply Hjoin.
      + rewrite map_app. simpl. rewrite <- app_assoc. simpl.
        by apply chain_snoc.
    - destruct (nonempty cur) eqn:En; simpl.
      + apply nonempty_true in En. split_and!.
        * intros E. by apply app_eq_nil in E as [? _].
        * intros _. by apply Hjoin.
        * by eapply chain_last.
      + apply nonempty_false in En. subst cur.
        rewrite (Hnil eq_refl). split_and!; [done | | done].
        intros _. split; [apply strip_headed | apply strip_tailed]. }
  destruct (fold_left _ _ _) as [cur out].
  destruct HI as (Hnil & Htrim & Hchain). simpl in *.
  destruct (nonempty cur) eqn:En.
  - pose proof En as Hc. apply nonempty_true in Hc.
    destruct (Htrim Hc) as [Hh Ht]. unfold flush.
    rewrite (strip_fixed cur Hh Ht), En, map_app. done.
  - apply nonempty_false in En. subst cur. by rewrite (Hnil eq_refl).
Qed.

End ChunkerZeroOverlap.

(** ** Documentation crawler: what a crawl visits and yields *)

Section CrawlerSoundness.

Import Crawler.

Variable urlparse : str -> option ParseResult.
Variable urljoin : str -> str -> str.
Variable get : str -> Response.
Variable self : DocsCrawler.

Local Abbreviation valid := (is_valid_url urlparse self).
Local Abbreviation links_of := (extract_links urlparse urljoin self).
Local Abbreviation crawl_from := (crawl_recursive urlparse urljoin get).
Local Abbreviation within := (reachable_within urlparse urljoin get self).
Local Abbreviation faithful := (faithful_page urlparse get self).

(** X5: normalizing a URL twice changes nothing more, and a normalized URL
    has no fragment mark and no slash at its end. *)
Theorem normalize_normal (url : str) :
  normalize (normalize url) = normalize url
  /\ ~ In hash (normalize url)
  /\ forall front, normalize url <> front ++ [slash].
Proof.
  split_and!.
  - apply normalize_idempotent.
  - unfold normalize. intros H. apply rstrip_char_In in H.
    by apply split_first_piece in H.
  - intros front. apply rstrip_char_end.
Qed.

(** What a crawl keeps true of the pages it yields. *)
Definition pages_sound (st : CrawlState) : Prop :=
  Forall (fun u => valid u = true) (added st)
  /\ NoDup (map url (pages st))
  /\ Forall (fun p => url p ∈ visited st /\ faithful p) (pages st).

Lemma follow_links_keeps (P : CrawlState -> Prop)
    (recurse : str -> CrawlState -> option CrawlState)
    (links : list str) (st st' : CrawlState) :
  (forall link s s', In link links -> P s -> recurse link s = Some s' ->
                     P s') ->
  P st -> follow_links recurse links st = Some st' -> P st'.
Proof.
  revert st. induction links as [|link rest IH]; intros st Hrec Hst.
  - simpl. by intros [= <-].
  - simpl. destruct (recurse link st) as [s|] eqn:E; [|done].
    apply IH.
    + intros l s0 s1 Hl. apply Hrec. by right.
    + eapply Hrec; [by left | exact Hst | exact E].
Qed.

Lemma crawl_recursive_pages_sound (fuel : nat) (link : str) (depth : nat)
    (st st' : CrawlState) :
  pages_sound st ->
  crawl_from fuel self link depth st = Some st' ->
  pages_sound st'.
Proof.
  revert link depth st st'.
  induction fuel as [|fuel IH]; intros link depth st st' Hst; [done|].
  simpl. destruct (max_depth self <? depth); [by intros [= <-]|].
  destruct (max_pages self <=? size (visited st)); [by intros [= <-]|].
  destruct (bool_decide (normalize link ∈ visited st)) eqn:Eseen;
    [by intros [= <-]|].
  apply bool_decide_eq_false in Eseen.
  destruct (valid (normalize link)) eqn:Evalid; simpl;
    [|by intros [= <-]].
  destruct Hst as (Hvalid & Hnd & Hpages).
  assert (pages_sound (visit (normalize link) st)) as Hvisit.
  { split_and!; simpl.
    - apply Forall_app. split; [done|]. by apply Forall_singleton.
    - done.
    - eapply Forall_impl; [exact Hpages|]. intros p [Hp Hf]. split; [|done].
      apply elem_of_union. by right. }
  destruct (get (normalize link)) as [| |title content hrefs] eqn:Eget;
    [by intros [= <-] | by intros [= <-] |].
  apply follow_links_keeps; [intros l s s' _; apply IH|].
  destruct (nonempty (strip content)) eqn:Etext; [|done].
  destruct Hvisit as (Hvalid1 & Hnd1 & Hpages1). split_and!; simpl.
  - done.
  - rewrite map_app. simpl. apply NoDup_app. split_and!.
    + done.
    + intros u Hu Hu'. apply list_elem_of_singleton in Hu'. subst u.
      apply list_elem_of_In, in_map_iff in Hu as (p & Hp & Hin).
      apply list_elem_of_In in Hin.
      pose proof (proj1 (Forall_forall _ _) Hpages p Hin) as [Hseen _].
      rewrite Hp in Hseen. done.
    + apply NoDup_singleton.
  - apply Forall_app. split; [done|]. apply Forall_singleton. simpl.
    split; [apply elem_of_union; left; by apply elem_of_singleton|].
    split_and!; simpl; [done | by apply nonempty_true | by exists hrefs].
Qed.

Lemma crawl_pages_faithful :
  exists st,
    crawl urlparse urljoin get self = Some st
    /\ Forall faithful (pages st) /\ length (pages st) <= max_pages self.
Proof.
  destruct (crawl_invariant_holds urlparse urljoin get self)
    as (st & Hrun & Hinv).
  exists st. split; [done|].
  assert (pages_sound st) as (Hvalid & Hnd & Hpages).
  { eapply crawl_recursive_pages_sound; [|exact Hrun].
    split_and!; simpl; [apply Forall_nil_2 | apply NoDup_nil_2
                       | apply Forall_nil_2]. }
  split; [eapply Forall_impl; [exact Hpages|]; by intros p [_ Hf]|].
  pose proof (invariant_size self st Hinv) as Hsize.
  destruct Hinv as (Hnd' & Hset & Hmax & _).
  assert ((list_to_set (map url (pages st)) : gset str) ⊆ visited st) as Hsub.
  { intros u Hu. apply elem_of_list_to_set, list_elem_of_In, in_map_iff in Hu
      as (p & <- & Hin).
    apply list_elem_of_In in Hin.
    by apply (proj1 (Forall_forall _ _) Hpages p Hin). }
  apply subseteq_size in Hsub. rewrite size_list_to_set in Hsub by done.
  rewrite length_map in Hsub. lia.
Qed.

(** X6: a crawl yields only pages of in-scope URLs it visited: each one is the
    page fetched at its URL and has text, no URL is yielded twice, and so no
    more than [max_pages] pages are yielded. *)
Theorem crawl_pages_sound :
  exists st,
    crawl urlparse urljoin get self = Some st
    /\ Forall (fun u => valid u = true) (added st)
    /\ NoDup (map url (pages st))
    /\ Forall (fun p => In (url p) (added st) /\ faithful p) (pages st)
    /\ length (pages st) <= max_pages self.
Proof.
  destruct (crawl_invariant_holds urlparse urljoin get self)
    as (st & Hrun & Hinv).
  exists st. split; [done|].
  assert (pages_sound st) as (Hvalid & Hnd & Hpages).
  { eapply crawl_recursive_pages_sound; [|exact Hrun].
    split_and!; simpl; [apply Forall_nil_2 | apply NoDup_nil_2
                       | apply Forall_nil_2]. }
  pose proof (invariant_size self st Hinv) as Hsize.
  destruct Hinv as (Hnd' & Hset & Hmax & _).
  assert (Forall (fun p => In (url p) (added st) /\ faithful p) (pages st))
    as Hpages'.
  { eapply Forall_impl; [exact Hpages|]. intros p [Hp Hf]. split; [|done].
    rewrite Hset in Hp. apply elem_of_list_to_set in Hp.
    by apply list_elem_of_In. }
  split_and!; try done.
  assert ((list_to_set (map url (pages st)) : gset str) ⊆ visited st) as Hsub.
  { intros u Hu. apply elem_of_list_to_set, list_elem_of_In, in_map_iff in Hu
      as (p & <- & Hin).
    apply list_elem_of_In in Hin.
    by apply (proj1 (Forall_forall _ _) Hpages p Hin). }
  apply subseteq_size in Hsub. rewrite size_list_to_set in Hsub by done.
  rewrite length_map in Hsub. lia.
Qed.

(** *** The depth limit *)

Definition near (st : CrawlState) : Prop :=
  forall u, u ∈ visited st ->
            exists n, n <= max_depth self /\ within n u.

Lemma extract_links_all (V : gset str) (u : str) (hrefs : list str)
    (v : str) :
  In v (links_of V u hrefs) -> In v (links_of ∅ u hrefs).
Proof.
  intros H. by apply (extract_links_spec urlparse urljoin self V) in H
    as [H _].
Qed.

Lemma crawl_recursive_near (fuel : nat) (link : str) (depth : nat)
    (st st' : CrawlState) :
  (valid (normalize link) = true -> within depth (normalize link)) ->
  near st ->
  crawl_from fuel self link depth st = Some st' ->
  near st'.
Proof.
  revert link depth st st'.
  induction fuel as [|fuel IH]; intros link depth st st' Hlink Hst; [done|].
  simpl. destruct (max_depth self <? depth) eqn:Edepth;
    [by intros [= <-]|].
  apply Nat.ltb_ge in Edepth.
  destruct (max_pages self <=? size (visited st)); [by intros [= <-]|].
  destruct (bool_decide (normalize link ∈ visited st));
    [by intros [= <-]|].
  destruct (valid (normalize link)) eqn:Evalid; simpl;
    [|by intros [= <-]].
  specialize (Hlink eq_refl).
  assert (near (visit (normalize link) st)) as Hvisit.
  { intros u [Hu|Hu]%elem_of_union; [|by apply Hst].
    apply elem_of_singleton in Hu. subst u. by exists depth. }
  destruct (get (normalize link)) as [| |title content hrefs] eqn:Eget;
    [by intros [= <-] | by intros [= <-] |].
  apply follow_links_keeps.
  - intros l s s' Hl. apply IH. intros _.
    apply extract_links_all in Hl.
    destruct (extract_links_valid urlparse urljoin self _ _ _ Hl)
      as [_ Hnorm].
    rewrite Hnorm, Nat.add_1_r.
    by eapply within_link.
  - by destruct (nonempty (strip content)).
Qed.

(** X7: a crawl visits only pages at most [max_depth] links away from the
    base URL. *)
Theorem crawl_within_depth :
  exists st,
    crawl urlparse urljoin get self = Some st
    /\ forall u, In u (added st) ->
                 exists n, n <= max_depth self /\ within n u.
Proof.
  destruct (crawl_invariant_holds urlparse urljoin get self)
    as (st & Hrun & (_ & Hset & _)).
  exists st. split; [done|]. intros u Hu.
  eapply (crawl_recursive_near _ _ _ initial st); [| |exact Hrun|].
  - intros Hvalid. by apply within_base.
  - intros v Hv. by apply not_elem_of_empty in Hv.
  - rewrite Hset. by apply elem_of_list_to_set, list_elem_of_In.
Qed.

End CrawlerSoundness.

(** ** GitHub fetchers: what is yielded *)

Section GitHubFiles.

Import GitHub.

Variable max_files : nat.
Variable repo : Repo.

(** A step of the fetch appends to what was yielded and keeps [P] of
    every file. *)
Definition grows (P : GitHubFile -> Prop) (st st' : FetchState) : Prop :=
  (exists more, yielded st' = yielded st ++ more)
  /\ (Forall P (yielded st) -> Forall P (yielded st')).

Lemma grows_refl P st : grows P st st.
Proof. split; [exists []; by rewrite app_nil_r | done]. Qed.

Lemma grows_trans P a b c : grows P a b -> grows P b c -> grows P a c.
Proof.
  intros [[m Hb] Hab] [[m' Hc] Hbc]. split; [|by intros H; apply Hbc, Hab].
  exists (m ++ m'). by rewrite Hc, Hb, app_assoc.
Qed.

Lemma str_in_In (x : str) (xs : list str) : str_in x xs = true <-> In x xs.
Proof.
  unfold str_in. rewrite existsb_exists. split.
  - intros (y & Hy & E). apply str_eqb_eq in E. by subst.
  - intros H. exists x. split; [done | by apply str_eqb_eq].
Qed.

Definition well_typed (f : GitHubFile) : Prop :=
  relevant_path (path f) /\ In (file_type f) file_types.

Lemma process_file_grows (cf : ContentFile) (file_type : str)
    (st : FetchState) :
  In file_type file_types ->
  grows well_typed st (process_file cf file_type st).
Proof.
  intros Htype. unfold process_file.
  destruct (size_ceiling <? cf_size cf)%N; [apply grows_refl|].
  destruct (negb _ && negb _) eqn:Efilter; [apply grows_refl|].
  destruct (cf_decoded cf); [|apply grows_refl].
  split; cbn [yielded]; [by eexists|]. intros H. apply Forall_app.
  split; [done|]. apply Forall_singleton. split; [|done].
  apply andb_false_iff in Efilter as [E|E]; apply negb_false_iff in E.
  - by left.
  - right. by apply str_in_In.
Qed.

Lemma walk_grows (recurse : str -> FetchState -> option FetchState)
    (file_type : str) (contents : list ContentFile) (st st' : FetchState) :
  In file_type file_types ->
  (forall path s s', recurse path s = Some s' -> grows well_typed s s') ->
  walk max_files recurse file_type contents st = Some st' ->
  grows well_typed st st'.
Proof.
  intros Htype Hrec. revert st.
  induction contents as [|item rest IH]; intros st; simpl.
  - intros [= <-]. apply grows_refl.
  - destruct (max_files <=? fetched_count st);
      [intros [= <-]; apply grows_refl|].
    destruct (str_eqb (cf_type item) _); cbv iota.
    + destruct (recurse (cf_path item) st) as [s|] eqn:E; [|done].
      intros H. eapply grows_trans; [by eapply Hrec | by apply IH].
    + destruct (str_eqb (cf_type item) _); cbv iota; [|apply IH].
      intros H. eapply grows_trans; [|by apply IH].
      by apply process_file_grows.
Qed.

Lemma fetch_directory_grows (fuel : nat) (path file_type : str)
    (depth : nat) (st st' : FetchState) :
  In file_type file_types ->
  fetch_directory max_files repo fuel path file_type depth st = Some st' ->
  grows well_typed st st'.
Proof.
  intros Htype. revert path depth st st'.
  induction fuel as [|fuel IH]; intros path depth st st'; [done|].
  cbn [fetch_directory]. destruct (_ || _);
    [intros [= <-]; apply grows_refl|].
  destruct (repo path) as [|f|items];
    [intros [= <-]; apply grows_refl | |];
    apply walk_grows; try done; intros p s s'; apply IH.
Qed.

Lemma fetch_priority_grows (files : list str) (st : FetchState) :
  grows well_typed st (fetch_priority max_files repo files st).
Proof.
  revert st. induction files as [|file_path rest IH]; intros st; simpl;
    [apply grows_refl|].
  destruct (max_files <=? fetched_count st); [apply grows_refl|].
  destruct (repo file_path) as [|f|items]; try apply IH.
  eapply grows_trans; [|apply IH].
  apply process_file_grows. by left.
Qed.

Lemma get_file_type_known (dir_path : str) :
  In (get_file_type dir_path) file_types.
Proof.
  unfold get_file_type, file_types.
  repeat match goal with
         | |- context [if ?b then _ else _] => destruct b
         end; simpl; tauto.
Qed.

Lemma fetch_dirs_grows (fuel : nat) (type_of : str -> str)
    (dirs : list str) (st st' : FetchState) :
  (forall d, In (type_of d) file_types) ->
  fetch_dirs max_files repo fuel type_of dirs st = Some st' ->
  grows well_typed st st'.
Proof.
  intros Htype. revert st.
  induction dirs as [|dir_path rest IH]; intros st; cbn [fetch_dirs].
  - intros [= <-]. apply grows_refl.
  - destruct (max_files <=? fetched_count st);
      [intros [= <-]; apply grows_refl|].
    destruct (fetch_directory _ _ _ _ _ _ _) as [s|] eqn:E; [|done].
    intros H. eapply grows_trans; [|by apply IH].
    by eapply fetch_directory_grows.
Qed.

Lemma fetch_from_grows (st st' : FetchState) :
  fetch_from max_files repo 6 st = Some st' ->
  grows well_typed (fetch_priority max_files repo PRIORITY_FILES st) st'.
Proof.
  unfold fetch_from.
  destruct (fetch_dirs _ _ _ get_file_type _ _) as [s|] eqn:E; [|done].
  intros H. eapply grows_trans.
  - eapply fetch_dirs_grows; [apply get_file_type_known | exact E].
  - eapply fetch_dirs_grows; [|exact H]. intros d.
    unfold file_types. simpl. tauto.
Qed.

End GitHubFiles.

Lemma fetch_yields_typed (max_files : nat) (repo : option GitHub.Repo) :
  exists st,
    GitHub.fetch max_files repo = Some st
    /\ Forall (fun f => relevant_path (GitHub.path f)
                        /\ In (GitHub.file_type f) file_types)
              (GitHub.yielded st).
Proof.
  destruct repo as [r|].
  2: { eexists. split; [reflexivity | apply Forall_nil_2]. }
  destruct (fetch_from_invariant max_files r) as (st & Hst & _).
  exists st. split; [done|].
  - pose proof (fetch_from_grows max_files r _ _ Hst) as [_ H].
    apply H.
    apply (proj2 (fetch_priority_grows max_files r GitHub.PRIORITY_FILES
                    (GitHub.mkFetch 0 []))).
    apply Forall_nil_2.
Qed.

(** X10: a repository fetch yields only files that pass the filter of
    [_process_file] (a documentation, code or script extension, or a
    priority path), each with one of the nine file types. *)
Theorem fetch_files_relevant (max_files : nat) (repo : option GitHub.Repo) :
  exists st,
    GitHub.fetch max_files repo = Some st
    /\ Forall (fun f => relevant_path (GitHub.path f)
                        /\ In (GitHub.file_type f) file_types)
              (GitHub.yielded st).
Proof. apply fetch_yields_typed. Qed.

(** X11: when the repository has a [README.md] that is small enough and
    decodes, it is the first file yielded, with the file type [readme]. *)
Theorem fetch_readme_first (max_files : nat) (repo : GitHub.Repo)
    (f : GitHub.ContentFile) (text : str) :
  0 < max_files ->
  repo (lit "README.md") = GitHub.Single f ->
  GitHub.cf_path f = lit "README.md" ->
  (GitHub.cf_size f <= GitHub.size_ceiling)%N ->
  GitHub.cf_decoded f = Some text ->
  exists st rest,
    GitHub.fetch max_files (Some repo) = Some st
    /\ GitHub.yielded st
       = GitHub.mkFile (lit "README.md") text (GitHub.cf_html_url f)
                       (lit "readme") :: rest.
Proof.
  intros Hroom Hrepo Hpath Hsize Hdec.
  destruct (fetch_from_invariant max_files repo) as (st & Hst & _).
  exists st.
  pose proof (fetch_from_grows max_files repo _ _ Hst) as [[more Hmore] _].
  set (first := GitHub.process_file f (lit "readme") (GitHub.mkFetch 0 [])).
  assert (GitHub.yielded first
          = [GitHub.mkFile (lit "README.md") text (GitHub.cf_html_url f)
                           (lit "readme")]) as Hfirst.
  { unfold first, GitHub.process_file.
    apply N.ltb_ge in Hsize. rewrite Hsize, Hpath, Hdec.
    vm_compute. reflexivity. }
  assert (exists more', GitHub.yielded
            (GitHub.fetch_priority max_files repo GitHub.PRIORITY_FILES
               (GitHub.mkFetch 0 []))
          = GitHub.yielded first ++ more') as [more' Hprio].
  { change GitHub.PRIORITY_FILES
      with (lit "README.md" :: tl GitHub.PRIORITY_FILES).
    cbn [GitHub.fetch_priority]. simpl GitHub.fetched_count.
    assert ((max_files <=? 0) = false) as -> by (apply Nat.leb_gt; lia).
    rewrite Hrepo.
    apply (proj1 (fetch_priority_grows max_files repo _ first)). }
  exists (more' ++ more). split; [exact Hst|].
  rewrite Hmore, Hprio, Hfirst. done.
Qed.

(** ** GitHub issues fetcher *)

Section GitHubIssuesFacts.

Import GitHubIssues.

Local Abbreviation not_pr := (fun i => negb (i_pull_request i)).

Lemma fetch_listing_spec (max_issues : nat) (issues : list (Served Issue))
    (st : FetchState) :
  fetched st = length (yielded st) ->
  let next := fetch_listing max_issues issues st in
  yielded (fst next)
  = yielded st
    ++ map process_issue
         (firstn (max_issues - fetched st)
                 (List.filter not_pr (before_fault issues)))
  /\ fetched (fst next) = length (yielded (fst next))
  /\ (snd next = true -> has_fault issues = true)
  /\ (snd next = false -> has_fault issues = true ->
      max_issues <= fetched (fst next)).
Proof.
  revert st. induction issues as [|[issue|] rest IH]; intros st Hst; simpl.
  - rewrite firstn_nil. simpl. rewrite app_nil_r. by split_and!.
  - destruct (max_issues <=? fetched st) eqn:Efull.
    + apply Nat.leb_le in Efull.
      replace (max_issues - fetched st) with 0 by lia. simpl.
      rewrite app_nil_r. split_and!; (done || (intros; lia)).
    + apply Nat.leb_gt in Efull.
      destruct (i_pull_request issue); simpl; [by apply IH|].
      destruct (IH (mkFetch (fetched st + 1)
                      (yielded st ++ [process_issue issue])))
        as (Hy & Hf & Hr & Hb).
      { simpl. rewrite length_app. simpl. lia. }
      simpl in *. split_and!; try done.
      rewrite Hy, <- app_assoc. simpl.
      destruct (max_issues - fetched st) as [|k] eqn:Ek; [lia|].
      simpl. replace (max_issues - (fetched st + 1)) with k by lia. done.
  - rewrite firstn_nil. simpl. rewrite app_nil_r. by split_and!.
Qed.

(** X12: a fetch yields the first [max_issues] of the issues the repository
    serves that are not pull requests, open ones first, each as
    [_process_issue] makes it. *)
Theorem fetch_issues_spec (max_issues : nat) (include_closed : bool)
    (open_issues closed_issues : list (Served Issue)) :
  fetch max_issues include_closed (Some (open_issues, closed_issues))
  = map process_issue
        (firstn max_issues
                (issues_served include_closed open_issues closed_issues)).
Proof.
  unfold fetch, issues_served.
  destruct (fetch_listing_spec max_issues open_issues (mkFetch 0 []) eq_refl)
    as (Hy & Hf & Hr & Hb).
  destruct (fetch_listing max_issues open_issues (mkFetch 0 []))
    as [st raised]. simpl in *. rewrite Nat.sub_0_r in Hy.
  set (A := List.filter not_pr (before_fault open_issues)) in *.
  assert (fetched st = length (firstn max_issues A)) as Hlen
    by (by rewrite Hf, Hy, length_map).
  rewrite length_firstn in Hlen.
  destruct raised.
  - rewrite (Hr eq_refl), andb_false_r, app_nil_r. exact Hy.
  - destruct (has_fault open_issues) eqn:Efault.
    + rewrite andb_false_r, app_nil_r.
      destruct include_closed; [|exact Hy].
      destruct (fetch_listing_spec max_issues closed_issues st Hf)
        as (Hy' & _).
      rewrite Hy'. specialize (Hb eq_refl eq_refl).
      replace (max_issues - fetched st) with 0 by lia.
      simpl. rewrite app_nil_r. exact Hy.
    + rewrite andb_true_r. destruct include_closed;
        [|rewrite app_nil_r; exact Hy].
      destruct (fetch_listing_spec max_issues closed_issues st Hf)
        as (Hy' & _).
      rewrite Hy', Hy, List.filter_app, firstn_app, map_app.
      fold A. replace (max_issues - fetched st)
        with (max_issues - length A) by lia. done.
Qed.

Lemma collect_comments_spec (items : list (Served (option str))) :
  length (collect_comments items) <= length items
  /\ Forall (fun b => b <> []) (collect_comments items)
  /\ forall b, In b (collect_comments items) -> In (Next (Some b)) items.
Proof.
  induction items as [|[[b|]|] rest (Hlen & Hne & Hin)]; simpl.
  - split_and!; [lia | apply Forall_nil_2 | done].
  - destruct (nonempty b) eqn:Eb; simpl.
    + split_and!; [lia | | ].
      * apply Forall_cons. split; [by apply nonempty_true | done].
      * intros b' [<-|H]; [by left | right; by apply Hin].
    + split_and!; [lia | done | intros b' H; right; by apply Hin].
  - split_and!; [lia | done | intros b' H; right; by apply Hin].
  - split_and!; [lia | apply Forall_nil_2 | done].
Qed.

(** X13: an issue is yielded with at most 10 comments, none of them empty,
    each one a comment the repository serves for it. *)
Theorem process_issue_comments (issue : Issue) :
  length (comments (process_issue issue)) <= 10
  /\ Forall (fun b => b <> []) (comments (process_issue issue))
  /\ forall b, In b (comments (process_issue issue)) ->
               In (Next (Some b)) (i_comments issue).
Proof.
  unfold process_issue. simpl.
  destruct (collect_comments_spec (slice_to 10 (i_comments issue)))
    as (Hlen & Hne & Hin).
  unfold slice_to in *. rewrite length_firstn in Hlen.
  split_and!; [lia | done |].
  intros b Hb. apply Hin in Hb.
  rewrite <- (firstn_skipn 10 (i_comments issue)).
  apply in_or_app. by left.
Qed.

End GitHubIssuesFacts.

(** ** Query pipeline: retrieval, context and sources *)

Section PipelineRun.

Import Pipeline.

Context {Vec Dist Score : Type}.

Variable collection_count : nat.
Variable encode_query : str -> Result Vec.
Variable collection_query : Vec -> nat -> Result (@QueryResults Dist).
Variable generate_answer : str -> str -> Result (str * str).
Variable one_minus : Dist -> Score.
Variable below_floor : Score -> bool.

Local Abbreviation answer_question' :=
  (answer_question collection_count encode_query collection_query
                   generate_answer one_minus below_floor).
Local Abbreviation collect' := (collect (Score:=Score) below_floor).
Local Abbreviation retrieved' := (retrieved collection_query one_minus).
Local Abbreviation relevant' := (relevant below_floor).

(** The loop over the results keeps, in order, the contents of the hits
    that are not below the floor. *)
Lemma collect_contents (hits : list Hit) (st : list str * list str) :
  fst (fold_left collect' hits st)
  = fst st ++ map hit_content (relevant' hits).
Proof.
  revert st. induction hits as [|h hits IH]; intros [parts srcs]; simpl.
  - by rewrite app_nil_r.
  - destruct (below_floor (score h)); simpl; [apply IH|].
    rewrite IH. simpl. by rewrite <- app_assoc.
Qed.

(** The sources it collects are distinct, non-empty, and each the source
    of a hit that is not below the floor. *)
Lemma collect_sources (hits : list Hit) (st : list str * list str)
    (P : str -> Prop) :
  NoDup (snd st) -> Forall P (snd st) ->
  (forall h s, In h (relevant' hits) ->
               source_of (hit_metadata h) = Some s -> s <> [] -> P s) ->
  NoDup (snd (fold_left collect' hits st))
  /\ Forall P (snd (fold_left collect' hits st)).
Proof.
  revert st. induction hits as [|h hits IH]; intros [parts srcs] Hnd Hall HP;
    simpl in *; [done|].
  unfold relevant in HP. simpl in HP.
  destruct (below_floor (score h)) eqn:Efloor; simpl in HP;
    [by apply IH|].
  apply IH; simpl.
  - destruct (source_of (hit_metadata h)) as [s|]; [|done].
    destruct (nonempty s && negb (str_in s srcs)) eqn:E; [|done].
    apply andb_true_iff in E as [_ E]. apply negb_true_iff in E.
    apply NoDup_app. split_and!; [done | | apply NoDup_singleton].
    intros x Hx Hx'. apply list_elem_of_singleton in Hx' as ->.
    apply list_elem_of_In in Hx.
    assert (str_in s srcs = true) as E'; [|congruence].
    unfold str_in. apply existsb_exists. exists s.
    split; [done | by apply str_eqb_eq].
  - destruct (source_of (hit_metadata h)) as [s|] eqn:Es; [|done].
    destruct (nonempty s && negb (str_in s srcs)) eqn:E; [|done].
    apply andb_true_iff in E as [E _].
    apply Forall_app. split; [done|]. apply Forall_singleton.
    apply (HP h s); [by left | done | by apply nonempty_true].
  - intros h' s Hh'. apply HP. by right.
Qed.

(** A run on a non-empty index whose query is embedded. *)
Lemma answer_question_run (question : str) (query_embedding : Vec)
    (trace : list Call) :
  collection_count <> 0 ->
  encode_query question = Ok query_embedding ->
  answer_question' question trace
  = let calls := trace ++ retrieval_calls question in
    match retrieved' query_embedding with
    | [] => (Ok not_found, calls)
    | hits =>
        let '(context_parts, sources) := fold_left collect' hits ([], []) in
        match context_parts with
        | [] => (Ok not_relevant, calls)
        | _ =>
            let context := join context_separator context_parts in
            match generate_answer question context with
            | Ok r =>
                (Ok (mkAnswer (fst r) (slice_to 3 sources) (snd r)),
                 calls ++ [GenerateAnswer question context])
            | Raise e =>
                (Raise (Exception (lit "Failed to generate answer: "
                                     ++ str_of_exn e)),
                 calls ++ [GenerateAnswer question context])
            end
        end
    end.
Proof.
  intros Hcount Hembed. apply Nat.eqb_neq in Hcount.
  unfold answer_question, new_embedder, count, embed_query, query, call,
    Exc.try_except, Exc.bind, Exc.modify, Exc.ret, Exc.lift, Exc.raise,
    retrieved, retrieval_calls.
  cbn beta iota. rewrite Hcount, Hembed. cbn beta iota.
  replace ((((trace ++ [LoadModel]) ++ [CollectionCount])
              ++ [EncodeQuery question]) ++ [CollectionQuery 5])
    with (trace ++ [LoadModel; CollectionCount; EncodeQuery question;
                    CollectionQuery 5])
    by (by rewrite <- !app_assoc).
  destruct (collection_query query_embedding 5) as [results|e];
    cbn beta iota; [|done].
  destruct (zip_hits one_minus _ _ _) as [|h hits]; cbn beta iota; [done|].
  destruct (fold_left collect' (h :: hits) ([], [])) as [parts srcs].
  destruct parts as [|p parts]; cbn beta iota; [done|].
  by destruct (generate_answer _ _) as [r|e].
Qed.

(** X17: an answer names at most three sources, all distinct and non-empty,
    each the [url], or else the [file_path], of a retrieved hit whose score
    is not below the floor. *)
Theorem answer_sources_sound (question : str) (trace trace' : list Call)
    (a : Answer) :
  answer_question' question trace = (Ok a, trace') ->
  length (sources a) <= 3
  /\ NoDup (sources a)
  /\ Forall (fun s =>
               s <> []
               /\ exists query_embedding h,
                    encode_query question = Ok query_embedding
                    /\ In h (relevant' (retrieved' query_embedding))
                    /\ source_of (hit_metadata h) = Some s)
            (sources a).
Proof.
  intros Hrun.
  destruct (decide (collection_count = 0)) as [Hzero|Hcount].
  { revert Hrun. unfold answer_question, new_embedder, count, call,
      Exc.bind, Exc.modify, Exc.ret. cbn beta iota. rewrite Hzero.
    simpl. intros [= <- _]. simpl.
    split_and!; [lia | apply NoDup_nil_2 | apply Forall_nil_2]. }
  destruct (encode_query question) as [query_embedding|e] eqn:Hembed.
  2:{ revert Hrun. apply Nat.eqb_neq in Hcount.
      unfold answer_question, new_embedder, count, embed_query, call,
        Exc.bind, Exc.modify, Exc.ret, Exc.lift. cbn beta iota.
      by rewrite Hcount, Hembed. }
  rewrite (answer_question_run question query_embedding trace Hcount Hembed)
    in Hrun. cbn zeta in Hrun.
  destruct (retrieved' query_embedding) as [|h hits] eqn:Ehits.
  { injection Hrun as <- _. simpl.
    split_and!; [lia | apply NoDup_nil_2 | apply Forall_nil_2]. }
  destruct (collect_sources (h :: hits) ([], [])
              (fun s => s <> []
                 /\ exists query_embedding h,
                      encode_query question = Ok query_embedding
                      /\ In h (relevant' (retrieved' query_embedding))
                      /\ source_of (hit_metadata h) = Some s))
    as [Hnd Hall].
  { apply NoDup_nil_2. }
  { apply Forall_nil_2. }
  { intros h' s Hh' Hs Hne. split; [done|].
    exists query_embedding, h'. rewrite Ehits. by split_and!. }
  destruct (fold_left collect' (h :: hits) ([], [])) as [parts srcs].
  simpl in Hnd, Hall.
  destruct parts as [|p parts].
  { injection Hrun as <- _. simpl.
    split_and!; [lia | apply NoDup_nil_2 | apply Forall_nil_2]. }
  destruct (generate_answer _ _) as [r|e]; [|done].
  injection Hrun as <- _. cbn [sources]. unfold slice_to.
  split_and!.
  - rewrite length_firstn. lia.
  - rewrite <- (firstn_skipn 3 srcs) in Hnd.
    by apply NoDup_app in Hnd as [Hnd _].
  - rewrite <- (firstn_skipn 3 srcs) in Hall.
    apply Forall_app in Hall as [Hall _]. by rewrite Hembed in Hall.
Qed.

(** X18: when some retrieved hit is not below the floor, the model is asked
    with the contents of those hits, in the order retrieved, joined by the
    separator; what it returns becomes the answer and the confidence. *)
Theorem answer_from_relevant_hits (question : str) (query_embedding : Vec)
    (trace : list Call) (text level : str) :
  collection_count <> 0 ->
  encode_query question = Ok query_embedding ->
  relevant' (retrieved' query_embedding) <> [] ->
  let context :=
    join context_separator
         (map hit_content (relevant' (retrieved' query_embedding))) in
  generate_answer question context = Ok (text, level) ->
  exists a,
    answer_question' question trace
    = (Ok a, trace ++ retrieval_calls question
               ++ [GenerateAnswer question context])
    /\ answer a = text
    /\ confidence a = level.
Proof.
  intros Hcount Hembed Hrel context Hgen.
  rewrite (answer_question_run question query_embedding trace Hcount Hembed).
  cbn zeta.
  destruct (retrieved' query_embedding) as [|h hits] eqn:Ehits; [done|].
  pose proof (collect_contents (h :: hits) ([], [])) as Hparts.
  destruct (fold_left collect' (h :: hits) ([], [])) as [parts srcs].
  simpl fst in Hparts. rewrite app_nil_l in Hparts. subst parts.
  destruct (map hit_content (relevant' (h :: hits))) as [|p parts] eqn:Emap.
  { apply map_eq_nil in Emap. done. }
  fold context. rewrite Hgen. eexists. rewrite <- app_assoc.
  split; [reflexivity|]. done.
Qed.



(** X21: when the embedding of the question raises, the question raises the
    same exception, after the count and before any query. *)
Theorem embedding_failure_propagates (question : str) (trace : list Call)
    (e : Exn) :
  collection_count <> 0 ->
  encode_query question = Raise e ->
  answer_question' question trace
  = (Raise e, trace ++ [LoadModel; CollectionCount; EncodeQuery question]).
Proof.
  intros Hcount Hembed. apply Nat.eqb_neq in Hcount.
  unfold answer_question, new_embedder, count, embed_query, call,
    Exc.bind, Exc.modify, Exc.ret, Exc.lift. cbn beta iota.
  rewrite Hcount, Hembed. by rewrite <- !app_assoc.
Qed.

End PipelineRun.

(** ** Answer generation: reading the confidence marker *)

Section LLMFacts.

Import LLM.

Lemma contains_skip (pre t m : str) :
  bracket_free pre ->
  contains (pre ++ t) ("["%char :: m) = contains t ("["%char :: m).
Proof.
  induction 1 as [|c pre Hc _ IH]; [done|].
  cbn [app contains startswith]. rewrite IH.
  destruct (Ascii.eqb_spec "["%char c) as [<-|_]; [done|]. done.
Qed.

Lemma replace_skip (pre t m new : str) :
  bracket_free pre ->
  replace_from ("["%char :: m) new 0 (pre ++ t)
  = pre ++ replace_from ("["%char :: m) new 0 t.
Proof.
  induction 1 as [|c pre Hc _ IH]; [done|].
  cbn [app replace_from startswith]. rewrite IH.
  destruct (Ascii.eqb_spec "["%char c) as [<-|_]; [done|]. done.
Qed.

Lemma blank_bracket_free (ws : str) : blank ws -> bracket_free ws.
Proof.
  unfold blank, bracket_free. intros H.
  eapply Forall_impl; [exact H|]. by intros c Hc ->.
Qed.

Lemma lstrip_blank (ws t : str) : blank ws -> lstrip (ws ++ t) = lstrip t.
Proof. induction 1 as [|c ws Hc _ IH]; [done|]. simpl. by rewrite Hc. Qed.

Lemma rstrip_blank (ws : str) : blank ws -> rstrip ws = [].
Proof.
  induction 1 as [|c ws Hc _ IH]; [done|]. simpl. by rewrite IH, Hc.
Qed.

(** X22: the response the prompt asks for is read back: a trimmed answer with
    no opening bracket, blanks, and one of the three markers give that
    answer and the marker's confidence. *)
Theorem extract_confidence_reads_marker (body ws marker level : str) :
  In (marker, level) confidence_markers ->
  bracket_free body -> strip body = body -> blank ws ->
  extract_confidence (body ++ ws ++ marker) = (body, level).
Proof.
  intros Hmarker Hfree Hbody Hws.
  assert (headed body /\ tailed body) as [Hh Ht].
  { rewrite <- Hbody. split; [apply strip_headed | apply strip_tailed]. }
  set (pre := match body with [] => [] | _ => body ++ ws end).
  assert (body = [] /\ pre = [] \/ body <> [] /\ pre = body ++ ws)
    as Hcases by (unfold pre; destruct body; [by left | by right]).
  clearbody pre.
  assert (bracket_free pre) as Hpre.
  { destruct Hcases as [[_ ->]|[_ ->]]; [apply Forall_nil_2|].
    apply Forall_app. split; [done | by apply blank_bracket_free]. }
  assert (strip pre = body) as Hstrip.
  { destruct Hcases as [[-> ->]|[Hne ->]]; [done|].
    unfold strip. rewrite (headed_app body ws Hh Hne).
    rewrite rstrip_blank_tail by (by apply rstrip_blank). exact Ht. }
  assert (forall m, rstrip m = m -> lstrip m = m -> m <> [] ->
                    strip (body ++ ws ++ m) = pre ++ m) as Hfull.
  { intros m Hm Hm' Hm''. unfold strip.
    destruct Hcases as [[-> ->]|[Hne ->]].
    - simpl. rewrite lstrip_blank, Hm', Hm by done. done.
    - rewrite (headed_app body (ws ++ m) Hh Hne).
      rewrite app_assoc, rstrip_app by (by rewrite Hm). by rewrite Hm. }
  unfold extract_confidence.
  destruct Hmarker as [[= <- <-]|[[= <- <-]|[[= <- <-]|[]]]];
    rewrite Hfull by (vm_compute; congruence);
    change (lit "[CONFIDENCE:HIGH]")
      with ("["%char :: lit "CONFIDENCE:HIGH]");
    change (lit "[CONFIDENCE:MEDIUM]")
      with ("["%char :: lit "CONFIDENCE:MEDIUM]");
    change (lit "[CONFIDENCE:LOW]")
      with ("["%char :: lit "CONFIDENCE:LOW]");
    unfold replace; rewrite !contains_skip, ?replace_skip by done.
  - replace (contains ("["%char :: lit "CONFIDENCE:HIGH]")
               ("["%char :: lit "CONFIDENCE:HIGH]")) with true
      by (vm_compute; reflexivity).
    replace (replace_from ("["%char :: lit "CONFIDENCE:HIGH]") [] 0
               ("["%char :: lit "CONFIDENCE:HIGH]")) with (@nil ascii)
      by (vm_compute; reflexivity).
    by rewrite app_nil_r, Hstrip.
  - replace (contains ("["%char :: lit "CONFIDENCE:MEDIUM]")
               ("["%char :: lit "CONFIDENCE:HIGH]")) with false
      by (vm_compute; reflexivity).
    replace (contains ("["%char :: lit "CONFIDENCE:MEDIUM]")
               ("["%char :: lit "CONFIDENCE:MEDIUM]")) with true
      by (vm_compute; reflexivity).
    replace (replace_from ("["%char :: lit "CONFIDENCE:MEDIUM]") [] 0
               ("["%char :: lit "CONFIDENCE:MEDIUM]")) with (@nil ascii)
      by (vm_compute; reflexivity).
    by rewrite app_nil_r, Hstrip.
  - replace (contains ("["%char :: lit "CONFIDENCE:LOW]")
               ("["%char :: lit "CONFIDENCE:HIGH]")) with false
      by (vm_compute; reflexivity).
    replace (contains ("["%char :: lit "CONFIDENCE:LOW]")
               ("["%char :: lit "CONFIDENCE:MEDIUM]")) with false
      by (vm_compute; reflexivity).
    replace (contains ("["%char :: lit "CONFIDENCE:LOW]")
               ("["%char :: lit "CONFIDENCE:LOW]")) with true
      by (vm_compute; reflexivity).
    replace (replace_from ("["%char :: lit "CONFIDENCE:LOW]") [] 0
               ("["%char :: lit "CONFIDENCE:LOW]")) with (@nil ascii)
      by (vm_compute; reflexivity).
    by rewrite app_nil_r, Hstrip.
Qed.

(** X23: the answer is always trimmed and the confidence is one of three
    words: [high] exactly when the trimmed response holds the HIGH marker,
    whatever else it holds; [low] only when it holds the LOW marker and
    neither of the others; [medium] otherwise, also when it holds no
    marker at all, in which case the answer is the trimmed response. *)
Theorem extract_confidence_levels (text : str) :
  let r := extract_confidence text in
  let holds := contains (strip text) in
  strip (fst r) = fst r
  /\ (snd r = lit "high" <-> holds (lit "[CONFIDENCE:HIGH]") = true)
  /\ (snd r = lit "low" <->
      holds (lit "[CONFIDENCE:HIGH]") = false
      /\ holds (lit "[CONFIDENCE:MEDIUM]") = false
      /\ holds (lit "[CONFIDENCE:LOW]") = true)
  /\ (snd r <> lit "high" -> snd r <> lit "low" -> snd r = lit "medium")
  /\ (holds (lit "[CONFIDENCE:HIGH]") = false ->
      holds (lit "[CONFIDENCE:MEDIUM]") = false ->
      holds (lit "[CONFIDENCE:LOW]") = false ->
      r = (strip text, lit "medium")).
Proof.
  intros r holds. unfold r, holds, extract_confidence.
  destruct (contains (strip text) (lit "[CONFIDENCE:HIGH]"));
    [|destruct (contains (strip text) (lit "[CONFIDENCE:MEDIUM]"));
      [|destruct (contains (strip text) (lit "[CONFIDENCE:LOW]"))]];
    cbn [fst snd]; rewrite ?strip_idempotent;
    (split_and!; [done | split | split | |]); try done;
    try (by intros []); try (by intros (? & ? & ?)); try (by intros ?).
Qed.

End LLMFacts.

(** ** Slack history: what is yielded, and how it is grouped *)

Section SlackHistoryFacts.

Import SlackHistory.

Variable channel_id : str.
Variable conversations_info : Served unit.
Variable conversations_history : option str -> Served Page.
Variable conversations_replies : str -> Served (list Raw).

Local Abbreviation as_message' := (as_message channel_id).
Local Abbreviation fetch_thread' :=
  (fetch_thread channel_id conversations_replies).
Local Abbreviation page_messages' :=
  (page_messages channel_id conversations_replies).
Local Abbreviation fetch_pages' :=
  (fetch_pages channel_id conversations_history conversations_replies).
Local Abbreviation fetch' :=
  (fetch channel_id conversations_info conversations_history
         conversations_replies).

Lemma as_message_spec (t : option str) (raw : Raw) (m : SlackMessage) :
  as_message' t raw = Some m ->
  message_of channel_id t raw m
  /\ strip (text m) = text m /\ 10 <= length (text m).
Proof.
  unfold as_message, message_of.
  destruct (truthy (r_subtype raw)); [done|].
  destruct (negb _ || _) eqn:E; [done|].
  apply orb_false_iff in E as [_ E]. apply Nat.ltb_ge in E.
  intros [= <-]. simpl. split_and!; try done. apply strip_idempotent.
Qed.

(** A message is yielded from a page of the history the client served
    or, under the timestamp of its parent, from the replies of a thread,
    the first one apart. *)
Definition served_raw (raw : Raw) : Prop :=
  exists cursor response,
    conversations_history cursor = Next response
    /\ In raw (messages response).

Definition yielded_from (m : SlackMessage) : Prop :=
  (exists raw,
     served_raw raw /\ message_of channel_id (r_thread_ts raw) raw m)
  \/ (exists parent replies raw,
        conversations_replies parent = Next replies
        /\ In raw (skipn 1 replies)
        /\ message_of channel_id (Some parent) raw m).

Definition sound (m : SlackMessage) : Prop :=
  strip (text m) = text m /\ 10 <= length (text m) /\ yielded_from m.

Lemma fetch_thread_sound (parent : str) :
  Forall sound (fetch_thread' parent).
Proof.
  unfold fetch_thread.
  destruct (conversations_replies parent) as [replies|] eqn:E;
    [|apply Forall_nil_2].
  apply Forall_forall. intros m Hm.
  apply list_elem_of_omap in Hm as (raw & Hraw & Hm).
  apply as_message_spec in Hm as (Hof & Hs & Hl).
  split_and!; [done..|]. right. exists parent, replies, raw.
  split_and!; [done | by apply list_elem_of_In | done].
Qed.

Lemma page_messages_sound (page : list Raw) :
  (forall raw, In raw page -> served_raw raw) ->
  Forall sound (page_messages' page).
Proof.
  induction page as [|raw rest IH]; intros Hserved; simpl;
    [apply Forall_nil_2|].
  assert (Forall sound (page_messages' rest)) as Hrest
    by (apply IH; intros r Hr; apply Hserved; by right).
  destruct (as_message' (r_thread_ts raw) raw) as [m|] eqn:E; [|done].
  apply as_message_spec in E as (Hof & Hs & Hl).
  apply Forall_cons. split.
  - split_and!; [done..|]. left. exists raw. split; [|done].
    apply Hserved. by left.
  - apply Forall_app. split; [|done].
    destruct (_ && _); [apply fetch_thread_sound | apply Forall_nil_2].
Qed.

Lemma fetch_pages_sound (rounds : nat) (cursor : option str) :
  Forall sound (fetch_pages' rounds cursor).
Proof.
  revert cursor. induction rounds as [|rounds IH]; intros cursor; simpl;
    [apply Forall_nil_2|].
  destruct (conversations_history cursor) as [response|] eqn:E;
    [|apply Forall_nil_2].
  apply Forall_app. split.
  - apply page_messages_sound. intros raw Hraw. by exists cursor, response.
  - destruct (truthy _); [apply IH | apply Forall_nil_2].
Qed.

End SlackHistoryFacts.

(** X24: whatever the Slack client gives, a yielded message has a trimmed
    text of at least 10 characters and is made from a raw message without
    subtype: either a message of a page of the history that the client
    served, with the [thread_ts] of that raw message, or a reply the
    client served for a thread, the first reply apart, with the timestamp
    of the parent; its link is to its own timestamp without the dots. *)
Theorem fetch_messages_sound (channel_id : str)
    (conversations_info : Served unit)
    (conversations_history : option str -> Served SlackHistory.Page)
    (conversations_replies : str -> Served (list SlackHistory.Raw))
    (rounds : nat) :
  Forall (fun m =>
            strip (SlackHistory.text m) = SlackHistory.text m
            /\ 10 <= length (SlackHistory.text m)
            /\ ((exists raw,
                   (exists cursor response,
                      conversations_history cursor = Next response
                      /\ In raw (SlackHistory.messages response))
                   /\ message_of channel_id (SlackHistory.r_thread_ts raw)
                                 raw m)
                \/ (exists parent replies raw,
                      conversations_replies parent = Next replies
                      /\ In raw (skipn 1 replies)
                      /\ message_of channel_id (Some parent) raw m)))
         (SlackHistory.fetch channel_id conversations_info
            conversations_history conversations_replies rounds).
Proof.
  unfold SlackHistory.fetch. destruct conversations_info;
    [|apply Forall_nil_2].
  apply (fetch_pages_sound channel_id conversations_history
           conversations_replies rounds None).
Qed.

Section Grouping.

Import SlackHistory Indexing.

Lemma conversations_head (m : SlackMessage) (rest : list SlackMessage) :
  exists g gs, conversations (m :: rest) = (m :: g) :: gs.
Proof.
  simpl. destruct (conversations rest) as [|[|m' g] gs]; [by eexists _, _..|].
  destruct (bool_decide _); by eexists _, _.
Qed.

Lemma conversations_run (t : option str) (cur : list SlackMessage) :
  cur <> [] -> in_thread t cur -> conversations cur = [cur].
Proof.
  induction cur as [|a cur IH]; [done|]. intros _ Hall.
  apply Forall_cons in Hall as [Ha Hall].
  destruct cur as [|b cur]; [done|].
  change (conversations (a :: b :: cur))
    with (match conversations (b :: cur) with
          | (m' :: g) :: gs =>
              if bool_decide (thread_ts a = thread_ts m')
              then (a :: m' :: g) :: gs else [a] :: (m' :: g) :: gs
          | _ => [[a]]
          end).
  rewrite IH by done.
  apply Forall_cons in Hall as [Hb _].
  by rewrite bool_decide_eq_true_2 by congruence.
Qed.

Lemma conversations_cut (t : option str) (cur : list SlackMessage)
    (m : SlackMessage) (rest : list SlackMessage) :
  cur <> [] -> in_thread t cur -> thread_ts m <> t ->
  conversations (cur ++ m :: rest) = cur :: conversations (m :: rest).
Proof.
  intros Hne Hall Hm.
  destruct (conversations_head m rest) as (g & gs & Hhead).
  induction cur as [|a cur IH]; [done|].
  apply Forall_cons in Hall as [Ha Hall].
  destruct cur as [|b cur].
  - simpl app.
    change (conversations (a :: m :: rest))
      with (match conversations (m :: rest) with
            | (m' :: g) :: gs =>
                if bool_decide (thread_ts a = thread_ts m')
                then (a :: m' :: g) :: gs else [a] :: (m' :: g) :: gs
            | _ => [[a]]
            end).
    rewrite Hhead. by rewrite bool_decide_eq_false_2 by congruence.
  - change (conversations ((a :: b :: cur) ++ m :: rest))
      with (match conversations ((b :: cur) ++ m :: rest) with
            | (m' :: g) :: gs =>
                if bool_decide (thread_ts a = thread_ts m')
                then (a :: m' :: g) :: gs else [a] :: (m' :: g) :: gs
            | _ => [[a]]
            end).
    rewrite IH by done.
    apply Forall_cons in Hall as [Hb _].
    by rewrite bool_decide_eq_true_2 by congruence.
Qed.

Lemma group_steps (messages : list SlackMessage)
    (chunks : list (Chunker.Chunk Meta)) (cur : list SlackMessage)
    (last : option str) :
  in_thread last cur ->
  (let '(chunks', cur', _) :=
     fold_left group_step messages (chunks, cur, last) in
   chunks' ++ flush_conversation cur')
  = chunks ++ flat_map flush_conversation (conversations (cur ++ messages)).
Proof.
  revert chunks cur last.
  induction messages as [|m rest IH]; intros chunks cur last Hcur.
  - simpl. rewrite app_nil_r. destruct cur as [|a cur]; [done|].
    rewrite (conversations_run last) by done. simpl. by rewrite app_nil_r.
  - cbn [fold_left group_step].
    destruct (bool_decide (thread_ts m = last)) eqn:Esame; cbn [negb andb].
    + apply bool_decide_eq_true in Esame.
      rewrite IH.
      * by rewrite <- app_assoc.
      * apply Forall_app. split; [|by apply Forall_singleton].
        eapply Forall_impl; [exact Hcur|]. simpl. congruence.
    + apply bool_decide_eq_false in Esame.
      destruct cur as [|a cur].
      * rewrite IH by (by apply Forall_singleton). done.
      * rewrite IH by (by apply Forall_singleton).
        rewrite (conversations_cut last) by done.
        simpl flat_map. by rewrite <- !app_assoc.
Qed.

Lemma conversations_concat (messages : list SlackMessage) :
  concat (conversations messages) = messages.
Proof.
  induction messages as [|m rest IH]; [done|].
  destruct rest as [|m' rest]; [done|].
  destruct (conversations_head m' rest) as (g & gs & Hhead).
  change (conversations (m :: m' :: rest))
    with (match conversations (m' :: rest) with
          | (x :: g) :: gs =>
              if bool_decide (thread_ts m = thread_ts x)
              then (m :: x :: g) :: gs else [m] :: (x :: g) :: gs
          | _ => [[m]]
          end).
  rewrite Hhead in *.
  destruct (bool_decide _); simpl in *; by rewrite <- IH.
Qed.

Lemma conversations_groups (messages : list SlackMessage) :
  Forall (fun g => exists m, In m g /\ in_thread (thread_ts m) g)
         (conversations messages)
  /\ separated (conversations messages).
Proof.
  induction messages as [|m rest [IH IHsep]]; simpl;
    [split; [apply Forall_nil_2 | done]|].
  destruct (conversations rest) as [|[|m' g] gs] eqn:E.
  - split; [|done]. apply Forall_singleton. exists m.
    split; [by left | by apply Forall_singleton].
  - apply Forall_cons in IH as [(x & [] & _) _].
  - apply Forall_cons in IH as [(x & Hx & Hall) IH].
    assert (in_thread (thread_ts m') (m' :: g)) as Hall'.
    { assert (thread_ts m' = thread_ts x) as ->; [|done].
      by apply (proj1 (Forall_forall _ _) Hall m'), list_elem_of_In; left. }
    destruct (bool_decide (thread_ts m = thread_ts m')) eqn:Esame.
    + apply bool_decide_eq_true in Esame. split.
      * apply Forall_cons. split; [|done]. exists m. split; [by left|].
        apply Forall_cons. split; [done|]. by rewrite Esame.
      * destruct gs as [|g' gs']; [done|].
        destruct IHsep as [Hsep IHsep]. split; [|done].
        intros a b [<-|Ha] Hb; [|by apply Hsep].
        rewrite Esame. apply Hsep; [by left | done].
    + apply bool_decide_eq_false in Esame. split.
      * apply Forall_cons. split.
        -- exists m. split; [by left | by apply Forall_singleton].
        -- apply Forall_cons. split; [by exists x | done].
      * split; [|done]. intros a b [<-|[]] Hb.
        apply list_elem_of_In in Hb.
        rewrite (proj1 (Forall_forall _ _) Hall' b Hb). done.
Qed.

(** X25: the history is chunked conversation by conversation: consecutive
    messages are joined, one per line, exactly while their [thread_ts] is
    the same, and the chunks of a conversation carry the link of its first
    message.  So a reply fetched through its thread is never joined with
    its parent, which has no [thread_ts]. *)
Theorem index_slack_history_by_conversation (messages : list SlackMessage) :
  index_slack_history messages
  = flat_map flush_conversation (conversations messages)
  /\ concat (conversations messages) = messages
  /\ Forall (fun g => exists m, In m g /\ in_thread (thread_ts m) g)
            (conversations messages)
  /\ separated (conversations messages).
Proof.
  split_and!.
  - unfold index_slack_history.
    apply (group_steps messages [] [] None). apply Forall_nil_2.
  - apply conversations_concat.
  - apply conversations_groups.
  - apply conversations_groups.
Qed.

End Grouping.
(** ** Fetch-and-chunk functions: where a chunk comes from *)

Section IndexingFacts.

Import Indexing.

Lemma chunk_sound (text : str) (metadata : Meta) (c : Chunker.Chunk Meta) :
  In c (chunk text metadata) ->
  Chunker.content c <> []
  /\ strip (Chunker.content c) = Chunker.content c
  /\ Chunker.metadata c = metadata.
Proof. apply chunk_text_chunks. Qed.

(** A loop that appends the chunks of each item gives the chunks of the
    items, in the order of the items. *)
Lemma fold_left_append {A B : Type} (f : A -> list B) (items : list A)
    (acc : list B) :
  fold_left (fun chunks item => chunks ++ f item) items acc
  = acc ++ flat_map f items.
Proof.
  revert acc. induction items as [|item items IH]; intros acc; simpl.
  - by rewrite app_nil_r.
  - by rewrite IH, app_assoc.
Qed.

(** X26: the chunks that the loop of [_index_documentation] gathers from
    the pages the crawl yields are the chunks of the content of each page,
    page after page; each has trimmed, non-empty content and the metadata
    of the page it was cut from, which holds the source type
    [documentation], the URL and the title of that page. *)
Theorem index_documentation_chunks (pages : list Crawler.CrawledPage) :
  index_documentation pages
  = flat_map (fun page =>
                Chunker.chunk_text 1000 200 (Crawler.content page)
                                   (documentation_metadata page))
             pages
  /\ Forall (fun c =>
               Chunker.content c <> []
               /\ strip (Chunker.content c) = Chunker.content c
               /\ exists page,
                    In page pages
                    /\ In c (Chunker.chunk_text 1000 200
                               (Crawler.content page)
                               (documentation_metadata page))
                    /\ Chunker.metadata c !! "source_type"%string
                       = Some (lit "documentation")
                    /\ Chunker.metadata c !! "url"%string
                       = Some (Crawler.url page)
                    /\ Chunker.metadata c !! "title"%string
                       = Some (Crawler.title page)
                    /\ dom (Chunker.metadata c)
                       = {["source_type"; "url"; "title"]}%string)
            (index_documentation pages).
Proof.
  assert (index_documentation pages
          = flat_map (fun page => chunk (Crawler.content page)
                                        (documentation_metadata page))
                     pages) as Hloop.
  { unfold index_documentation. by rewrite fold_left_append. }
  split; [exact Hloop|]. rewrite Hloop.
  apply Forall_forall. intros c Hc.
  apply list_elem_of_In, in_flat_map in Hc as (page & Hpage & Hc).
  pose proof Hc as Hin. apply chunk_sound in Hc as (Hne & Hs & Hm).
  split_and!; [done..|]. exists page. rewrite Hm.
  by split_and!.
Qed.

(** X27: the chunks that the loop of [_index_github] gathers from the files
    the fetcher yields are the chunks of the content of each file, file
    after file; each has trimmed, non-empty content and the metadata of
    the file it was cut from, which holds the source type of the call and
    the URL, the path and the type of that file. *)
Theorem index_github_chunks (source_type : str)
    (files : list GitHub.GitHubFile) :
  index_github source_type files
  = flat_map (fun file =>
                Chunker.chunk_text 1000 200 (GitHub.content file)
                                   (github_metadata source_type file))
             files
  /\ Forall (fun c =>
               Chunker.content c <> []
               /\ strip (Chunker.content c) = Chunker.content c
               /\ exists file,
                    In file files
                    /\ In c (Chunker.chunk_text 1000 200
                               (GitHub.content file)
                               (github_metadata source_type file))
                    /\ Chunker.metadata c !! "source_type"%string
                       = Some source_type
                    /\ Chunker.metadata c !! "url"%string
                       = Some (GitHub.url file)
                    /\ Chunker.metadata c !! "file_path"%string
                       = Some (GitHub.path file)
                    /\ Chunker.metadata c !! "file_type"%string
                       = Some (GitHub.file_type file)
                    /\ dom (Chunker.metadata c)
                       = {["source_type"; "url"; "file_path";
                           "file_type"]}%string)
            (index_github source_type files).
Proof.
  assert (index_github source_type files
          = flat_map (fun file => chunk (GitHub.content file)
                                        (github_metadata source_type file))
                     files) as Hloop.
  { unfold index_github. by rewrite fold_left_append. }
  split; [exact Hloop|]. rewrite Hloop.
  apply Forall_forall. intros c Hc.
  apply list_elem_of_In, in_flat_map in Hc as (file & Hfile & Hc).
  pose proof Hc as Hin. apply chunk_sound in Hc as (Hne & Hs & Hm).
  split_and!; [done..|]. exists file. rewrite Hm.
  by split_and!.
Qed.

End IndexingFacts.

(** ** The configuration modal: the sources it creates *)

Section ModalsFacts.

Import Tasks Modals.

Lemma docs_urls_trimmed (docs_urls_raw url : str) :
  In url (docs_urls docs_urls_raw) -> url <> [] /\ strip url = url.
Proof.
  unfold docs_urls. intros (line & <- & Hline)%in_map_iff.
  apply filter_In in Hline as [_ Hline].
  split; [by apply nonempty_true | apply strip_idempotent].
Qed.

Lemma configured_sources_all (channel slack_channel_id docs_urls_raw : str)
    (github_operator github_operand : option str)
    (include_github_issues : bool) (slack_history_option : option nat) :
  Forall (fun k => channel_id k = channel /\ status k = PENDING
                   /\ last_indexed_at k = None /\ error_message k = None)
         (sources channel slack_channel_id docs_urls_raw github_operator
                  github_operand include_github_issues slack_history_option).
Proof.
  unfold sources. repeat apply Forall_app_2.
  - apply Forall_forall. intros k Hk.
    by apply list_elem_of_In, in_map_iff in Hk as (u & <- & _).
  - destruct github_operator as [repo|]; [|apply Forall_nil_2].
    destruct (nonempty repo); [|apply Forall_nil_2].
    destruct include_github_issues; repeat constructor.
  - destruct github_operand as [repo|]; [|apply Forall_nil_2].
    destruct (nonempty repo); [|apply Forall_nil_2]. repeat constructor.
  - destruct (0 <? _); [|apply Forall_nil_2]. repeat constructor.
Qed.

(** X28: every source the form creates is pending in the channel, with no
    timestamp and no error; a documentation source has a trimmed, non-empty
    URL; an issues source exists only beside an operator source of the
    same repository, so the checkbox has no effect without one; and there
    are at most four sources besides the documentation ones. *)
Theorem configured_sources (channel slack_channel_id docs_urls_raw : str)
    (github_operator github_operand : option str)
    (include_github_issues : bool) (slack_history_option : option nat) :
  let created :=
    sources channel slack_channel_id docs_urls_raw github_operator
            github_operand include_github_issues slack_history_option in
  Forall (fun k => channel_id k = channel /\ status k = PENDING
                   /\ last_indexed_at k = None /\ error_message k = None)
         created
  /\ (forall k, In k created -> source_type k = DOCUMENTATION ->
                url k <> [] /\ strip (url k) = url k)
  /\ (forall k, In k created -> source_type k = GITHUB_ISSUES ->
                include_github_issues = true
                /\ In (new_source channel GITHUB_OPERATOR (url k)) created)
  /\ length created <= length (docs_urls docs_urls_raw) + 4.
Proof.
  intros created. unfold created, sources. split_and!.
  - apply configured_sources_all.
  - intros k Hk Ht. apply in_app_or in Hk as [Hk|Hk].
    + apply in_map_iff in Hk as (u & <- & Hu). simpl.
      by apply (docs_urls_trimmed docs_urls_raw).
    + exfalso. apply in_app_or in Hk as [Hk|Hk];
        [|apply in_app_or in Hk as [Hk|Hk]].
      * destruct github_operator as [repo|]; [|done].
        destruct (nonempty repo); [|done].
        destruct include_github_issues;
          [destruct Hk as [<-|[<-|[]]] | destruct Hk as [<-|[]]]; done.
      * destruct github_operand as [repo|]; [|done].
        destruct (nonempty repo); [|done]. by destruct Hk as [<-|[]].
      * destruct (0 <? _); [|done]. by destruct Hk as [<-|[]].
  - intros k Hk Ht. apply in_app_or in Hk as [Hk|Hk].
    { apply in_map_iff in Hk as (u & <- & _). done. }
    apply in_app_or in Hk as [Hk|Hk].
    + destruct github_operator as [repo|]; [|done].
      destruct (nonempty repo); [|done].
      destruct include_github_issues.
      * destruct Hk as [<-|[<-|[]]]; [done|]. split; [done|].
        apply in_or_app. right. apply in_or_app. left. by left.
      * by destruct Hk as [<-|[]].
    + exfalso. apply in_app_or in Hk as [Hk|Hk].
      * destruct github_operand as [repo|]; [|done].
        destruct (nonempty repo); [|done]. by destruct Hk as [<-|[]].
      * destruct (0 <? _); [|done]. by destruct Hk as [<-|[]].
  - rewrite !length_app, length_map.
    assert (forall (b : bool) (x : KnowledgeSource),
              length (if b then [x] else []) <= 1) as Hone
      by (intros [] x; simpl; lia).
    assert (length match github_operator with
                   | Some repo =>
                       if nonempty repo
                       then new_source channel GITHUB_OPERATOR repo
                            :: (if include_github_issues
                                then [new_source channel GITHUB_ISSUES repo]
                                else [])
                       else []
                   | None => []
                   end <= 2) as Hop.
    { destruct github_operator as [repo|]; [|simpl; lia].
      destruct (nonempty repo); [|simpl; lia].
      destruct include_github_issues; simpl; lia. }
    assert (length match github_operand with
                   | Some repo =>
                       if nonempty repo
                       then [new_source channel GITHUB_OPERAND repo] else []
                   | None => []
                   end <= 1) as Hod.
    { destruct github_operand as [repo|]; [|simpl; lia]. apply Hone. }
    pose proof (Hone (0 <? default 30 slack_history_option)
                  (new_source channel SLACK_HISTORY
                     (lit "slack://" ++ slack_channel_id ++ lit "?days="
                      ++ str_of_nat (default 30 slack_history_option)))).
    lia.
Qed.

(** X29: the indexing run that follows a submission processes exactly the
    sources the form created: stored under distinct fresh ids, beside rows
    of other channels only, they are the pending sources of the channel. *)
Theorem configured_sources_are_pending {Meta Emb : Type}
    (channel slack_channel_id docs_urls_raw : str)
    (github_operator github_operand : option str)
    (include_github_issues : bool) (slack_history_option : option nat)
    (ids : list str) (others : gmap str KnowledgeSource) :
  let created :=
    sources channel slack_channel_id docs_urls_raw github_operator
            github_operand include_github_issues slack_history_option in
  NoDup ids ->
  length ids = length created ->
  (forall id, In id ids -> others !! id = None) ->
  (forall id k, others !! id = Some k -> channel_id k <> channel) ->
  select channel PENDING
    (start (Meta:=Meta) (Emb:=Emb) (list_to_map (zip ids created) ∪ others))
  ≡ₚ zip ids created.
Proof.
  intros created Hnd Hlen Hfresh Hothers.
  assert (NoDup (zip ids created).*1) as Hkeys.
  { rewrite fst_zip by lia. done. }
  assert (Forall (fun k => channel_id k = channel /\ status k = PENDING
                           /\ last_indexed_at k = None
                           /\ error_message k = None) created) as Hall
    by apply configured_sources_all.
  apply NoDup_Permutation.
  - unfold select. apply NoDup_ListNoDup, List.NoDup_filter,
      NoDup_ListNoDup, NoDup_map_to_list.
  - by apply NoDup_fmap_1 in Hkeys.
  - intros [id k]. unfold select.
    rewrite list_elem_of_In, filter_In, <- list_elem_of_In,
      elem_of_map_to_list. simpl.
    rewrite andb_true_iff, str_eqb_eq, status_eqb_eq.
    rewrite lookup_union_Some_raw.
    rewrite <- elem_of_list_to_map by done. split.
    + intros [[H|[_ H]] [Hc _]]; [done|]. by apply Hothers in H.
    + intros H. split; [by left|].
      apply elem_of_zip_r in H.
      by destruct (proj1 (Forall_forall _ _) Hall k H) as (? & ? & _).
Qed.

End ModalsFacts.

(** ** The vector store: one collection per channel *)

Lemma replace_char (x y : ascii) (s : str) :
  replace [x] [y] s = map (fun c => if Ascii.eqb x c then y else c) s.
Proof.
  unfold replace. induction s as [|c s IH]; [done|].
  cbn [replace_from startswith map length Nat.sub].
  rewrite andb_true_r, IH. by destruct (Ascii.eqb x c).
Qed.

Lemma map_dash_inj (a b : str) :
  ~ In "_"%char a -> ~ In "_"%char b ->
  map (fun c => if Ascii.eqb "-"%char c then "_"%char else c) a
  = map (fun c => if Ascii.eqb "-"%char c then "_"%char else c) b ->
  a = b.
Proof.
  revert b. induction a as [|c a IH]; intros [|d b] Ha Hb Hsame; try done.
  cbn [map] in Hsame.
  assert ((if Ascii.eqb "-"%char c then "_"%char else c)
          = (if Ascii.eqb "-"%char d then "_"%char else d)
          /\ map (fun c => if Ascii.eqb "-"%char c then "_"%char else c) a
             = map (fun c => if Ascii.eqb "-"%char c then "_"%char else c) b)
    as [Hcd Hrest] by (split; congruence).
  clear Hsame. f_equal.
  - destruct (Ascii.eqb_spec "-"%char c) as [Hc|Hc],
      (Ascii.eqb_spec "-"%char d) as [Hd|Hd].
    + congruence.
    + exfalso. apply Hb. left. congruence.
    + exfalso. apply Ha. left. congruence.
    + done.
  - apply IH; [| | done].
    + intros H. apply Ha. by right.
    + intros H. apply Hb. by right.
Qed.

(** X30: the name of a channel's collection has no dash, and channels whose
    ids have no underscore, as the generated ids do, never share a
    collection. *)
Theorem collection_name_separates (a b : str) :
  ~ In "_"%char a -> ~ In "_"%char b ->
  VectorStore.collection_name a = VectorStore.collection_name b ->
  a = b /\ ~ In "-"%char (VectorStore.collection_name a).
Proof.
  unfold VectorStore.collection_name. intros Ha Hb Hsame.
  apply app_inv_head in Hsame.
  change (lit "-") with ["-"%char] in *.
  change (lit "_") with ["_"%char] in *.
  rewrite !replace_char in *. split.
  - by apply map_dash_inj.
  - intros [H|H]%in_app_or; [vm_compute in H; intuition congruence|].
    apply in_map_iff in H as (c & Hc & _).
    destruct (Ascii.eqb_spec "-"%char c); congruence.
Qed.

(** ** Further properties: examples *)

Section FurtherExamples.

Import Chunker.

Lemma chunk_text_well_formed_witness :
  let text := lit "aaaaaa" ++ para_sep ++ lit "bbbbbbbb" in
  let c := mkChunk (lit "aaa" ++ para_sep ++ lit "bbbbbbbb") tt in
  In c (chunk_text 10 3 text tt)
  /\ content c <> [] /\ strip (content c) = content c
  /\ Chunker.metadata c = tt.
Proof.
  assert (In (mkChunk (lit "aaa" ++ para_sep ++ lit "bbbbbbbb") tt)
             (chunk_text 10 3 (lit "aaaaaa" ++ para_sep ++ lit "bbbbbbbb") tt))
    as Hin by (vm_compute; right; left; reflexivity).
  exact (conj Hin (chunk_text_well_formed 10 3 _ tt _ Hin)).
Defined.

Lemma chunk_text_keeps_paragraphs_witness :
  let text := lit "aaaaaa" ++ para_sep ++ lit " bbbbbbbb " ++ para_sep
              ++ lit "c" in
  In (lit " bbbbbbbb ") (paragraphs (strip text))
  /\ strip (lit " bbbbbbbb ") <> []
  /\ length (strip (lit " bbbbbbbb ")) <= 10
  /\ exists c, In c (chunk_text 10 3 text tt)
               /\ occurs (strip (lit " bbbbbbbb ")) (content c).
Proof.
  assert (In (lit " bbbbbbbb ")
             (paragraphs (strip (lit "aaaaaa" ++ para_sep
                                   ++ lit " bbbbbbbb " ++ para_sep
                                   ++ lit "c"))))
    as Hin by (vm_compute; right; left; reflexivity).
  assert (strip (lit " bbbbbbbb ") <> []) as Hne
    by (vm_compute; discriminate).
  assert (length (strip (lit " bbbbbbbb ")) <= 10) as Hfits
    by (vm_compute; lia).
  exact (conj Hin (conj Hne (conj Hfits
           (chunk_text_keeps_paragraphs 10 3 _ tt _ Hin Hne Hfits)))).
Defined.

Lemma chunk_text_keeps_sentences_witness :
  let text := lit "One two. Three four." in
  In text (paragraphs (strip text))
  /\ 10 < length (strip text)
  /\ In (lit "Three four.") (sentences (strip text))
  /\ strip (lit "Three four.") <> []
  /\ exists c, In c (chunk_text 10 3 text tt)
               /\ occurs (strip (lit "Three four.")) (content c).
Proof.
  assert (In (lit "One two. Three four.")
             (paragraphs (strip (lit "One two. Three four."))))
    as Hin by (vm_compute; left; reflexivity).
  assert (10 < length (strip (lit "One two. Three four."))) as Hbig
    by (vm_compute; lia).
  assert (In (lit "Three four.")
             (sentences (strip (lit "One two. Three four."))))
    as Hs by (vm_compute; right; left; reflexivity).
  assert (strip (lit "Three four.") <> []) as Hne
    by (vm_compute; discriminate).
  exact (conj Hin (conj Hbig (conj Hs (conj Hne
           (chunk_text_keeps_sentences 10 3 _ tt _ _ Hin Hbig Hs Hne))))).
Defined.

Lemma chunk_text_zero_overlap_cumulative_witness :
  let text := lit "aaaaaa" ++ para_sep ++ lit "bbbbbb" ++ para_sep
              ++ lit "cccccc" in
  Forall (fun p => length (strip p) <= 10) (paragraphs (strip text))
  /\ chain (map content (chunk_text 10 0 text tt)).
Proof.
  assert (Forall (fun p => length (strip p) <= 10)
                 (paragraphs (strip (lit "aaaaaa" ++ para_sep ++ lit "bbbbbb"
                                       ++ para_sep ++ lit "cccccc"))))
    as Hfit.
  { apply List.Forall_forall. intros p Hp. apply Nat.leb_le.
    revert p Hp. apply forallb_forall. vm_compute. reflexivity. }
  exact (conj Hfit (chunk_text_zero_overlap_cumulative 10 _ tt Hfit)).
Defined.

End FurtherExamples.

Section ServiceFurtherExamples.

Lemma fetch_readme_first_witness :
  0 < 100
  /\ readme_repo (lit "README.md") = GitHub.Single readme_file
  /\ GitHub.cf_path readme_file = lit "README.md"
  /\ (GitHub.cf_size readme_file <= GitHub.size_ceiling)%N
  /\ GitHub.cf_decoded readme_file = Some (lit "# Operator")
  /\ exists st rest,
       GitHub.fetch 100 (Some readme_repo) = Some st
       /\ GitHub.yielded st
          = GitHub.mkFile (lit "README.md") (lit "# Operator")
              (GitHub.cf_html_url readme_file) (lit "readme") :: rest.
Proof.
  assert (0 < 100) as Hroom by lia.
  assert (readme_repo (lit "README.md") = GitHub.Single readme_file)
    as Hrepo by reflexivity.
  assert (GitHub.cf_path readme_file = lit "README.md") as Hpath
    by reflexivity.
  assert (GitHub.cf_size readme_file <= GitHub.size_ceiling)%N as Hsize
    by (vm_compute; discriminate).
  assert (GitHub.cf_decoded readme_file = Some (lit "# Operator")) as Hdec
    by reflexivity.
  exact (conj Hroom (conj Hrepo (conj Hpath (conj Hsize (conj Hdec
           (fetch_readme_first 100 readme_repo readme_file _
              Hroom Hrepo Hpath Hsize Hdec)))))).
Defined.

Import Tasks.


Import Pipeline.

Local Abbreviation ask collection_query model :=
  (answer_question 12 unit_encode collection_query model hundredths_score
                   hundredths_below_floor (lit "How?") []).

Lemma answer_sources_sound_witness :
  exists a trace',
    ask two_hits_index echo_model = (Ok a, trace')
    /\ length (sources a) <= 3
    /\ NoDup (sources a)
    /\ sources a = [lit "https://ex.com/docs/install"].
Proof.
  set (out := ask two_hits_index echo_model).
  set (a := match fst out with Ok a => a | Raise _ => not_found end).
  assert (out = (Ok a, snd out)) as Hrun by (vm_compute; reflexivity).
  pose proof (answer_sources_sound 12 unit_encode two_hits_index echo_model
                hundredths_score hundredths_below_floor (lit "How?") []
                (snd out) a Hrun) as (Hlen & Hnd & _).
  exists a, (snd out). split_and!; [exact Hrun | exact Hlen | exact Hnd |].
  vm_compute. reflexivity.
Defined.

Lemma answer_from_relevant_hits_witness :
  12 <> 0
  /\ unit_encode (lit "How?") = Ok 4
  /\ relevant hundredths_below_floor
       (retrieved two_hits_index hundredths_score 4) <> []
  /\ echo_model (lit "How?") (lit "Install with pip.")
     = Ok (lit "Install with pip.", lit "high")
  /\ exists a,
       ask two_hits_index echo_model
       = (Ok a, retrieval_calls (lit "How?")
                  ++ [GenerateAnswer (lit "How?") (lit "Install with pip.")])
       /\ answer a = lit "Install with pip."
       /\ confidence a = lit "high".
Proof.
  assert (12 <> 0) as Hcount by discriminate.
  assert (unit_encode (lit "How?") = Ok 4) as Hembed by reflexivity.
  assert (relevant hundredths_below_floor
            (retrieved two_hits_index hundredths_score 4) <> []) as Hrel
    by (vm_compute; discriminate).
  assert (echo_model (lit "How?")
            (join context_separator
               (map hit_content
                  (relevant hundredths_below_floor
                     (retrieved two_hits_index hundredths_score 4))))
          = Ok (lit "Install with pip.", lit "high")) as Hgen
    by (vm_compute; reflexivity).
  exact (conj Hcount (conj Hembed (conj Hrel (conj eq_refl
           (answer_from_relevant_hits 12 unit_encode two_hits_index
              echo_model hundredths_score hundredths_below_floor
              (lit "How?") 4 [] _ _ Hcount Hembed Hrel Hgen))))).
Defined.



Lemma embedding_failure_propagates_witness :
  12 <> 0
  /\ failing_encode (lit "How?") = Raise (Exception (lit "model not loaded"))
  /\ answer_question 12 failing_encode two_hits_index echo_model
       hundredths_score hundredths_below_floor (lit "How?") []
     = (Raise (Exception (lit "model not loaded")),
        [LoadModel; CollectionCount; EncodeQuery (lit "How?")]).
Proof.
  assert (12 <> 0) as Hcount by discriminate.
  assert (failing_encode (lit "How?")
          = Raise (Exception (lit "model not loaded"))) as Hembed
    by reflexivity.
  exact (conj Hcount (conj Hembed
           (embedding_failure_propagates 12 failing_encode two_hits_index
              echo_model hundredths_score hundredths_below_floor
              (lit "How?") [] _ Hcount Hembed))).
Defined.

Lemma extract_confidence_reads_marker_witness :
  In (lit "[CONFIDENCE:LOW]", lit "low") confidence_markers
  /\ bracket_free (lit "Not sure.")
  /\ strip (lit "Not sure.") = lit "Not sure."
  /\ blank [LF; LF]
  /\ LLM.extract_confidence (lit "Not sure." ++ [LF; LF]
                               ++ lit "[CONFIDENCE:LOW]")
     = (lit "Not sure.", lit "low").
Proof.
  assert (In (lit "[CONFIDENCE:LOW]", lit "low") confidence_markers)
    as Hmarker by (right; right; left; reflexivity).
  assert (bracket_free (lit "Not sure.")) as Hfree
    by (repeat (constructor; [discriminate|]); constructor).
  assert (strip (lit "Not sure.") = lit "Not sure.") as Hbody
    by reflexivity.
  assert (blank [LF; LF]) as Hws
    by (repeat (constructor; [reflexivity|]); constructor).
  exact (conj Hmarker (conj Hfree (conj Hbody (conj Hws
           (extract_confidence_reads_marker _ _ _ _
              Hmarker Hfree Hbody Hws))))).
Defined.

Lemma configured_sources_are_pending_witness :
  let ids := [lit "s1"; lit "s2"; lit "s3"; lit "s4"] in
  NoDup ids
  /\ length ids = length form_sources
  /\ select (lit "channel-1") PENDING
       (start (Meta:=unit) (Emb:=nat)
          (list_to_map (zip ids form_sources) ∪ ∅))
     ≡ₚ zip ids form_sources.
Proof.
  assert (NoDup [lit "s1"; lit "s2"; lit "s3"; lit "s4"]) as Hnd.
  { apply (bool_decide_unpack _). vm_compute. reflexivity. }
  assert (length [lit "s1"; lit "s2"; lit "s3"; lit "s4"]
          = length form_sources) as Hlen by reflexivity.
  assert (forall id, In id [lit "s1"; lit "s2"; lit "s3"; lit "s4"] ->
                     (∅ : gmap str KnowledgeSource) !! id = None) as Hfresh
    by (intros id _; apply lookup_empty).
  assert (forall id k, (∅ : gmap str KnowledgeSource) !! id = Some k ->
                       channel_id k <> lit "channel-1") as Hothers
    by (intros id k H; rewrite lookup_empty in H; discriminate).
  exact (conj Hnd (conj Hlen
           (configured_sources_are_pending (Meta:=unit) (Emb:=nat)
              (lit "channel-1") (lit "C0123") (lit "https://ex.com/docs")
              (Some (lit "https://github.com/o/r")) None true (Some 7)
              _ ∅ Hnd Hlen Hfresh Hothers))).
Defined.

Lemma collection_name_separates_witness :
  ~ In "_"%char (lit "3f2a-77c1")
  /\ VectorStore.collection_name (lit "3f2a-77c1") = lit "channel_3f2a_77c1"
  /\ ~ In "-"%char (VectorStore.collection_name (lit "3f2a-77c1")).
Proof.
  assert (~ In "_"%char (lit "3f2a-77c1")) as Ha
    by (vm_compute; intuition discriminate).
  split; [exact Ha|]. split; [reflexivity|].
  exact (proj2 (collection_name_separates (lit "3f2a-77c1")
                  (lit "3f2a-77c1") Ha Ha eq_refl)).
Defined.

End ServiceFurtherExamples.
